(** * The cvd instance registry and the start-command handler

    A shallow embedding of
    - [host/commands/cvd/selector/instance_database.cpp],
    - [host/commands/cvd/selector/instance_record.cpp]    (module [instance_db]),
    - [host/commands/cvd/server_command/start.cpp]        (modules [flag_parser]
      and [start]),
    and the properties of the design document checked against it.

    Conventions.  A C++ [Result<T>] is the type [Result T]; every [CF_EXPECT]
    site has its own constructor of [Error], and [error_kind] sorts the sites
    into the kinds of the design document.  A failed [CHECK], an assertion of
    a library or undefined behaviour is the third outcome, [Abort].  Code that
    mutates an object it was handed (the protobuf under the exclusive lock, the
    argument vector, the environment map) is written in the state monad [St]. *)

From Stdlib Require Import Ascii.
From stdpp Require Import base strings list gmap pretty sorting.

Open Scope string_scope.
Open Scope list_scope.

(** ** Results and errors *)

Inductive ErrorKind := Invalid | Conflict | IO | Precondition | Internal.

Inductive Error :=
  (* instance_database.cpp, AddInstanceGroup *)
  | IllFormedGroupName (group_name : string)
  | HomeDirUnavailable (home : string)
  | NotAToolDirectory (path : string)
  | InvalidInstanceName (instance_name : string)
  | GroupConflict (group_name home : string)
  | InstanceConflict (instance_name : string) (instance_id : N)
  (* LocalInstanceGroup::Create and LocalInstanceGroup::Deserialize *)
  | GroupValidationFailed
  | DeserializeFailed
  (* instance_database.cpp, LoadFromJson *)
  | JsonNoGroupsKey
  | JsonGroupsNotArray
  (* flag_parser *)
  | ExpectedArgumentAfter (arg : string)
  (* start.cpp *)
  | NoDaemonNotSupported
  | DaemonValueHasComma (value : string)
  | DaemonFalseNotSupported (key value : string)
  | InvalidDaemonOption (key value : string)
  | FlagNotSupported (flag_name : string)
  | CannotHandle
  | HomeStartsWithTilde
  | NoSystemWideUserHome
  | PathNotConvertible
  | NoAndroidHostOut
  | NoStartBin
  | NotAStartSubcmd
  | HelpCheckFailed
  | AnalyzeFailed
  | EmptyHome
  | ConstructCommandFailed
  | SignalPipeFailed
  | WaitBehaviorStart
  | SetupFailed
  | WaitFailed
  | NoInstances
  | HomeAlreadyTaken (home : string)
  | RemoveGroupFailed
  | FindGroupFailed
  | FetchStatusFailed
  | WriteFailed.

Definition error_kind (e : Error) : ErrorKind :=
  match e with
  | GroupConflict _ _ | InstanceConflict _ _ | HomeAlreadyTaken _ => Conflict
  | HomeDirUnavailable _ | SignalPipeFailed | WriteFailed => IO
  | NoAndroidHostOut | WaitBehaviorStart => Precondition
  | NoSystemWideUserHome | NoStartBin | ConstructCommandFailed | SetupFailed
  | WaitFailed | NoInstances | RemoveGroupFailed | FindGroupFailed
  | FetchStatusFailed | FlagNotSupported _ => Internal
  | IllFormedGroupName _ | NotAToolDirectory _ | InvalidInstanceName _
  | GroupValidationFailed | DeserializeFailed | JsonNoGroupsKey
  | JsonGroupsNotArray | ExpectedArgumentAfter _ | NoDaemonNotSupported
  | DaemonValueHasComma _ | DaemonFalseNotSupported _ _
  | InvalidDaemonOption _ _ | CannotHandle | HomeStartsWithTilde
  | PathNotConvertible | NotAStartSubcmd | HelpCheckFailed | AnalyzeFailed
  | EmptyHome => Invalid
  end.

Inductive Result (A : Type) :=
  | Ok (a : A)
  | Err (e : Error)
  | Abort.
Arguments Ok {A} a.
Arguments Err {A} e.
Arguments Abort {A}.

Definition ok {A} (r : Result A) : bool :=
  match r with Ok _ => true | _ => false end.

Definition is_conflict {A} (r : Result A) : bool :=
  match r with
  | Err e => match error_kind e with Conflict => true | _ => false end
  | _ => false
  end.

Definition is_invalid {A} (r : Result A) : bool :=
  match r with
  | Err e => match error_kind e with Invalid => true | _ => false end
  | _ => false
  end.

(** ** State passing

    [St S A] is a computation over a mutable [S] that may stop with an error.
    The state reached when it stops is kept: a C++ function that returns an
    error does not undo the writes it made before. *)

Definition St (S A : Type) : Type := S → Result A * S.

Definition ret {S A} (a : A) : St S A := λ s, (Ok a, s).

Definition bind {S A B} (m : St S A) (k : A → St S B) : St S B :=
  λ s, match m s with
       | (Ok a, s') => k a s'
       | (Err e, s') => (Err e, s')
       | (Abort, s') => (Abort, s')
       end.

Notation "x <- m ;; k" := (bind m (λ x, k))
  (at level 100, m at next level, right associativity).
Notation "m ;;; k" := (bind m (λ _, k))
  (at level 100, right associativity).

(** [CF_EXPECT(res)] on a [Result]: the value, or return the error. *)
Definition lift {S A} (r : Result A) : St S A := λ s, (r, s).

(** [CF_EXPECT(cond, msg)] on a condition. *)
Definition CF_EXPECT {S} (cond : bool) (e : Error) : St S unit :=
  λ s, (if cond then Ok tt else Err e, s).

Definition get {S} : St S S := λ s, (Ok s, s).
Definition modify {S} (f : S → S) : St S unit := λ s, (Ok tt, f s).

Fixpoint for_each {S A} (l : list A) (body : A → St S unit) : St S unit :=
  match l with
  | [] => ret tt
  | x :: l' => body x ;;; for_each l' body
  end.

(** The same loop on plain results: [push_back(CF_EXPECT(f(x)))]. *)
Fixpoint collect {A B} (f : A → Result B) (l : list A) : Result (list B) :=
  match l with
  | [] => Ok []
  | x :: l' =>
      match f x with
      | Ok b => match collect f l' with
                | Ok bs => Ok (b :: bs)
                | Err e => Err e
                | Abort => Abort
                end
      | Err e => Err e
      | Abort => Abort
      end
  end.

(** ** The persisted data ([cvd_persistent_data.proto]) *)

(** [cvd::Instance]: the proto fields [id] and [name]. *)
Record Instance := mkInstance {
  Instance_id : N;
  Instance_name : string;
}.

(** [cvd::InstanceGroup]. *)
Record InstanceGroup := mkInstanceGroup {
  name : string;
  home_directory : string;
  host_artifacts_path : string;
  product_out_path : string;
  instances : list Instance;
}.

(** [cvd::PersistentData]. *)
Record PersistentData := mkPersistentData {
  instance_groups : list InstanceGroup;
  acloud_translator_optout : bool;
}.

Global Instance Instance_eq_dec : EqDecision Instance.
Proof. solve_decision. Defined.
Global Instance InstanceGroup_eq_dec : EqDecision InstanceGroup.
Proof. solve_decision. Defined.
Global Instance PersistentData_eq_dec : EqDecision PersistentData.
Proof. solve_decision. Defined.

(** [selector::LocalInstance] as [FindInstances] uses it: the id and the
    per-instance name of a proto instance. *)
Record LocalInstance := mkLocalInstance {
  InstanceId : N;
  PerInstanceName : string;
}.

(** [selector::LocalInstanceGroup] wraps the proto it was created from. *)
Record LocalInstanceGroup := mkLocalInstanceGroup {
  Proto : InstanceGroup;
}.

Definition GroupName (g : LocalInstanceGroup) : string := name (Proto g).
Definition HomeDir (g : LocalInstanceGroup) : string := home_directory (Proto g).

(** Modelled from the spec: the accessors of [LocalInstanceGroup]
    ([instance_group_record.cpp] is not among the sources).  The query engine
    matches an [id] when "at least one Instance has that id" and an
    [instance-name] when "at least one Instance has that name"; [Instances]
    lists the instances of the group in their stored order. *)
Definition Instances (g : LocalInstanceGroup) : list LocalInstance :=
  map (λ i, mkLocalInstance (Instance_id i) (Instance_name i)) (instances (Proto g)).

Definition FindById (g : LocalInstanceGroup) (id : N) : list LocalInstance :=
  filter (λ i, InstanceId i = id) (Instances g).

Definition FindByInstanceName (g : LocalInstanceGroup) (n : string)
  : list LocalInstance :=
  filter (λ i, PerInstanceName i = n) (Instances g).

(** ** The file system, as far as [AddInstanceGroup] touches it *)

Record FileSystem := mkFileSystem {
  directories : gset string;   (* the directories that exist *)
  read_only : gset string;     (* paths at which mkdir fails *)
}.

(** Modelled from the spec: [EnsureDirectoryExists] ([common/libs/utils/files]
    is not among the sources): it "ensures home-dir exists or is created",
    and fails when the directory "neither exists nor can be created".  The
    parents it may create on the way are not tracked. *)
Definition EnsureDirectoryExists (dir : string) (fs : FileSystem)
  : bool * FileSystem :=
  if decide (dir ∈ directories fs) then (true, fs)
  else if decide (dir ∈ read_only fs) then (false, fs)
  else (true, mkFileSystem ({[dir]} ∪ directories fs) (read_only fs)).

(** ** JSON values ([Json::Value]) *)

#[local] Set Warnings "-register-all".
Inductive Json :=
  | JNull
  | JBool (b : bool)
  | JNumber (n : Z)
  | JString (s : string)
  | JArray (elements : list Json)
  | JObject (members : list (string * Json)).

Fixpoint member (key : string) (members : list (string * Json)) : option Json :=
  match members with
  | [] => None
  | (k, v) :: rest => if decide (k = key) then Some v else member key rest
  end.

(** [Json::Value::isMember]: defined on objects and on null, an assertion
    failure on every other type. *)
Definition isMember (v : Json) (key : string) : Result bool :=
  match v with
  | JObject members => Ok (bool_decide (is_Some (member key members)))
  | JNull => Ok false
  | _ => Abort
  end.

(** The subscript operator on a const value: the member, null when absent. *)
Definition json_index (v : Json) (key : string) : Json :=
  match v with
  | JObject members => default JNull (member key members)
  | _ => JNull
  end.

Definition isArray (v : Json) : bool :=
  match v with JArray _ => true | _ => false end.

Definition json_elements (v : Json) : list Json :=
  match v with JArray l => l | _ => [] end.

Definition kJsonGroups : string := "Groups".

(** The instance ids of a group, in the order of its instances. *)
Definition ids_of (g : InstanceGroup) : list N :=
  map Instance_id (instances g).

(** ** What the registry takes from the rest of the repository

    These functions are declared in headers included by
    [instance_database.cpp]; their bodies are not among the sources, so the
    registry is verified for every implementation of them. *)
Class RegistryDeps := {
  (* instance_database_utils.h *)
  IsValidGroupName : string → bool;
  IsValidInstanceName : string → bool;
  PotentiallyHostArtifactsPath : FileSystem → string → bool;
  (* the checks LocalInstanceGroup::Create makes on a proto *)
  ValidGroup : InstanceGroup → bool;
  (* LocalInstanceGroup::Deserialize *)
  Deserialize : Json → Result LocalInstanceGroup;
}.


(** ** instance_database.cpp *)

(** [InstanceDatabase::FindParam]: every field is a [std::optional]. *)
Record FindParam := mkFindParam {
  find_home : option string;
  find_id : option N;
  find_group_name : option string;
  find_instance_name : option string;
}.

Definition no_param : FindParam := mkFindParam None None None None.

(** [opt && opt != x] on a [std::optional]. *)
Definition set_and_differs {A} `{EqDecision A} (opt : option A) (x : A) : bool :=
  match opt with
  | Some v => bool_decide (v ≠ x)
  | None => false
  end.

Definition empty {A} (l : list A) : bool :=
  match l with [] => true | _ => false end.

Definition push_back {A} (x : A) (r : Result (list A)) : Result (list A) :=
  match r with
  | Ok l => Ok (x :: l)
  | Err e => Err e
  | Abort => Abort
  end.

(** The backing file and the two lock scopes.

    Modelled from the spec: [viewer_.WithSharedLock] and
    [viewer_.WithExclusiveLock] (the data viewer is not among the sources).
    The shared scope "presents a read-only view of the deserialized Registry";
    the exclusive scope "presents a mutable view to fn, and, iff fn returns
    success, re-serializes and atomically replaces the backing file.  On fn
    failure, the file is not modified."  The backing file is identified with
    the [PersistentData] it deserializes to. *)
Definition WithSharedLock {A} (fn : PersistentData → Result A)
  : St PersistentData A :=
  λ file, (fn file, file).

Definition WithExclusiveLock {A} (fn : St PersistentData A)
  : St PersistentData A :=
  λ file, match fn file with
          | (Ok a, data) => (Ok a, data)
          | (Err e, _) => (Err e, file)
          | (Abort, _) => (Abort, file)
          end.

Definition clear_instance_groups (data : PersistentData) : PersistentData :=
  mkPersistentData [] (acloud_translator_optout data).

(** [*data.add_instance_groups() = group]. *)
Definition add_instance_groups (group : InstanceGroup) (data : PersistentData)
  : PersistentData :=
  mkPersistentData (instance_groups data ++ [group]) (acloud_translator_optout data).

Definition set_acloud_translator_optout (optout : bool) (data : PersistentData)
  : PersistentData :=
  mkPersistentData (instance_groups data) optout.

(** What [AddInstanceGroup] runs on: the file system and the backing file. *)
Record World := mkWorld {
  fs : FileSystem;
  backing_file : PersistentData;
}.

Definition on_file {A} (m : St PersistentData A) : St World A :=
  λ w, let '(r, file) := m (backing_file w) in (r, mkWorld (fs w) file).

Definition ensure_directory (dir : string) : St World bool :=
  λ w, let '(b, fs') := EnsureDirectoryExists dir (fs w) in
       (Ok b, mkWorld fs' (backing_file w)).

Section Registry.
Context `{RegistryDeps}.

Definition Create (group_proto : InstanceGroup) : Result LocalInstanceGroup :=
  if ValidGroup group_proto then Ok (mkLocalInstanceGroup group_proto)
  else Err GroupValidationFailed.

(** The static [FindGroups(data, param)]: the loop over
    [data.instance_groups()].  The [CHECK] on the result of [Create] aborts
    the process. *)
Fixpoint FindGroups_loop (groups : list InstanceGroup) (param : FindParam)
  : Result (list LocalInstanceGroup) :=
  match groups with
  | [] => Ok []
  | group :: rest =>
      if set_and_differs (find_home param) (home_directory group)
      then FindGroups_loop rest param
      else if set_and_differs (find_group_name param) (name group)
      then FindGroups_loop rest param
      else match Create group with
           | Ok group_res =>
               if match find_id param with
                  | Some id => empty (FindById group_res id)
                  | None => false
                  end
               then FindGroups_loop rest param
               else if match find_instance_name param with
                       | Some n => empty (FindByInstanceName group_res n)
                       | None => false
                       end
               then FindGroups_loop rest param
               else push_back group_res (FindGroups_loop rest param)
           | _ => Abort
           end
  end.

Definition FindGroups (data : PersistentData) (param : FindParam)
  : Result (list LocalInstanceGroup) :=
  FindGroups_loop (instance_groups data) param.

(** The inner loop of [FindInstances] over [group_res->Instances()]. *)
Definition matching_instances_of (group_res : LocalInstanceGroup)
    (param : FindParam) : list LocalInstance :=
  filter (λ instance,
            set_and_differs (find_id param) (InstanceId instance) = false ∧
            set_and_differs (find_instance_name param)
                            (PerInstanceName instance) = false)
         (Instances group_res).

Fixpoint FindInstances_loop (groups : list InstanceGroup) (param : FindParam)
  : Result (list LocalInstance) :=
  match groups with
  | [] => Ok []
  | group :: rest =>
      if set_and_differs (find_group_name param) (name group)
      then FindInstances_loop rest param
      else if set_and_differs (find_home param) (home_directory group)
      then FindInstances_loop rest param
      else match Create group with
           | Ok group_res =>
               match FindInstances_loop rest param with
               | Ok l => Ok (matching_instances_of group_res param ++ l)
               | Err e => Err e
               | Abort => Abort
               end
           | _ => Abort
           end
  end.

Definition FindInstances (data : PersistentData) (param : FindParam)
  : Result (list LocalInstance) :=
  FindInstances_loop (instance_groups data) param.

Definition IsEmpty : St PersistentData bool :=
  WithSharedLock (λ data, Ok (empty (instance_groups data))).

Definition Clear : St PersistentData (list LocalInstanceGroup) :=
  WithExclusiveLock (
    data <- get ;;
    let copy := instance_groups data in
    modify clear_instance_groups ;;;
    lift (collect Create copy)).

(** [ListGroups] of the design document. *)
Definition InstanceGroups : St PersistentData (list LocalInstanceGroup) :=
  WithSharedLock (λ data, collect Create (instance_groups data)).

(** The body of the loop over [group_proto.instances()] under the lock. *)
Definition id_check (instance_proto : Instance) : St PersistentData unit :=
  data <- get ;;
  matching_instances <-
    lift (FindInstances data
            (mkFindParam None (Some (Instance_id instance_proto)) None None)) ;;
  match matching_instances with
  | [] => ret tt
  | i :: _ => lift (Err (InstanceConflict (PerInstanceName i) (InstanceId i)))
  end.

(** The closure [AddInstanceGroup] runs under the exclusive lock. *)
Definition AddInstanceGroup_locked (group_proto : InstanceGroup)
  : St PersistentData LocalInstanceGroup :=
  data <- get ;;
  matching_groups <-
    lift (FindGroups data
            (mkFindParam (Some (home_directory group_proto)) None
                         (Some (name group_proto)) None)) ;;
  match matching_groups with
  | [] => ret tt
  | g :: _ => lift (Err (GroupConflict (GroupName g) (HomeDir g)))
  end ;;;
  for_each (instances group_proto) id_check ;;;
  modify (add_instance_groups group_proto) ;;;
  lift (Create group_proto).

Definition AddInstanceGroup (group_proto : InstanceGroup)
  : St World LocalInstanceGroup :=
  CF_EXPECT (IsValidGroupName (name group_proto))
            (IllFormedGroupName (name group_proto)) ;;;
  exists_or_created <- ensure_directory (home_directory group_proto) ;;
  CF_EXPECT exists_or_created
            (HomeDirUnavailable (home_directory group_proto)) ;;;
  w <- get ;;
  CF_EXPECT (PotentiallyHostArtifactsPath (fs w) (host_artifacts_path group_proto))
            (NotAToolDirectory (host_artifacts_path group_proto)) ;;;
  for_each (instances group_proto) (λ instance_proto,
    CF_EXPECT (IsValidInstanceName (Instance_name instance_proto))
              (InvalidInstanceName (Instance_name instance_proto))) ;;;
  on_file (WithExclusiveLock (AddInstanceGroup_locked group_proto)).

(** [mutable_groups->erase(it)] at the first group of that name. *)
Fixpoint erase_first (group_name : string) (groups : list InstanceGroup)
  : bool * list InstanceGroup :=
  match groups with
  | [] => (false, [])
  | g :: rest =>
      if decide (name g = group_name) then (true, rest)
      else let '(b, rest') := erase_first group_name rest in (b, g :: rest')
  end.

Definition RemoveInstanceGroup (group_name : string) : St PersistentData bool :=
  WithExclusiveLock (λ data,
    let '(b, groups) := erase_first group_name (instance_groups data) in
    (Ok b, mkPersistentData groups (acloud_translator_optout data))).

Definition LoadFromJson (db_json : Json) : St PersistentData unit :=
  is_member <- lift (isMember db_json kJsonGroups) ;;
  CF_EXPECT is_member JsonNoGroupsKey ;;;
  let group_array := json_index db_json kJsonGroups in
  CF_EXPECT (isArray group_array) JsonGroupsNotArray ;;;
  new_groups <- lift (collect Deserialize (json_elements group_array)) ;;
  WithExclusiveLock (
    for_each new_groups (λ group,
      modify (add_instance_groups (Proto group)))).

Definition SetAcloudTranslatorOptout (optout : bool) : St PersistentData unit :=
  WithExclusiveLock (modify (set_acloud_translator_optout optout)).

Definition GetAcloudTranslatorOptout : St PersistentData bool :=
  WithSharedLock (λ data, Ok (acloud_translator_optout data)).

End Registry.

(** The invariants of the registry. *)

Definition group_key (g : InstanceGroup) : string * string :=
  (name g, home_directory g).

Definition all_ids (data : PersistentData) : list N :=
  concat (map ids_of (instance_groups data)).

(** R1: (group-name, home-directory) pairs are unique across groups. *)
Definition R1 (data : PersistentData) : Prop :=
  NoDup (map group_key (instance_groups data)).

(** R2: an instance id is unique across all instances of all groups. *)
Definition R2 (data : PersistentData) : Prop :=
  NoDup (all_ids data).

(** R3: every stored group passes the validation of [Create]. *)
Definition R3 `{RegistryDeps} (data : PersistentData) : Prop :=
  Forall (λ g, ValidGroup g = true) (instance_groups data).

(** The two conflicts, and the remaining checks of [AddInstanceGroup]. *)

(** Some stored group has the (home, group name) pair of the new one. *)
Definition group_clash (spec : InstanceGroup) (data : PersistentData) : Prop :=
  Exists (λ g, home_directory g = home_directory spec ∧ name g = name spec)
         (instance_groups data).

(** Some stored instance has an id of the new group. *)
Definition id_clash (spec : InstanceGroup) (data : PersistentData) : Prop :=
  Exists (λ id, id ∈ all_ids data) (ids_of spec).

(** Every check of [AddInstanceGroup] other than the two conflict checks
    succeeds: the four before the lock and the final [Create]. *)
Definition passes_validation `{RegistryDeps}
    (spec : InstanceGroup) (w : World) : Prop :=
  IsValidGroupName (name spec) = true ∧
  (EnsureDirectoryExists (home_directory spec) (fs w)).1 = true ∧
  PotentiallyHostArtifactsPath
    (EnsureDirectoryExists (home_directory spec) (fs w)).2
    (host_artifacts_path spec) = true ∧
  Forall (λ i, IsValidInstanceName (Instance_name i) = true) (instances spec) ∧
  ValidGroup spec = true.

(** ** A reference implementation of the registry's dependencies

    The properties below hold for every [RegistryDeps]; closed examples need
    one to run on. *)

Definition is_letter_or_underscore (c : ascii) : bool :=
  let n := N_of_ascii c in
  ((65 <=? n) && (n <=? 90) || (97 <=? n) && (n <=? 122) || (n =? 95))%N.

Definition is_digit (c : ascii) : bool :=
  let n := N_of_ascii c in ((48 <=? n) && (n <=? 57))%N.

Fixpoint all_chars (p : ascii → bool) (s : string) : bool :=
  match s with
  | EmptyString => true
  | String c s' => p c && all_chars p s'
  end.

(** Modelled from the spec: [IsValidGroupName] and [IsValidInstanceName]
    ([instance_database_utils.cpp] is not among the sources).  R4: "group-name
    matches [[A-Za-z_][A-Za-z0-9_]*]; instance-name follows a comparable
    rule"; the same rule is taken for both. *)
Definition name_rule (s : string) : bool :=
  match s with
  | EmptyString => false
  | String c s' =>
      is_letter_or_underscore c
      && all_chars (λ c, is_letter_or_underscore c || is_digit c) s'
  end.

(** Modelled from the spec: [PotentiallyHostArtifactsPath]
    ([instance_database_utils.cpp] is not among the sources).  The host
    artifacts path is the "directory containing the launcher toolkit binaries
    ([bin/launch_cvd] etc.)". *)
Definition has_bin_directory (fs : FileSystem) (path : string) : bool :=
  bool_decide (path +:+ "/bin" ∈ directories fs).

(** Modelled from the spec: the validation of [LocalInstanceGroup::Create]
    ([instance_group_record.cpp] is not among the sources).  R3 and R4: a
    stored group re-validates when its "names [are] well-formed per rules,
    each Instance well-formed", and its "home-directory is absolute"; the
    instance ids are "unique". *)
Definition well_formed_group (g : InstanceGroup) : bool :=
  name_rule (name g)
  && String.prefix "/" (home_directory g)
  && forallb (λ i, name_rule (Instance_name i)) (instances g)
  && bool_decide (NoDup (ids_of g)).

Definition json_string (v : Json) : Result string :=
  match v with JString s => Ok s | _ => Err DeserializeFailed end.

Definition json_unsigned (v : Json) : Result N :=
  match v with
  | JNumber n => if (0 <=? n)%Z then Ok (Z.to_N n) else Err DeserializeFailed
  | _ => Err DeserializeFailed
  end.

Definition and_then {A B} (r : Result A) (k : A → Result B) : Result B :=
  match r with
  | Ok a => k a
  | Err e => Err e
  | Abort => Abort
  end.

Definition deserialize_instance (v : Json) : Result Instance :=
  and_then (json_unsigned (json_index v "instance_id")) (λ id,
  and_then (json_string (json_index v "per_instance_name")) (λ n,
  Ok (mkInstance id n))).

(** Modelled from the spec: [LocalInstanceGroup::Deserialize]
    ([instance_group_record.cpp] is not among the sources).  An element of the
    import array is "a serialized Group": an object that carries the
    attributes of the Group and the list of its Instances, and that
    re-validates as a stored group does. *)
Definition deserialize_group (v : Json) : Result LocalInstanceGroup :=
  and_then (json_string (json_index v "group_name")) (λ group_name,
  and_then (json_string (json_index v "home_dir")) (λ home,
  and_then (json_string (json_index v "host_artifacts_path")) (λ artifacts,
  and_then (json_string (json_index v "product_out_path")) (λ product_out,
  and_then (collect deserialize_instance
              (json_elements (json_index v "instances"))) (λ insts,
  let g := mkInstanceGroup group_name home artifacts product_out insts in
  if well_formed_group g then Ok (mkLocalInstanceGroup g)
  else Err GroupValidationFailed))))).

Definition reference_deps : RegistryDeps := {|
  IsValidGroupName := name_rule;
  IsValidInstanceName := name_rule;
  PotentiallyHostArtifactsPath := has_bin_directory;
  ValidGroup := well_formed_group;
  Deserialize := deserialize_group;
|}.

(** The form [deserialize_group] reads. *)
Definition serialize_instance (i : Instance) : Json :=
  JObject [("instance_id", JNumber (Z.of_N (Instance_id i)));
           ("per_instance_name", JString (Instance_name i))].

Definition serialize_group (g : InstanceGroup) : Json :=
  JObject [("group_name", JString (name g));
           ("home_dir", JString (home_directory g));
           ("host_artifacts_path", JString (host_artifacts_path g));
           ("product_out_path", JString (product_out_path g));
           ("instances", JArray (map serialize_instance (instances g)))].

(** ** Example registries *)

Definition tools : string := "/tools".

(** The toolkit is installed and [/h] exists; [/h2] does not exist yet. *)
Definition fs0 : FileSystem :=
  mkFileSystem {[ "/tools/bin"; "/h" ]} ∅.

(** The registered group [g1] at home [/h] with the instance id 2. *)
Definition g1 : InstanceGroup :=
  mkInstanceGroup "g1" "/h" tools "/out" [mkInstance 2 "a"].

(** A new group [g2] at home [/h2] with the same instance id. *)
Definition g2 : InstanceGroup :=
  mkInstanceGroup "g2" "/h2" tools "/out" [mkInstance 2 "a"].

(** A new group [g3] at home [/h] with a fresh id. *)
Definition g3 : InstanceGroup :=
  mkInstanceGroup "g3" "/h" tools "/out" [mkInstance 3 "a"].

(** A new group whose two instances carry the same id. *)
Definition g22 : InstanceGroup :=
  mkInstanceGroup "g22" "/h" tools "/out" [mkInstance 2 "a"; mkInstance 2 "b"].

Definition empty_registry : PersistentData := mkPersistentData [] false.
Definition registry_g1 : PersistentData := mkPersistentData [g1] false.

Definition world_empty : World := mkWorld fs0 empty_registry.
Definition world_g1 : World := mkWorld fs0 registry_g1.

(** The import blob [{ "Groups": [ g1 ] }]. *)
Definition blob_g1 : Json := JObject [("Groups", JArray [serialize_group g1])].

(** ** instance_record.cpp (namespace [instance_db]) *)

(** [std::to_string] on an [unsigned]: the decimal digits, most significant
    first, no sign and no leading zero. *)
Definition to_string (n : N) : string := pretty n.

Module instance_db.

Record LocalInstance := mkLocalInstance {
  instance_id_ : N;
  internal_name_ : string;
  internal_group_name_ : string;
  group_name_ : string;
  per_instance_name_ : string;
}.

(** The constructor
    [LocalInstance(instance_id, internal_group_name, group_name, instance_name)]. *)
Definition make (instance_id : N)
    (internal_group_name group_name instance_name : string) : LocalInstance :=
  {| instance_id_ := instance_id;
     internal_name_ := to_string instance_id;
     internal_group_name_ := internal_group_name;
     group_name_ := group_name;
     per_instance_name_ := instance_name |}.

Section WithDeviceNameRule.
(** [LocalDeviceNameRule] is declared in [instance_database_utils.h]; its
    body is not among the sources. *)
Variable LocalDeviceNameRule : string → string → string.

Definition InstanceId (i : LocalInstance) : N := instance_id_ i.

Definition InternalDeviceName (i : LocalInstance) : string :=
  LocalDeviceNameRule (internal_group_name_ i) (internal_name_ i).

Definition InternalName (i : LocalInstance) : string := internal_name_ i.

Definition DeviceName (i : LocalInstance) : string :=
  LocalDeviceNameRule (group_name_ i) (per_instance_name_ i).

Definition PerInstanceName (i : LocalInstance) : string :=
  per_instance_name_ i.
End WithDeviceNameRule.

End instance_db.

(** What a decimal numeral denotes: [None] when a character is not a digit. *)
Definition digit_value (c : ascii) : option N :=
  let n := N_of_ascii c in
  if ((48 <=? n) && (n <=? 57))%N then Some (n - 48)%N else None.

Fixpoint decimal_value_from (acc : N) (s : string) : option N :=
  match s with
  | EmptyString => Some acc
  | String c s' =>
      match digit_value c with
      | Some d => decimal_value_from (acc * 10 + d)%N s'
      | None => None
      end
  end.

Definition decimal_value (s : string) : option N :=
  match s with
  | EmptyString => None
  | _ => decimal_value_from 0 s
  end.

(** A numeral is canonical when it is ["0"] or does not start with ['0']. *)
Definition canonical_numeral (s : string) : bool :=
  match s with
  | EmptyString => false
  | String c s' => bool_decide (s = "0") || negb (bool_decide (c = "0"%char))
  end.

(** ** The flag parser, as [start.cpp] uses it *)

Definition Args : Type := list string.

Module flag_parser.

Inductive FlagAliasMode := kFlagExact | kFlagPrefix | kFlagConsumesFollowing.

Record FlagAlias := mkFlagAlias {
  mode : FlagAliasMode;
  alias_name : string;
}.

Record FlagMatch := mkFlagMatch {
  key : string;
  value : string;
}.

(** The C++ variables a setter writes, by variable name. *)
Definition Vars : Type := gmap string string.

Record Flag := mkFlag {
  aliases : list FlagAlias;
  Setter : FlagMatch → St Vars unit;
}.

Inductive FlagProcessResult :=
  | kFlagNoMatch
  | kFlagConsumed
  | kFlagConsumedWithFollowing.

(** [s.substr(n)]. *)
Fixpoint substr (n : nat) (s : string) : string :=
  match n, s with
  | O, _ => s
  | S n', String _ s' => substr n' s'
  | S _, EmptyString => EmptyString
  end.

(** Modelled from the spec: [Flag::Process], [Flag::Parse] and
    [ConsumeFlags] ([common/libs/utils/flag_parser.cpp] is not among the
    sources).  The three alias modes are the ones [start.cpp] builds its
    flags from.  An exact alias matches the whole argument and hands the
    setter the argument as key and as value (the setter of the daemon flag
    tells this case by [match.key == match.value]); a prefix alias matches
    the start of the argument and hands over the alias as key and the rest
    as value (the messages of the daemon flag print key and value side by
    side); a consumes-following alias matches the whole argument and takes
    the next argument as value, which must exist.  A matched argument is
    erased from the vector; parsing stops at the first error and leaves the
    vector as it then is. *)
Fixpoint Process_aliases (setter : FlagMatch → St Vars unit)
    (als : list FlagAlias) (arg : string) (next_arg : option string)
  : St Vars FlagProcessResult :=
  match als with
  | [] => ret kFlagNoMatch
  | alias :: als' =>
      match mode alias with
      | kFlagExact =>
          if decide (arg = alias_name alias)
          then setter (mkFlagMatch arg arg) ;;; ret kFlagConsumed
          else Process_aliases setter als' arg next_arg
      | kFlagPrefix =>
          if String.prefix (alias_name alias) arg
          then setter (mkFlagMatch (alias_name alias)
                         (substr (String.length (alias_name alias)) arg)) ;;;
               ret kFlagConsumed
          else Process_aliases setter als' arg next_arg
      | kFlagConsumesFollowing =>
          if decide (arg = alias_name alias)
          then match next_arg with
               | None => lift (Err (ExpectedArgumentAfter arg))
               | Some next =>
                   setter (mkFlagMatch arg next) ;;;
                   ret kFlagConsumedWithFollowing
               end
          else Process_aliases setter als' arg next_arg
      end
  end.

Definition Process (flag : Flag) (arg : string) (next_arg : option string)
  : St Vars FlagProcessResult :=
  Process_aliases (Setter flag) (aliases flag) arg next_arg.

(** The loop of [Flag::Parse] over the argument vector: [kept] are the
    arguments before the index [i], [rest] the ones from [i] on. *)
Fixpoint Parse_loop (flag : Flag) (kept rest : Args) (vars : Vars)
  : Result unit * (Args * Vars) :=
  match rest with
  | [] => (Ok tt, (kept, vars))
  | arg :: rest' =>
      match Process flag arg (head rest') vars with
      | (Ok kFlagNoMatch, vars') => Parse_loop flag (kept ++ [arg]) rest' vars'
      | (Ok kFlagConsumed, vars') => Parse_loop flag kept rest' vars'
      | (Ok kFlagConsumedWithFollowing, vars') =>
          match rest' with
          | _ :: rest'' => Parse_loop flag kept rest'' vars'
          | [] => (Abort, (kept ++ rest, vars'))
          end
      | (Err e, vars') => (Err e, (kept ++ rest, vars'))
      | (Abort, vars') => (Abort, (kept ++ rest, vars'))
      end
  end.

Definition Parse (flag : Flag) : St (Args * Vars) unit :=
  λ '(args, vars), Parse_loop flag [] args vars.

Definition ConsumeFlags (flags : list Flag) : St (Args * Vars) unit :=
  for_each flags Parse.

(** [GflagsCompatFlag(name, value)] for a [std::string] variable: the forms
    [-name=v], [--name=v], [-name v] and [--name v]; the setter stores the
    value in the variable. *)
Definition GflagsCompatFlag (name variable : string) : Flag :=
  {| aliases := [ mkFlagAlias kFlagPrefix ("-" +:+ name +:+ "=");
                  mkFlagAlias kFlagPrefix ("--" +:+ name +:+ "=");
                  mkFlagAlias kFlagConsumesFollowing ("-" +:+ name);
                  mkFlagAlias kFlagConsumesFollowing ("--" +:+ name) ];
     Setter := λ m, modify (<[variable := value m]>) |}.

(** An argument is one of the forms of the gflags-compatible flag [name]. *)
Definition is_flag (name : string) (arg : string) : bool :=
  String.prefix ("-" +:+ name +:+ "=") arg
  || String.prefix ("--" +:+ name +:+ "=") arg
  || bool_decide (arg = "-" +:+ name)
  || bool_decide (arg = "--" +:+ name).

(** Run [ConsumeFlags] on an argument vector passed by reference, with
    fresh flag variables. *)
Definition consume_flags (flags : list Flag) : St Args Vars :=
  λ args, let '(r, (args', vars)) := ConsumeFlags flags (args, ∅) in
          (match r with
           | Ok _ => Ok vars
           | Err e => Err e
           | Abort => Abort
           end, args').

(** Which arguments an alias, and a flag, matches. *)
Definition alias_matches (alias : FlagAlias) (arg : string) : bool :=
  match mode alias with
  | kFlagPrefix => String.prefix (alias_name alias) arg
  | kFlagExact | kFlagConsumesFollowing => bool_decide (arg = alias_name alias)
  end.

Definition flag_matches (flag : Flag) (arg : string) : bool :=
  existsb (λ alias, alias_matches alias arg) (aliases flag).

End flag_parser.

(** ** start.cpp *)

Definition Envs : Type := gmap string string.

Module start.
Import flag_parser.

(** Modelled from the spec: the names of the environment variables
    ([config_constants.h] and [common_utils.h] are not among the sources).
    The child is given "HOME, ANDROID_HOST_OUT, ANDROID_SOONG_HOST_OUT,
    ANDROID_PRODUCT_OUT, CUTTLEFISH_INSTANCE, CVD_MARK". *)
Definition kCuttlefishInstanceEnvVarName : string := "CUTTLEFISH_INSTANCE".
Definition kAndroidHostOut : string := "ANDROID_HOST_OUT".
Definition kAndroidSoongHostOut : string := "ANDROID_SOONG_HOST_OUT".
Definition kAndroidProductOut : string := "ANDROID_PRODUCT_OUT".
Definition kCvdMarkEnv : string := "CVD_MARK".

(** [selector::PerInstanceInfo]; the lock file handle is left out. *)
Record PerInstanceInfo := mkPerInstanceInfo {
  instance_id_ : N;
  per_instance_name_ : string;
}.

(** [selector::GroupCreationInfo]. *)
Record GroupCreationInfo := mkGroupCreationInfo {
  home : string;
  host_artifacts_path : string;
  product_out_path : string;
  group_name : string;
  instances : list PerInstanceInfo;
  args : Args;
  envs : Envs;
  is_default_group : bool;
}.

Record UpdatedArgsAndEnvs := mkUpdatedArgsAndEnvs {
  updated_args : Args;
  updated_envs : Envs;
}.

Inductive WaitBehavior := WAIT_BEHAVIOR_START | WAIT_BEHAVIOR_COMPLETE.

Global Instance WaitBehavior_eq_dec : EqDecision WaitBehavior.
Proof. solve_decision. Defined.

(** The fields of [cvd::Request::command_request] the handler reads. *)
Record Request := mkRequest {
  request_args : Args;
  env : Envs;
  working_directory : string;
  wait_behavior : WaitBehavior;
  selector_args : Args;
}.

Inductive StatusCode := OK | FAILED_PRECONDITION | INTERNAL.

Global Instance StatusCode_eq_dec : EqDecision StatusCode.
Proof. solve_decision. Defined.

(** [code == cvd::Status::OK]. *)
Definition is_OK (code : StatusCode) : bool :=
  match code with OK => true | _ => false end.

Record InstanceGroupInfo := mkInstanceGroupInfo {
  info_group_name : string;
  info_home_directories : list string;
  info_instances : list (string * N);
}.

(** [cvd::Response]: the status sub-message and the group information of
    the command response. *)
Record Response := mkResponse {
  has_status : bool;
  status_code : StatusCode;
  status_message : string;
  instance_group_info : option InstanceGroupInfo;
}.

Definition CommandResponse (code : StatusCode) (message : string) : Response :=
  mkResponse true code message None.

Record siginfo_t := mkSiginfo {
  si_code : Z;
  si_status : Z;
}.

Definition CLD_EXITED : Z := 1.
Definition CLD_KILLED : Z := 2.
Definition EXIT_SUCCESS : Z := 0.

(** Modelled from the spec: [ResponseFromSiginfo]
    ([server_command/utils.cpp] is not among the sources): "success → OK;
    child non-zero → INTERNAL with child code surfaced". *)
Definition ResponseFromSiginfo (infop : siginfo_t) : Response :=
  if bool_decide (si_code infop = CLD_EXITED ∧ si_status infop = 0%Z)
  then CommandResponse OK ""
  else CommandResponse INTERNAL
         ((if bool_decide (si_code infop = CLD_EXITED)
           then "Exited with code "
           else "Exited with signal ") +:+ pretty (si_status infop)).

Record InputPathForm := mkInputPathForm {
  current_working_dir : string;
  home_dir : string;
  path_to_convert : string;
  follow_symlink : bool;
}.

Record ConstructCommandParam := mkConstructCommandParam {
  bin_path : string;
  command_home : string;
  command_args : Args;
  command_envs : Envs;
  command_working_dir : string;
  command_name : string;
}.

(** A [Command] is identified with the parameters it was built from. *)
Definition Command : Type := ConstructCommandParam.

Record CreationAnalyzerParam := mkCreationAnalyzerParam {
  analyzer_cmd_args : Args;
  analyzer_envs : Envs;
  analyzer_selector_args : Args;
}.

(** The calls the handler makes on its collaborators, in order. *)
Inductive Event :=
  | Call_ExecuteOne (subrequest : Request)
  | Call_Setup (command : Command)
  | Call_AcloudCompatActions
  | Call_Wait
  | Call_ForcefullyStopGroup (instance_id : N)
  | Call_SetInstanceGroup (info : GroupCreationInfo)
  | Call_RemoveInstanceGroup (home : string)
  | Call_CreateSymlinks
  | Call_MarkLockfilesInUse
  | Call_HandleInterruptSignals
  | Call_StopHandlingInterruptSignals
  | Call_WriteAll (text : string).

Definition Trace : Type := list Event.

Definition call {A} (ev : Event) (r : Result A) : St Trace A :=
  λ trace, (r, trace ++ [ev]).

(** Run [m] and hand its result over as a value ([auto res = f(...)]
    without [CF_EXPECT]). *)
Definition attempt {S A} (m : St S A) : St S (Result A) :=
  λ s, match m s with
       | (Abort, s') => (Abort, s')
       | (r, s') => (Ok r, s')
       end.

(** The registry operations the handler reaches through
    [instance_manager_]. *)
Definition mutates_registry (ev : Event) : bool :=
  match ev with
  | Call_SetInstanceGroup _ | Call_RemoveInstanceGroup _ => true
  | _ => false
  end.



(** What the handler takes from its collaborators: the instance manager,
    the host tool target manager, the subprocess waiter, the command
    executor, the status fetcher and the helpers of headers whose bodies
    are not among the sources.  A collaborator is given by the answers it
    returns during one request. *)
Class StartDeps := {
  ParseInvocation : Request → string * Args;
  VerifyPrecondition : Request → option string;   (* the failure message *)
  SystemWideUserHome : Result string;
  EmulateAbsolutePath : InputPathForm → Result string;
  IsHelpSubcmd : Args → Result bool;
  (* host_tool_target_manager_ *)
  ReadFlag : string → string → string → bool;     (* [.ok()] of the answer *)
  ExecBaseName : string → string → Result string;
  (* instance_manager_ *)
  Analyze : CreationAnalyzerParam → Result GroupCreationInfo;
  SetInstanceGroup : GroupCreationInfo → Result unit;
  RemoveInstanceGroup : string → Result bool;
  FindGroup : string → Result unit;
  (* command_executor_, status_fetcher_ *)
  ExecuteOne : Request → Result Response;
  FetchGroupStatus : Result string;
  WriteAll : string → Z;
  (* commands and the subprocess waiter *)
  ConstructCommand : ConstructCommandParam → Result Command;
  ConstructCvdHelpCommand : string → Envs → Args → Request → Result Command;
  Setup : Command → Result unit;
  Wait : Result siginfo_t;
  (* RunCvdProcessManager *)
  RunCvdProcessManager_Get : bool;                 (* [.ok()] of [Get()] *)
  ForcefullyStopGroup : N → bool;                  (* [.ok()] of the answer *)
  (* the parts of this file that only touch the file system *)
  AcloudCompatActions : GroupCreationInfo → Request → bool;  (* [.ok()] *)
  CreateSymlinks : GroupCreationInfo → bool;                 (* [.ok()] *)
  pipe2 : Result Z;
}.

(** *** Unsigned arithmetic *)

Definition unsigned (z : Z) : Z := (z mod 2 ^ 32)%Z.
Definition size_t (z : Z) : Z := (z mod 2 ^ 64)%Z.

(** [*std::max_element] and [*std::min_element]; dereferencing the end
    iterator of an empty vector is undefined. *)
Definition max_element (ids : list N) : option N :=
  match ids with
  | [] => None
  | x :: l => Some (fold_left N.max l x)
  end.

Definition min_element (ids : list N) : option N :=
  match ids with
  | [] => None
  | x :: l => Some (fold_left N.min l x)
  end.

(** [std::is_sorted]: no element is smaller than the one before it. *)
Fixpoint is_sorted (ids : list N) : bool :=
  match ids with
  | [] => true
  | x :: l =>
      match l with
      | [] => true
      | y :: _ => (x <=? y)%N && is_sorted l
      end
  end.

(** [android::base::Join(ids, ",")]. *)
Fixpoint Join (ids : list N) (separator : string) : string :=
  match ids with
  | [] => ""
  | x :: l =>
      match l with
      | [] => to_string x
      | _ :: _ => to_string x +:+ separator +:+ Join l separator
      end
  end.

Definition instance_id_flags : list Flag :=
  [ GflagsCompatFlag "instance_nums" "old_instance_nums";
    GflagsCompatFlag "num_instances" "old_num_instances";
    GflagsCompatFlag "base_instance_num" "old_base_instance_num" ].

(** *** The daemon flag *)

(** [haystack.find(needle) != std::string::npos]. *)
Fixpoint contains (needle haystack : string) : bool :=
  String.prefix needle haystack
  || match haystack with
     | EmptyString => false
     | String _ haystack' => contains needle haystack'
     end.

(** [tolower] in the C locale. *)
Definition tolower (c : ascii) : ascii :=
  let n := N_of_ascii c in
  if ((65 <=? n) && (n <=? 90))%N then ascii_of_N (n + 32) else c.

(** [strncasecmp(lhs, rhs, n) == 0] on two strings of length [n]: the
    comparison ends at the first difference or at a NUL byte. *)
Fixpoint strncasecmp_equal (lhs rhs : string) : bool :=
  match lhs, rhs with
  | String x lhs', String y rhs' =>
      if decide (tolower x = tolower y)
      then if decide (x = zero) then true else strncasecmp_equal lhs' rhs'
      else false
  | EmptyString, EmptyString => true
  | _, _ => false
  end.

(** [android::base::EqualsIgnoreCase]. *)
Definition EqualsIgnoreCase (lhs rhs : string) : bool :=
  bool_decide (String.length lhs = String.length rhs)
  && strncasecmp_equal lhs rhs.

Definition kValidFalseStrings : list string := ["n"; "no"; "false"].
Definition kValidTrueStrings : list string := ["y"; "yes"; "true"].

(** The value is one of [kValidTrueStrings] up to case. *)
Definition truthy (value : string) : bool :=
  existsb (λ true_string, EqualsIgnoreCase true_string value) kValidTrueStrings.

(** The setter of the flag built in [ConsumeDaemonModeFlag]. *)
Definition daemon_setter (m : FlagMatch) : St Vars unit :=
  if decide (key m = value m) then
    CF_EXPECT (negb (contains "no" (key m))) NoDaemonNotSupported
  else
    CF_EXPECT (negb (contains "," (value m))) (DaemonValueHasComma (value m)) ;;;
    if existsb (λ true_string, EqualsIgnoreCase true_string (value m))
               kValidTrueStrings
    then ret tt
    else
      for_each kValidFalseStrings (λ false_string,
        CF_EXPECT (negb (EqualsIgnoreCase false_string (value m)))
                  (DaemonFalseNotSupported (key m) (value m))) ;;;
      lift (Err (InvalidDaemonOption (key m) (value m))).

Definition daemon_flag : Flag :=
  {| aliases := [ mkFlagAlias kFlagPrefix "-daemon=";
                  mkFlagAlias kFlagPrefix "--daemon=";
                  mkFlagAlias kFlagExact "-daemon";
                  mkFlagAlias kFlagExact "--daemon";
                  mkFlagAlias kFlagExact "-nodaemon";
                  mkFlagAlias kFlagExact "--nodaemon" ];
     Setter := daemon_setter |}.

Definition ConsumeDaemonModeFlag : St Args unit :=
  consume_flags [daemon_flag] ;;; ret tt.

(** Lines 697 and 698 of [Handle]: consume the daemon flags, then
    [subcmd_args.push_back("--daemon=true")]. *)
Definition normalize_daemon : St Args unit :=
  ConsumeDaemonModeFlag ;;;
  modify (λ subcmd_args, subcmd_args ++ ["--daemon=true"]).

(** [GetConfigPath]: the arguments are consumed in place, and the path is
    returned when parsing succeeded and removed something. *)
Definition GetConfigPath : St Args (option string) :=
  λ args,
    let initial_size := length args in
    let '(result, args') :=
      consume_flags [GflagsCompatFlag "config_file" "config_file"] args in
    match result with
    | Ok vars =>
        if decide (initial_size = length args') then (Ok None, args')
        else (Ok (Some (default "" (vars !! "config_file"))), args')
    | Err _ => (Ok None, args')
    | Abort => (Abort, args')
    end.

Definition CreateLoadCommand (request : Request) (args : Args)
    (config_file : string) : Request :=
  mkRequest (["cvd"; "load"] ++ args ++ [config_file])
            (env request) (working_directory request)
            WAIT_BEHAVIOR_COMPLETE [].

Definition supported_commands_ : list string := ["start"; "launch_cvd"].

(** An argument is one of the three instance-id flags of the launcher. *)
Definition is_instance_id_flag (arg : string) : bool :=
  is_flag "instance_nums" arg
  || is_flag "num_instances" arg
  || is_flag "base_instance_num" arg.

(** The ids are values of type [unsigned] and the vector has a [size_t]
    size. *)
Definition fits_unsigned (ids : list N) : Prop :=
  Forall (λ id, (id < 2 ^ 32)%N) ids ∧ (Z.of_nat (length ids) ≤ 2 ^ 64)%Z.

Section Handler.
Context `{StartDeps}.

(** The lambda [check_flag] of [UpdateInstanceArgsAndEnvs]. *)
Definition check_flag (artifacts_path flag_name : string) : bool :=
  ReadFlag artifacts_path "start" flag_name.

Definition UpdateInstanceArgsAndEnvs (args : Args) (envs : Envs)
    (instances : list PerInstanceInfo) (artifacts_path start_bin : string)
  : Result UpdatedArgsAndEnvs :=
  let ids := map instance_id_ instances in
  (* discard old ones *)
  match consume_flags instance_id_flags args with
  | (Ok _, new_args) =>
      match max_element ids, min_element ids with
      | Some max, Some min =>
          let is_consecutive :=
            (unsigned (Z.of_N max - Z.of_N min)
             =? size_t (Z.of_nat (length ids) - 1))%Z in
          let is_sorted := is_sorted ids in
          if negb is_consecutive || negb is_sorted then
            let flag_value := Join ids "," in
            if check_flag artifacts_path "instance_nums"
            then Ok (mkUpdatedArgsAndEnvs
                       (new_args ++ ["--instance_nums=" +:+ flag_value])
                       envs)
            else Err (FlagNotSupported "instance_nums")
          else
            (* sorted and consecutive, so let's use old flags *)
            and_then
              (if (1 <? length ids)%nat then
                 if check_flag artifacts_path "num_instances"
                 then Ok (new_args ++
                          ["--num_instances=" +:+
                           to_string (N.of_nat (length ids))])
                 else Err (FlagNotSupported "num_instances")
               else Ok new_args)
              (λ new_args,
                 let new_args :=
                   if check_flag artifacts_path "base_instance_num"
                   then new_args ++ ["--base_instance_num=" +:+ to_string min]
                   else new_args in
                 Ok (mkUpdatedArgsAndEnvs new_args
                       (<[kCuttlefishInstanceEnvVarName := to_string min]>
                          envs)))
      | _, _ => Abort
      end
  | (Err e, _) => Err e
  | (Abort, _) => Abort
  end.

Definition UpdateArgsAndEnvs (old_group_info : GroupCreationInfo)
    (start_bin : string) : Result GroupCreationInfo :=
  and_then
    (UpdateInstanceArgsAndEnvs (args old_group_info) (envs old_group_info)
       (instances old_group_info) (host_artifacts_path old_group_info)
       start_bin)
    (λ updated,
       let new_args := updated_args updated in
       let new_envs := updated_envs updated in
       (* older cvd host tools don't accept group_id *)
       let has_group_id_flag :=
         ReadFlag (host_artifacts_path old_group_info) "start" "group_id" in
       let new_args :=
         if has_group_id_flag
         then new_args ++ ["--group_id=" +:+ group_name old_group_info]
         else new_args in
       let new_envs :=
         <[kCvdMarkEnv := "true"]>
           (<[kAndroidSoongHostOut := host_artifacts_path old_group_info]>
              (<[kAndroidProductOut := product_out_path old_group_info]>
                 (<[kAndroidHostOut := host_artifacts_path old_group_info]>
                    (<["HOME" := home old_group_info]> new_envs)))) in
       Ok (mkGroupCreationInfo
             (home old_group_info) (host_artifacts_path old_group_info)
             (product_out_path old_group_info) (group_name old_group_info)
             (instances old_group_info) new_args new_envs
             (is_default_group old_group_info))).

(** *** The handler *)

Definition CanHandle (request : Request) : Result bool :=
  Ok (bool_decide ((ParseInvocation request).1 ∈ supported_commands_)).

(** Lines 660 to 688 of [Handle]: the HOME of the client. *)
Definition normalize_home (request : Request) (envs : Envs) : Result Envs :=
  match envs !! "HOME" with
  | None => Ok envs
  | Some given_home_dir =>
      if decide (given_home_dir = "") then Ok (delete "HOME" envs)
      else
        let client_pwd := working_directory request in
        if negb (String.prefix "~" given_home_dir)
           && negb (String.prefix "~/" given_home_dir)
        then
          and_then SystemWideUserHome (λ system_home,
          and_then (EmulateAbsolutePath
                      (mkInputPathForm client_pwd system_home
                                       given_home_dir false))
                   (λ absolute, Ok (<["HOME" := absolute]> envs)))
        else Err HomeStartsWithTilde
  end.

Definition FindStartBin (android_host_out : string) : Result string :=
  ExecBaseName android_host_out "start".

Definition ConstructCvdNonHelpCommand (bin_file : string)
    (group_info : GroupCreationInfo) (request : Request) : Result Command :=
  if decide (home group_info = "") then Err EmptyHome
  else ConstructCommand
         (mkConstructCommandParam
            (host_artifacts_path group_info +:+ "/bin/" +:+ bin_file)
            (home group_info) (args group_info) (envs group_info)
            (working_directory request) bin_file).

Definition GetGroupCreationInfo (start_bin : string) (subcmd_args : Args)
    (envs : Envs) (request : Request) : Result GroupCreationInfo :=
  and_then (Analyze (mkCreationAnalyzerParam subcmd_args envs
                       (selector_args request)))
           (λ group_creation_info,
              UpdateArgsAndEnvs group_creation_info start_bin).

(** The two raw string literals of the source, line breaks included. *)
Definition kCollectorFailure : string :=
  "
  Consider running:
     cvd reset -y

  cvd start failed. While we should collect run_cvd processes to manually
  clean them up, collecting run_cvd failed.
".
Definition kStopFailure : string :=
  "
  Consider running:
     cvd reset -y

  cvd start failed, and stopping run_cvd processes failed.
".

Definition CvdResetGroup (group_creation_info : GroupCreationInfo)
  : St Trace Response :=
  if negb RunCvdProcessManager_Get
  then ret (CommandResponse INTERNAL kCollectorFailure)
  else
    match instances group_creation_info with
    | [] => lift (Err NoInstances)
    | first_instance :: _ =>
        stop_ok <- call (Call_ForcefullyStopGroup (instance_id_ first_instance))
                        (Ok (ForcefullyStopGroup (instance_id_ first_instance))) ;;
        if negb stop_ok
        then ret (CommandResponse INTERNAL kStopFailure)
        else ret (CommandResponse OK "")
    end.

Definition child_failed (infop : siginfo_t) : bool :=
  bool_decide (si_code infop ≠ CLD_EXITED)
  || bool_decide (si_status infop ≠ EXIT_SUCCESS).

Definition LaunchDevice (launch_command : Command)
    (group_creation_info : GroupCreationInfo) (request : Request)
  : St Trace Response :=
  CF_EXPECT (bool_decide (wait_behavior request ≠ WAIT_BEHAVIOR_START))
            WaitBehaviorStart ;;;
  call (Call_Setup launch_command) (Setup launch_command) ;;;
  (* a failure is logged and otherwise ignored *)
  call Call_AcloudCompatActions
       (Ok (AcloudCompatActions group_creation_info request)) ;;;
  infop <- call Call_Wait Wait ;;
  if child_failed infop then
    (* run_cvd processes may be still running in background *)
    reset_response <- CvdResetGroup group_creation_info ;;
    if negb (is_OK (status_code reset_response))
    then ret reset_response
    else ret (ResponseFromSiginfo infop)
  else ret (ResponseFromSiginfo infop).


Definition UpdateInstanceDatabase (group_creation_info : GroupCreationInfo)
  : St Trace unit :=
  call (Call_SetInstanceGroup group_creation_info)
       (match SetInstanceGroup group_creation_info with
        | Ok _ => Ok tt
        | Err _ => Err (HomeAlreadyTaken (home group_creation_info))
        | Abort => Abort
        end).

Definition MarkLockfilesInUse : St Trace unit :=
  call Call_MarkLockfilesInUse (Ok tt).

Definition LaunchDeviceInterruptible (command : Command)
    (group_creation_info : GroupCreationInfo) (request : Request)
  : St Trace Response :=
  UpdateInstanceDatabase group_creation_info ;;;
  start_res <- attempt (LaunchDevice command group_creation_info request) ;;
  if negb (ok start_res)
     || match start_res with
        | Ok response => negb (is_OK (status_code response))
        | _ => false
        end
  then
    call (Call_RemoveInstanceGroup (home group_creation_info))
         (match RemoveInstanceGroup (home group_creation_info) with
          | Ok _ => Ok tt
          | Err _ => Err RemoveGroupFailed
          | Abort => Abort
          end) ;;;
    lift start_res
  else
    response <- lift start_res ;;
    if negb (has_status response) || negb (is_OK (status_code response))
    then ret response
    else
      (if is_default_group group_creation_info
       then (* a failure is logged and otherwise ignored *)
            call Call_CreateSymlinks
                 (Ok (CreateSymlinks group_creation_info)) ;;; ret tt
       else ret tt) ;;;
      MarkLockfilesInUse ;;;
      ret response.

Definition FillOutNewInstanceInfo (response : Response)
    (group_creation_info : GroupCreationInfo) : Response :=
  mkResponse (has_status response) (status_code response)
             (status_message response)
             (Some (mkInstanceGroupInfo
                      (group_name group_creation_info)
                      [home group_creation_info]
                      (map (λ i, (per_instance_name_ i, instance_id_ i))
                           (instances group_creation_info)))).

Definition HandleInterruptSignals : St Trace Z :=
  call Call_HandleInterruptSignals pipe2.

Definition StopHandlingInterruptSignals : St Trace unit :=
  call Call_StopHandlingInterruptSignals (Ok tt).

Definition Handle (request : Request) : St Trace Response :=
  (* a [Result<bool>] passes [CF_EXPECT] when it holds a value *)
  lift (CanHandle request) ;;;
  let '(subcmd, subcmd_args) := ParseInvocation request in
  let '(config_result, subcmd_args) := GetConfigPath subcmd_args in
  config_file <- lift config_result ;;
  match config_file with
  | Some config_file =>
      let subrequest := CreateLoadCommand request subcmd_args config_file in
      call (Call_ExecuteOne subrequest) (ExecuteOne subrequest)
  | None =>
      match VerifyPrecondition request with
      | Some message => ret (CommandResponse FAILED_PRECONDITION message)
      | None =>
          envs <- lift (normalize_home request (env request)) ;;
          android_host_out <-
            lift (match envs !! kAndroidHostOut with
                  | Some v => Ok v
                  | None => Err NoAndroidHostOut
                  end) ;;
          bin <- lift (FindStartBin android_host_out) ;;
          CF_EXPECT (bool_decide (subcmd ∈ supported_commands_))
                    NotAStartSubcmd ;;;
          is_help <- lift (IsHelpSubcmd subcmd_args) ;;
          let '(daemon_result, subcmd_args) := normalize_daemon subcmd_args in
          lift daemon_result ;;;
          if is_help : bool then
            command <- lift (ConstructCvdHelpCommand bin envs subcmd_args
                                                     request) ;;
            call (Call_Setup command) (Setup command) ;;;
            infop <- call Call_Wait Wait ;;
            ret (ResponseFromSiginfo infop)
          else
            group_creation_info <-
              lift (GetGroupCreationInfo bin subcmd_args envs request) ;;
            command <- lift (ConstructCvdNonHelpCommand bin group_creation_info
                                                        request) ;;
            (* The instance database needs to be updated if an interrupt
               is received. *)
            HandleInterruptSignals ;;;
            launch_res <- attempt (LaunchDeviceInterruptible
                                     command group_creation_info request) ;;
            StopHandlingInterruptSignals ;;;
            response <- lift launch_res ;;
            (* Print new group spec *)
            lift (FindGroup (group_name group_creation_info)) ;;;
            group_json <- lift FetchGroupStatus ;;
            written <- call (Call_WriteAll group_json)
                            (Ok (WriteAll group_json)) ;;
            CF_EXPECT (bool_decide
                         (written = Z.of_nat (String.length group_json)))
                      WriteFailed ;;;
            ret (FillOutNewInstanceInfo response group_creation_info)
      end
  end.

(** The later parts of [Handle] on their own, for what is said of a request
    that has got that far. *)

(** Lines 739 to 749: what becomes of the result of the launch. *)
Definition Handle_after_launch (launch_res : Result Response)
    (group_creation_info : GroupCreationInfo) : St Trace Response :=
  response <- lift launch_res ;;
  (* Print new group spec *)
  lift (FindGroup (group_name group_creation_info)) ;;;
  group_json <- lift FetchGroupStatus ;;
  written <- call (Call_WriteAll group_json)
                  (Ok (WriteAll group_json)) ;;
  CF_EXPECT (bool_decide
               (written = Z.of_nat (String.length group_json)))
            WriteFailed ;;;
  ret (FillOutNewInstanceInfo response group_creation_info).

(** Lines 715 to 750: the launch between arming and tearing down the
    interrupt handler. *)
Definition Handle_launch (request : Request) (command : Command)
    (group_creation_info : GroupCreationInfo) : St Trace Response :=
  (* The instance database needs to be updated if an interrupt
     is received. *)
  HandleInterruptSignals ;;;
  launch_res <- attempt (LaunchDeviceInterruptible
                           command group_creation_info request) ;;
  StopHandlingInterruptSignals ;;;
  Handle_after_launch launch_res group_creation_info.

(** Lines 689 to 750: the handler once the environment is settled. *)
Definition Handle_from_envs (request : Request) (subcmd : string)
    (subcmd_args : Args) (envs : Envs) : St Trace Response :=
  android_host_out <-
    lift (match envs !! kAndroidHostOut with
          | Some v => Ok v
          | None => Err NoAndroidHostOut
          end) ;;
  bin <- lift (FindStartBin android_host_out) ;;
  CF_EXPECT (bool_decide (subcmd ∈ supported_commands_))
            NotAStartSubcmd ;;;
  is_help <- lift (IsHelpSubcmd subcmd_args) ;;
  let '(daemon_result, subcmd_args) := normalize_daemon subcmd_args in
  lift daemon_result ;;;
  if is_help : bool then
    command <- lift (ConstructCvdHelpCommand bin envs subcmd_args
                                             request) ;;
    call (Call_Setup command) (Setup command) ;;;
    infop <- call Call_Wait Wait ;;
    ret (ResponseFromSiginfo infop)
  else
    group_creation_info <-
      lift (GetGroupCreationInfo bin subcmd_args envs request) ;;
    command <- lift (ConstructCvdNonHelpCommand bin group_creation_info
                                                request) ;;
    Handle_launch request command group_creation_info.

(** What [Handle] answers from the result of the launch (lines 739 to
    749): the response of the launch with the new group filled in, when the
    group is found, its status fetched and written out in full. *)
Definition answer_after_launch (launch_res : Result Response)
    (group_creation_info : GroupCreationInfo) : Result Response :=
  and_then launch_res (λ response,
  and_then (FindGroup (group_name group_creation_info)) (λ _,
  and_then FetchGroupStatus (λ group_json,
    if bool_decide (WriteAll group_json
                    = Z.of_nat (String.length group_json))
    then Ok (FillOutNewInstanceInfo response group_creation_info)
    else Err WriteFailed))).

End Handler.

End start.

(** ** Scenarios for the start handler

    The properties of the handler hold for every [StartDeps]; a scenario fixes
    the answers of the collaborators for one request, so that closed examples
    can run. *)

Record Scenario := mkScenario {
  launcher_accepts : string → bool;    (* the flags the launcher knows *)
  plan : start.GroupCreationInfo;      (* the group the analyzer plans *)
  registered : bool;                   (* SetInstanceGroup succeeds *)
  child : Result start.siginfo_t;      (* what Wait returns *)
  collector_ok : bool;                 (* RunCvdProcessManager::Get() *)
  stop_ok : bool;                      (* ForcefullyStopGroup *)
}.

Definition scenario_deps (sc : Scenario) : start.StartDeps := {|
  (* the client runs [cvd <subcmd> <args>] *)
  start.ParseInvocation := λ request,
    match start.request_args request with
    | "cvd" :: subcmd :: subcmd_args => (subcmd, subcmd_args)
    | subcmd :: subcmd_args => (subcmd, subcmd_args)
    | [] => ("", [])
    end;
  (* "required env present, at minimum ANDROID_HOST_OUT" *)
  start.VerifyPrecondition := λ request,
    match start.env request !! start.kAndroidHostOut with
    | Some _ => None
    | None => Some "ANDROID_HOST_OUT in client environment is invalid."
    end;
  start.SystemWideUserHome := Ok "/home/user";
  start.EmulateAbsolutePath := λ form,
    if String.prefix "/" (start.path_to_convert form)
    then Ok (start.path_to_convert form)
    else Ok (start.current_working_dir form +:+ "/" +:+ start.path_to_convert form);
  start.IsHelpSubcmd := λ subcmd_args, Ok (bool_decide ("--help" ∈ subcmd_args));
  start.ReadFlag := λ _ _ flag_name, launcher_accepts sc flag_name;
  start.ExecBaseName := λ _ _, Ok "cvd_internal_start";
  start.Analyze := λ param,
    Ok (start.mkGroupCreationInfo
          (start.home (plan sc)) (start.host_artifacts_path (plan sc))
          (start.product_out_path (plan sc)) (start.group_name (plan sc))
          (start.instances (plan sc))
          (start.analyzer_cmd_args param) (start.analyzer_envs param)
          (start.is_default_group (plan sc)));
  start.SetInstanceGroup := λ info,
    if registered sc then Ok tt else Err (HomeAlreadyTaken (start.home info));
  start.RemoveInstanceGroup := λ _, Ok true;
  start.FindGroup := λ _, Ok tt;
  start.ExecuteOne := λ _, Ok (start.CommandResponse start.OK "");
  start.FetchGroupStatus := Ok "{}";
  start.WriteAll := λ text, Z.of_nat (String.length text);
  start.ConstructCommand := Ok;
  start.ConstructCvdHelpCommand := λ bin envs subcmd_args request,
    Ok (start.mkConstructCommandParam bin "" subcmd_args envs
          (start.working_directory request) bin);
  start.Setup := λ _, Ok tt;
  start.Wait := child sc;
  start.RunCvdProcessManager_Get := collector_ok sc;
  start.ForcefullyStopGroup := λ _, stop_ok sc;
  start.AcloudCompatActions := λ _ _, true;
  start.CreateSymlinks := λ _, true;
  start.pipe2 := Ok 3%Z;
|}.

Definition instance (id : N) : start.PerInstanceInfo :=
  start.mkPerInstanceInfo id ("cvd-" +:+ to_string id).

(** The plan [{g, home:/h, ids}] of the scenarios of the design document. *)
Definition plan_g (ids : list N) : start.GroupCreationInfo :=
  start.mkGroupCreationInfo "/h" "/tools" "/out" "g" (map instance ids) [] ∅ false.

Definition exited (code : Z) : start.siginfo_t :=
  start.mkSiginfo start.CLD_EXITED code.

(** A launcher that knows every flag, or none. *)
Definition new_launcher : string → bool := λ _, true.
Definition old_launcher : string → bool := λ _, false.

(** Scenario 4: the plan [{g, home:/h, ids:[9]}], the child exits with 1. *)
Definition child_fails : Scenario :=
  mkScenario new_launcher (plan_g [9%N]) true (Ok (exited 1)) true true.


Definition child_succeeds : Scenario :=
  mkScenario new_launcher (plan_g [9%N]) true (Ok (exited 0)) true true.

Definition with_old_launcher : Scenario :=
  mkScenario old_launcher (plan_g [2%N; 5%N; 7%N]) true (Ok (exited 0)) true true.

Definition client_env (home : string) : Envs :=
  <["HOME" := home]> (<[start.kAndroidHostOut := "/tools"]> ∅).

Definition start_request (subcmd_args : Args) (home : string)
    (wait : start.WaitBehavior) : start.Request :=
  start.mkRequest ("cvd" :: "start" :: subcmd_args) (client_env home)
                  "/work" wait [].

Definition launch_command : start.Command :=
  start.mkConstructCommandParam "/tools/bin/cvd_internal_start" "/h" [] ∅
                                "/work" "cvd_internal_start".

(** ** What the queries of the registry select *)

(** A stored group satisfies every criterion that is set: the home
    directory, the group name, an instance with the id, an instance with the
    name. *)
Definition group_selected (param : FindParam) (g : InstanceGroup) : bool :=
  negb (set_and_differs (find_home param) (home_directory g))
  && negb (set_and_differs (find_group_name param) (name g))
  && match find_id param with
     | Some id => bool_decide (id ∈ ids_of g)
     | None => true
     end
  && match find_instance_name param with
     | Some n => bool_decide (n ∈ map Instance_name (instances g))
     | None => true
     end.

(** A group is looked at by [FindInstances]: its home directory and its name
    are the ones asked for. *)
Definition group_in_scope (param : FindParam) (g : InstanceGroup) : bool :=
  negb (set_and_differs (find_group_name param) (name g))
  && negb (set_and_differs (find_home param) (home_directory g)).

(** An instance satisfies the id and the instance name that are set. *)
Definition instance_selected (param : FindParam) (i : Instance) : bool :=
  negb (set_and_differs (find_id param) (Instance_id i))
  && negb (set_and_differs (find_instance_name param) (Instance_name i)).

Definition to_LocalInstance (i : Instance) : LocalInstance :=
  mkLocalInstance (Instance_id i) (Instance_name i).

(** A new group with the name of [g1], at another home and with a fresh
    id. *)
Definition g1_elsewhere : InstanceGroup :=
  mkInstanceGroup "g1" "/h2" tools "/out" [mkInstance 5 "a"].

(** A registry with two groups. *)
Definition registry_g1_g3 : PersistentData := mkPersistentData [g1; g3] false.

(** ** Classes of handler events *)

(** The handler for interrupt signals is armed, and torn down. *)
Definition arms_interrupts (ev : start.Event) : bool :=
  match ev with
  | start.Call_HandleInterruptSignals => true
  | _ => false
  end.

Definition stops_interrupts (ev : start.Event) : bool :=
  match ev with
  | start.Call_StopHandlingInterruptSignals => true
  | _ => false
  end.

(** The events that arm or tear down the interrupt handler or change the
    registry. *)
Definition guarded_event (ev : start.Event) : bool :=
  arms_interrupts ev || stops_interrupts ev || start.mutates_registry ev.

(** A response reports success. *)
Definition reports_success (r : Result start.Response) : bool :=
  match r with
  | Ok response => start.is_OK (start.status_code response)
  | _ => false
  end.

(** No process was aborted. *)
Definition aborted {A} (r : Result A) : bool :=
  match r with Abort => true | _ => false end.

(** ** The interrupt handler of start.cpp

    [InterruptHandler], [HandleInterruptSignals] and
    [StopHandlingInterruptSignals] share the atomic [signal_pipe_write_end].
    Each is a program over the operations that can be told apart from
    another thread: an exchange on the atomic, a system call, the creation of
    the pipe.  [exec] runs a program on its own; [interleaving] runs two
    programs on two threads, one operation at a time. *)

Module signals.

Definition CLOSED_FD : Z := (-1)%Z.
Definition IN_USE_FD : Z := (-2)%Z.

(** What is installed for SIGINT, SIGHUP and SIGTERM. *)
Inductive Disposition := SIG_DFL | Install_InterruptHandler.

Inductive Syscall :=
  | write (fd signal : Z)
  | close (fd : Z)
  | set_nonblocking (fd : Z)       (* fcntl(fd, F_SETFL, flags | O_NONBLOCK) *)
  | ChangeSignalHandlers (handler : Disposition).

Inductive Prog (A : Type) : Type :=
  | Return (r : Result A)
  | Exchange (desired : Z) (k : Z → Prog A)   (* [signal_pipe_write_end.exchange] *)
  | Call (c : Syscall) (k : Prog A)
  | Pipe2 (k : option (Z * Z) → Prog A).      (* [pipe2(fds, O_CLOEXEC)] *)
Arguments Return {A} r.
Arguments Exchange {A} desired k.
Arguments Call {A} c k.
Arguments Pipe2 {A} k.

Fixpoint bindP {A B} (p : Prog A) (f : A → Prog B) : Prog B :=
  match p with
  | Return (Ok a) => f a
  | Return (Err e) => Return (Err e)
  | Return Abort => Return Abort
  | Exchange desired k => Exchange desired (λ previous, bindP (k previous) f)
  | Call c k => Call c (bindP k f)
  | Pipe2 k => Pipe2 (λ fds, bindP (k fds) f)
  end.

Global Instance Prog_ret : MRet Prog := λ A a, Return (Ok a).
Global Instance Prog_bind : MBind Prog := λ A B f p, bindP p f.

Definition exchange (desired : Z) : Prog Z :=
  Exchange desired (λ previous, mret previous).

Definition syscall (c : Syscall) : Prog unit := Call c (mret tt).

Definition pipe2 : Prog (option (Z * Z)) := Pipe2 (λ fds, mret fds).

(** [CHECK(cond)]. *)
Definition CHECK (cond : bool) : Prog unit :=
  if cond then mret tt else Return Abort.

(** Writes the signal number to the pipe if it's still open. *)
Definition InterruptHandler (signal : Z) : Prog unit :=
  fd ← exchange IN_USE_FD;
  (if (0 <=? fd)%Z
   then (* Ignore result *) syscall (write fd signal)
   else mret tt);;
  fd ← exchange fd;
  if bool_decide (fd ≠ IN_USE_FD) then
    (* The signal handler was disabled while the handler was executing,
       need to close the fd. *)
    fd ← exchange CLOSED_FD;
    if (0 <=? fd)%Z then syscall (close fd) else mret tt
  else mret tt.

Definition HandleInterruptSignals : Prog Z :=
  fds ← pipe2;
  match fds with
  | None => Return (Err SignalPipeFailed)
  | Some (fds0, fds1) =>
      (* Make the write end nonblocking *)
      syscall (set_nonblocking fds0);;
      previous_value ← exchange fds0;
      CHECK (bool_decide (previous_value = CLOSED_FD));;
      syscall (ChangeSignalHandlers Install_InterruptHandler);;
      mret fds1
  end.

Definition StopHandlingInterruptSignals : Prog unit :=
  syscall (ChangeSignalHandlers SIG_DFL);;
  fd ← exchange CLOSED_FD;
  if (0 <=? fd)%Z then syscall (close fd) else mret tt.

(** The atomic, and the system calls made so far. *)
Record State := mkState {
  signal_pipe_write_end : Z;
  calls : list Syscall;
}.

(** One operation of a program; [fds] is what [pipe2] answers. *)
Definition step {A} (fds : option (Z * Z)) (p : Prog A) (s : State)
  : option (Prog A * State) :=
  match p with
  | Return _ => None
  | Exchange desired k =>
      Some (k (signal_pipe_write_end s), mkState desired (calls s))
  | Call c k => Some (k, mkState (signal_pipe_write_end s) (calls s ++ [c]))
  | Pipe2 k => Some (k fds, s)
  end.

(** A program run on its own, to its end. *)
Fixpoint exec {A} (fds : option (Z * Z)) (p : Prog A) (s : State)
  : Result A * State :=
  match p with
  | Return r => (r, s)
  | Exchange desired k =>
      exec fds (k (signal_pipe_write_end s)) (mkState desired (calls s))
  | Call c k =>
      exec fds k (mkState (signal_pipe_write_end s) (calls s ++ [c]))
  | Pipe2 k => exec fds (k fds) s
  end.

(** Two programs on two threads: every order of their operations. *)
Inductive interleaving {A B} (fds : option (Z * Z))
  : Prog A → Prog B → State → Result A * Result B * State → Prop :=
  | both_returned ra rb s :
      interleaving fds (Return ra) (Return rb) s (ra, rb, s)
  | left_step p p' q s s' out :
      step fds p s = Some (p', s') →
      interleaving fds p' q s' out →
      interleaving fds p q s out
  | right_step p q q' s s' out :
      step fds q s = Some (q', s') →
      interleaving fds p q' s' out →
      interleaving fds p q s out.

(** The handler runs once for each signal of the list, one run after the
    other. *)
Fixpoint deliver (signals : list Z) : Prog unit :=
  match signals with
  | [] => mret tt
  | signal :: rest => InterruptHandler signal;; deliver rest
  end.

(** Any number of threads: one operation of one of them at a time, until
    every thread has returned. *)
Inductive schedule (fds : option (Z * Z))
  : list (Prog unit) → State → State → Prop :=
  | all_returned threads s :
      Forall (λ p, p = Return (Ok tt)) threads →
      schedule fds threads s s
  | thread_step threads i p p' s s' out :
      threads !! i = Some p →
      step fds p s = Some (p', s') →
      schedule fds (<[i := p']> threads) s' out →
      schedule fds threads s out.

(** A system call on the descriptor [fd]. *)
Definition on_fd (fd : Z) (c : Syscall) : bool :=
  match c with
  | write fd' _ | close fd' => bool_decide (fd' = fd)
  | _ => false
  end.

End signals.

(** ** [InstanceDatabase::ParamFromQueries] *)

(** [selector::Query]: a field name and the value asked for. *)
Record Query := mkQuery {
  field_name_ : string;
  field_value_ : string;
}.

(** The two errors of [ParamFromQueries].  The message of the first one
    formats the [int] that [ParseInt] was to fill, not the text of the query,
    so it carries nothing of the input. *)
Inductive QueryError :=
  | IdIsNotANumber
  | UnrecognizedFieldName (field_name : string).

(** The last value of a list, and [d] when there is none. *)
Definition last_or {A} (l : list A) (d : option A) : option A :=
  match last l with
  | Some x => Some x
  | None => d
  end.

Section Queries.
(** The four field names are constants of [selector_constants.h], and
    [android::base::ParseInt] reads an [int]; they are not among the
    sources.  The parsed [int] is stored in the [unsigned] id of the
    parameter. *)
Variables kHomeField kInstanceIdField kGroupNameField kInstanceNameField
  : string.
Variable ParseInt : string → option Z.

Fixpoint ParamFromQueries_loop (queries : list Query) (param : FindParam)
  : QueryError + FindParam :=
  match queries with
  | [] => inr param
  | query :: rest =>
      if decide (field_name_ query = kHomeField) then
        ParamFromQueries_loop rest
          (mkFindParam (Some (field_value_ query)) (find_id param)
                       (find_group_name param) (find_instance_name param))
      else if decide (field_name_ query = kInstanceIdField) then
        match ParseInt (field_value_ query) with
        | None => inl IdIsNotANumber
        | Some id =>
            ParamFromQueries_loop rest
              (mkFindParam (find_home param) (Some (Z.to_N (start.unsigned id)))
                           (find_group_name param) (find_instance_name param))
        end
      else if decide (field_name_ query = kGroupNameField) then
        ParamFromQueries_loop rest
          (mkFindParam (find_home param) (find_id param)
                       (Some (field_value_ query)) (find_instance_name param))
      else if decide (field_name_ query = kInstanceNameField) then
        ParamFromQueries_loop rest
          (mkFindParam (find_home param) (find_id param)
                       (find_group_name param) (Some (field_value_ query)))
      else inl (UnrecognizedFieldName (field_name_ query))
  end.

Definition ParamFromQueries (queries : list Query) : QueryError + FindParam :=
  ParamFromQueries_loop queries (mkFindParam None None None None).

(** The values the queries give for one field, in order. *)
Definition values_for (field : string) (queries : list Query) : list string :=
  map field_value_ (filter (λ q, field_name_ q = field) queries).

End Queries.

(** ** The symbolic links: [EnsureSymlink], [CreateSymlinks],
    [AcloudCompatActions] *)

Module links.
Import start.

(** [MakeRequestForm], as far as [AcloudCompatActions] fills it. *)
Record MakeRequestForm := mkMakeRequestForm {
  cmd_args : Args;
  form_env : Envs;
  form_selector_args : Args;
  working_dir : string;
}.

(** The calls that may change the file system, in the order they are
    made. *)
Inductive FsCall :=
  | Call_EnsureDirectoryExists (dir : string)
  | Call_RecursivelyRemoveDirectory (path : string)
  | Call_RemoveFile (path : string)
  | Call_symlink (target link : string)
  | Call_Execute (requests : list MakeRequestForm).

Inductive LinkError :=
  | RemoveLegacyDirectoryFailed (link : string)
  | RemoveFileFailed (link : string)
  | SymlinkFailed (target link : string)
  | EnsureDirectoryFailed
  | NoSystemWideUserHome
  | NoInstance
  | DevNullNotOpen
  | ExecuteFailed.

(** The file system and the command executor, of which the sources give
    the calls only ([common/libs/utils/files], [symlink(2)],
    [SharedFD::Open], [command_executor_]).  A call answers from the
    state of the file system it finds and leaves a new one. *)
Class FileOps (FS : Type) := {
  DirectoryExists : string → bool (* follow_symlinks *) → FS → bool;
  FileExists : string → bool (* follow_symlinks *) → FS → bool;
  RecursivelyRemoveDirectory : string → FS → bool * FS;
  RemoveFile : string → FS → bool * FS;
  symlink : string → string → FS → bool * FS;   (* [symlink(..) == 0] *)
  EnsureDirectoryExists : string → FS → bool * FS;
  SystemWideUserHome : option string;
  TempDir : string;
  dev_null_IsOpen : FS → bool;
  Execute : list MakeRequestForm → FS → bool * FS;
}.

(** A computation on the file system that may stop with an error; the
    calls made are recorded. *)
Definition M (FS A : Type) : Type :=
  FS * list FsCall → (LinkError + A) * (FS * list FsCall).

Global Instance M_ret FS : MRet (M FS) := λ A a s, (inr a, s).
Global Instance M_bind FS : MBind (M FS) := λ A B k m s,
  match m s with
  | (inr a, s') => k a s'
  | (inl e, s') => (inl e, s')
  end.

Definition fail {FS A} (e : LinkError) : M FS A := λ s, (inl e, s).

Definition CF_EXPECTF {FS} (cond : bool) (e : LinkError) : M FS unit :=
  if cond then mret tt else fail e.

(** A question to the file system. *)
Definition look {FS} (f : FS → bool) : M FS bool := λ s, (inr (f s.1), s).

(** A call that may change it. *)
Definition op {FS} (c : FsCall) (f : FS → bool * FS) : M FS bool :=
  λ s, let '(answer, fs) := f s.1 in (inr answer, (fs, s.2 ++ [c])).

Definition UINT_MAX : N := 4294967295.   (* [numeric_limits<unsigned>::max()] *)

(** Modelled from the spec: [kLaunchedByAcloud] ([common_utils.h] is not
    among the sources): "if the LAUNCHED_BY_ACLOUD env is not present or is
    not true, existing entries are removed". *)
Definition kLaunchedByAcloud : string := "LAUNCHED_BY_ACLOUD".

Section WithFileOps.
Context {FS : Type} `{!FileOps FS}.

(** link might be a directory, so we clean that up, and create a link from
    target to link. *)
Definition EnsureSymlink (target link : string) : M FS unit :=
  is_directory ← look (DirectoryExists link false);
  (if is_directory : bool then
     removed ← op (Call_RecursivelyRemoveDirectory link)
                  (RecursivelyRemoveDirectory link);
     CF_EXPECTF removed (RemoveLegacyDirectoryFailed link)
   else mret tt);;
  is_file ← look (FileExists link false);
  (if is_file : bool then
     removed ← op (Call_RemoveFile link) (RemoveFile link);
     CF_EXPECTF removed (RemoveFileFailed link)
   else mret tt);;
  linked ← op (Call_symlink target link) (symlink target link);
  CF_EXPECTF linked (SymlinkFailed target link).

(** The three links the loop of [CreateSymlinks] ensures for one instance,
    as pairs of a target and a link. *)
Definition instance_links (home system_wide_home : string)
    (instance : PerInstanceInfo) : list (string * string) :=
  [ (home +:+ "/cuttlefish/instances/cvd-" +:+ to_string (instance_id_ instance),
     system_wide_home +:+ "/cuttlefish_runtime."
       +:+ to_string (instance_id_ instance));
    (home +:+ "/cuttlefish", system_wide_home +:+ "/cuttlefish");
    (home +:+ "/cuttlefish/assembly/cuttlefish_config.json",
     system_wide_home +:+ "/.cuttlefish_config.json") ].

Fixpoint ensure_all (links : list (string * string)) : M FS unit :=
  match links with
  | [] => mret tt
  | (target, link) :: rest => EnsureSymlink target link;; ensure_all rest
  end.

Fixpoint CreateSymlinks_loop (home system_wide_home : string)
    (instances : list PerInstanceInfo) (smallest_id : N) : M FS N :=
  match instances with
  | [] => mret smallest_id
  | instance :: rest =>
      (* later on, we link cuttlefish_runtime to
         cuttlefish_runtime.smallest_id *)
      let smallest_id := N.min smallest_id (instance_id_ instance) in
      ensure_all (instance_links home system_wide_home instance);;
      CreateSymlinks_loop home system_wide_home rest smallest_id
  end.

Definition CreateSymlinks (group_creation_info : GroupCreationInfo)
  : M FS unit :=
  made ← op (Call_EnsureDirectoryExists (home group_creation_info))
            (EnsureDirectoryExists (home group_creation_info));
  CF_EXPECTF made EnsureDirectoryFailed;;
  system_wide_home ←
    match SystemWideUserHome with
    | Some system_wide_home => mret system_wide_home
    | None => fail NoSystemWideUserHome
    end;
  smallest_id ← CreateSymlinks_loop (home group_creation_info)
                  system_wide_home (instances group_creation_info) UINT_MAX;
  (* create cuttlefish_runtime to cuttlefish_runtime.id *)
  CF_EXPECTF (bool_decide (UINT_MAX ≠ smallest_id)) NoInstance;;
  EnsureSymlink
    (system_wide_home +:+ "/cuttlefish_runtime." +:+ to_string smallest_id)
    (system_wide_home +:+ "/cuttlefish_runtime").

(** rm -fr "TempDir()/acloud_cvd_temp/local-instance-<i>" *)
Definition acloud_compat_home (instance : PerInstanceInfo) : string :=
  (TempDir +:+ "/acloud_cvd_temp/local-instance-")
    +:+ to_string (instance_id_ instance).

Definition launched_by_acloud (envs : Envs) : bool :=
  bool_decide (envs !! kLaunchedByAcloud = Some "true").

Fixpoint remove_acloud_compat_homes (envs : Envs)
    (acloud_compat_homes : list string) : M FS unit :=
  match acloud_compat_homes with
  | [] => mret tt
  | acloud_compat_home :: rest =>
      found ← look (FileExists acloud_compat_home true);
      (if negb found then mret tt
       else if negb (launched_by_acloud envs) then
         is_directory ← look (DirectoryExists acloud_compat_home false);
         (* the answer only decides whether a line is logged *)
         (if negb is_directory
          then (* cvd created a symbolic link *)
               op (Call_RemoveFile acloud_compat_home)
                  (RemoveFile acloud_compat_home)
          else (* acloud created a directory *)
               op (Call_RecursivelyRemoveDirectory acloud_compat_home)
                  (RecursivelyRemoveDirectory acloud_compat_home));;
         mret tt
       else mret tt);;
      remove_acloud_compat_homes envs rest
  end.

(** The requests [AcloudCompatActions] hands to the executor. *)
Definition request_forms (group_creation_info : GroupCreationInfo)
    (client_pwd : string) : list MakeRequestForm :=
  let common_envs := envs group_creation_info in
  let home_dir := home group_creation_info in
  let android_host_out := host_artifacts_path group_creation_info in
  [ mkMakeRequestForm ["mkdir"; "-p"; home_dir] common_envs [] client_pwd;
    mkMakeRequestForm
      ["ln"; "-T"; "-f"; "-s"; android_host_out; home_dir +:+ "/host_bins"]
      common_envs [] client_pwd ]
  ++ map (λ acloud_compat_home,
            mkMakeRequestForm
              ["ln"; "-T"; "-f"; "-s"; home_dir; acloud_compat_home]
              common_envs [] client_pwd)
         (filter (λ acloud_compat_home, acloud_compat_home ≠ home_dir)
                 (map acloud_compat_home (instances group_creation_info))).

Definition AcloudCompatActions (group_creation_info : GroupCreationInfo)
    (request : Request) : M FS unit :=
  let acloud_compat_homes :=
    map acloud_compat_home (instances group_creation_info) in
  remove_acloud_compat_homes (envs group_creation_info) acloud_compat_homes;;
  let new_requests :=
    request_forms group_creation_info (working_directory request) in
  is_open ← look dev_null_IsOpen;
  CF_EXPECTF is_open DevNullNotOpen;;
  executed ← op (Call_Execute new_requests) (Execute new_requests);
  CF_EXPECTF executed ExecuteFailed.

End WithFileOps.

(** The three errors of [EnsureSymlink]. *)
Definition is_link_failure (e : LinkError) : bool :=
  match e with
  | RemoveLegacyDirectoryFailed _ | RemoveFileFailed _ | SymlinkFailed _ _ =>
      true
  | _ => false
  end.

(** What a computation adds to the calls, with its result. *)
Definition adds {FS A} (m : M FS A) (s : FS * list FsCall)
    (P : LinkError + A → list FsCall → Prop) : Prop :=
  ∃ new, (m s).2.2 = s.2 ++ new ∧ P (m s).1 new.

(** The links asked for, and the paths asked to be removed, among the
    calls. *)
Definition symlinks_of (calls : list FsCall) : list (string * string) :=
  omap (λ c, match c with
             | Call_symlink target link => Some (target, link)
             | _ => None
             end) calls.

Definition removals_of (calls : list FsCall) : list string :=
  omap (λ c, match c with
             | Call_RecursivelyRemoveDirectory path | Call_RemoveFile path =>
                 Some path
             | _ => None
             end) calls.

Definition executions_of (calls : list FsCall)
  : list (list MakeRequestForm) :=
  omap (λ c, match c with
             | Call_Execute requests => Some requests
             | _ => None
             end) calls.

End links.

(** The errors of the setter of the daemon flag. *)
Definition is_daemon_error (e : Error) : bool :=
  match e with
  | NoDaemonNotSupported | DaemonValueHasComma _ | DaemonFalseNotSupported _ _
  | InvalidDaemonOption _ _ => true
  | _ => false
  end.

(** A file system with nothing in the way, on which every call succeeds;
    the system wide home is [/u] and the temporary directory [/tmp]. *)
Definition obliging_file_system : links.FileOps unit := {|
  links.DirectoryExists := λ _ _ _, false;
  links.FileExists := λ _ _ _, false;
  links.RecursivelyRemoveDirectory := λ _ fs, (true, fs);
  links.RemoveFile := λ _ fs, (true, fs);
  links.symlink := λ _ _ fs, (true, fs);
  links.EnsureDirectoryExists := λ _ fs, (true, fs);
  links.SystemWideUserHome := Some "/u";
  links.TempDir := "/tmp";
  links.dev_null_IsOpen := λ _, true;
  links.Execute := λ _ fs, (true, fs);
|}.





(** * Properties *)

Lemma bind_run {S A B} (m : St S A) (k : A → St S B) (s s' : S) (r : Result A) :
  m s = (r, s') →
  bind m k s = match r with
               | Ok a => k a s'
               | Err e => (Err e, s')
               | Abort => (Abort, s')
               end.
Proof. intros Hm. unfold bind. rewrite Hm. by destruct r. Qed.

(** Run the first computation of a [bind] with its known outcome. *)
Ltac run_bind E := rewrite (bind_run _ _ _ _ _ E); cbv beta iota.

(** ** The registry *)

Section RegistryFacts.
Context `{RegistryDeps}.

Lemma collect_Create_valid (groups : list InstanceGroup) :
  Forall (λ g, ValidGroup g = true) groups →
  collect Create groups = Ok (map mkLocalInstanceGroup groups).
Proof.
  induction 1 as [|g groups Hg _ IH]; [done|].
  cbn. unfold Create at 1. by rewrite Hg, IH.
Qed.

Lemma collect_Create_ok (groups : list InstanceGroup) l :
  collect Create groups = Ok l →
  Forall (λ g, ValidGroup g = true) groups.
Proof.
  revert l. induction groups as [|g groups IH]; intros l; [constructor|].
  cbn. unfold Create at 1. destruct (ValidGroup g) eqn:Hg; [|done].
  destruct (collect Create groups) eqn:Hc; try done.
  intros _. constructor; eauto.
Qed.


Lemma matching_instances_of_id (g : InstanceGroup) (id : N) :
  empty (matching_instances_of (mkLocalInstanceGroup g)
           (mkFindParam None (Some id) None None)) = true
  ↔ id ∉ ids_of g.
Proof.
  unfold matching_instances_of, Instances, ids_of. cbn.
  induction (instances g) as [|i l IH]; cbn.
  - split; [intros _; apply not_elem_of_nil|done].
  - rewrite not_elem_of_cons. destruct (decide _) as [[Hd _]|Hd]; cbn.
    + apply bool_decide_eq_false, dec_stable in Hd.
      split; [done|]. intros [? _]; congruence.
    + rewrite IH. split; [|tauto]. intros Hl. split; [|done].
      intros ->. apply Hd. by rewrite bool_decide_eq_false_2 by tauto.
Qed.

Lemma empty_app {A} (l1 l2 : list A) :
  empty (l1 ++ l2) = true ↔ empty l1 = true ∧ empty l2 = true.
Proof. destruct l1, l2; cbn; intuition congruence. Qed.

(** Under R3 the query by id finds an instance exactly when the id is
    stored. *)
Lemma FindInstances_loop_id (groups : list InstanceGroup) (id : N) :
  Forall (λ g, ValidGroup g = true) groups →
  ∃ l, FindInstances_loop groups (mkFindParam None (Some id) None None) = Ok l
       ∧ (empty l = true ↔ id ∉ concat (map ids_of groups))
       ∧ Forall (λ i, InstanceId i = id) l.
Proof.
  induction 1 as [|g groups Hg _ (l & IH & Hl & Hall)].
  - exists []. cbn. split; [done|]. split; [|constructor].
    split; [intros _; apply not_elem_of_nil|done].
  - cbn [FindInstances_loop find_home find_group_name set_and_differs].
    unfold Create. rewrite Hg, IH. eexists; split; [done|]. split.
    + rewrite empty_app, matching_instances_of_id, Hl. cbn.
      rewrite elem_of_app. tauto.
    + apply Forall_app; split; [|done].
      unfold matching_instances_of. apply Forall_forall.
      intros i [Hi _]%list_elem_of_filter. cbn in Hi.
      destruct Hi as [Hi _]. by apply bool_decide_eq_false, dec_stable in Hi.
Qed.

End RegistryFacts.

Section AddInstanceGroupFacts.
Context `{RegistryDeps}.


(** A loop that only reads leaves the state as it was. *)
Lemma for_each_read_only {S A} (l : list A) (body : A → St S unit) (s : S) :
  (∀ x s, (body x s).2 = s) → (for_each l body s).2 = s.
Proof.
  intros Hbody. induction l as [|x l IH]; [done|].
  cbn. unfold bind. specialize (Hbody x s).
  destruct (body x s) as [[[]| |] s']; cbn in *; subst; done.
Qed.




End AddInstanceGroupFacts.

Section AddInstanceGroupTheorems.
Context `{RegistryDeps}.







(** C5 (as amended).  When [AddInstanceGroup] returns an Invalid or a
    Conflict error the backing file is unchanged.  The file system is
    unchanged when the group name is ill-formed or the home directory of the
    group exists; when the name is well-formed and the directory is missing,
    the directory has been created and is left behind, and nothing else has
    changed: [EnsureDirectoryExists] runs right after the check of the group
    name, before the remaining validation and before the conflict checks. *)
Theorem AddInstanceGroup_error_effects (spec : InstanceGroup) (w : World) :
  let r := (AddInstanceGroup spec w).1 in
  let w' := (AddInstanceGroup spec w).2 in
  is_invalid r = true ∨ is_conflict r = true →
  backing_file w' = backing_file w ∧
  fs w'
  = (if IsValidGroupName (name spec)
        && bool_decide (home_directory spec ∉ directories (fs w))
     then mkFileSystem ({[home_directory spec]} ∪ directories (fs w))
                       (read_only (fs w))
     else fs w) ∧
  (IsValidGroupName (name spec) = true →
   home_directory spec ∈ directories (fs w')).
Proof.
  cbv zeta. destruct (AddInstanceGroup spec w) as [r w'] eqn:Hrun.
  cbn [fst snd]. revert Hrun. unfold AddInstanceGroup.
  unfold bind at 1, CF_EXPECT at 1.
  destruct (IsValidGroupName (name spec)) eqn:Hname;
    [|by intros [= <- <-]; auto].
  unfold bind at 1, ensure_directory at 1. cbn [andb].
  assert (∀ b fs', EnsureDirectoryExists (home_directory spec) (fs w) = (b, fs') →
            (b = true →
             fs' = (if bool_decide (home_directory spec ∉ directories (fs w))
                    then mkFileSystem
                           ({[home_directory spec]} ∪ directories (fs w))
                           (read_only (fs w))
                    else fs w) ∧
             home_directory spec ∈ directories fs')) as Hfs.
  { unfold EnsureDirectoryExists. intros b fs'.
    destruct (decide (home_directory spec ∈ directories (fs w)))
      as [Hexists|Hmissing].
    - intros [= <- <-] _.
      by rewrite bool_decide_eq_false_2 by (by intros Hno; apply Hno).
    - rewrite bool_decide_eq_true_2 by done.
      case_decide; intros [= <- <-]; [done|]. intros _. split; [done|].
      cbn. set_solver. }
  destruct (EnsureDirectoryExists _ _) as [b fs'] eqn:Hensure.
  specialize (Hfs _ _ eq_refl).
  unfold bind at 1, CF_EXPECT at 1.
  destruct b; [|by intros [= <- <-] [[=]|[=]]].
  destruct Hfs as [Hfs Hhome]; [done|]. clear Hensure.
  unfold bind at 1, get at 1. cbn [fs].
  unfold bind at 1, CF_EXPECT at 1.
  destruct (PotentiallyHostArtifactsPath _ _); [|by intros [= <- <-]; auto].
  unfold bind at 1.
  pose proof (for_each_read_only (instances spec)
    (λ instance_proto,
       CF_EXPECT (IsValidInstanceName (Instance_name instance_proto))
                 (InvalidInstanceName (Instance_name instance_proto)))
    (mkWorld fs' (backing_file w))) as Hloop.
  destruct (for_each _ _ _) as [r1 w1]. cbn in Hloop.
  rewrite Hloop by (intros x s; unfold CF_EXPECT; done).
  destruct r1 as [[]| |]; [|by intros [= <- <-]; auto..].
  unfold on_file, WithExclusiveLock. cbn [backing_file fs].
  destruct (AddInstanceGroup_locked spec (backing_file w)) as [[?| |] ?];
    intros [= <- <-]; cbn; auto. intros [[=]|[=]].
Qed.

End AddInstanceGroupTheorems.

(** ** [Clear], [InstanceGroups], [IsEmpty] and [LoadFromJson] *)

Section ClearFacts.
Context `{RegistryDeps}.

(** [Clear] and [InstanceGroups] run the same loop over the stored groups, so
    they return the same result on every backing file. *)
Lemma Clear_result (data : PersistentData) :
  (Clear data).1 = (InstanceGroups data).1.
Proof.
  unfold Clear, InstanceGroups, WithExclusiveLock, WithSharedLock.
  unfold bind, get, modify, lift. cbn.
  by destruct (collect Create (instance_groups data)).
Qed.

(** C8.  On a registry whose groups re-validate (R3), [Clear] returns the
    list [InstanceGroups] returns on the same data, one entry per stored
    group and in the stored order, and leaves a backing file on which
    [IsEmpty] returns true. *)
Theorem Clear_returns_InstanceGroups (data : PersistentData) :
  R3 data →
  ∃ groups,
    (InstanceGroups data).1 = Ok groups ∧
    map Proto groups = instance_groups data ∧
    (Clear data).1 = Ok groups ∧
    (IsEmpty (Clear data).2).1 = Ok true.
Proof.
  intros HR3. exists (map mkLocalInstanceGroup (instance_groups data)).
  unfold Clear, InstanceGroups, IsEmpty, WithExclusiveLock, WithSharedLock.
  unfold bind, get, modify, lift. cbn.
  rewrite collect_Create_valid by done. cbn.
  repeat split; try done.
  rewrite <-list_fmap_compose. apply list_fmap_id.
Qed.

Lemma load_loop (new_groups : list LocalInstanceGroup) (data : PersistentData) :
  for_each new_groups (λ group, modify (add_instance_groups (Proto group))) data
  = (Ok tt, mkPersistentData (instance_groups data ++ map Proto new_groups)
                             (acloud_translator_optout data)).
Proof.
  revert data. induction new_groups as [|g l IH]; intros data.
  - cbn. rewrite app_nil_r. by destruct data.
  - cbn [for_each]. unfold bind, modify at 1. rewrite IH. cbn.
    by rewrite <-app_assoc.
Qed.

(** [LoadFromJson] appends every parsed group, whatever is stored. *)
Lemma LoadFromJson_appends (members : list (string * Json))
    (elements : list Json) (new_groups : list LocalInstanceGroup)
    (data : PersistentData) :
  member kJsonGroups members = Some (JArray elements) →
  collect Deserialize elements = Ok new_groups →
  LoadFromJson (JObject members) data
  = (Ok tt, mkPersistentData (instance_groups data ++ map Proto new_groups)
                             (acloud_translator_optout data)).
Proof.
  intros Hmember Hparsed. unfold LoadFromJson.
  assert (isMember (JObject members) kJsonGroups = Ok true) as ->.
  { cbn. rewrite Hmember. by rewrite bool_decide_eq_true_2 by eauto. }
  run_bind (eq_refl : lift (Ok true) data = (Ok true, data)).
  run_bind (eq_refl : CF_EXPECT true JsonNoGroupsKey data = (Ok tt, data)).
  unfold json_index. rewrite Hmember. unfold default, id.
  cbn [from_option isArray json_elements].
  run_bind (eq_refl : CF_EXPECT true JsonGroupsNotArray data = (Ok tt, data)).
  rewrite Hparsed.
  run_bind (eq_refl : lift (Ok new_groups) data = (Ok new_groups, data)).
  unfold WithExclusiveLock. by rewrite load_loop.
Qed.

Lemma LoadFromJson_missing_key (members : list (string * Json))
    (data : PersistentData) :
  member kJsonGroups members = None →
  LoadFromJson (JObject members) data = (Err JsonNoGroupsKey, data).
Proof.
  intros Hmember. unfold LoadFromJson.
  assert (isMember (JObject members) kJsonGroups = Ok false) as ->.
  { cbn. rewrite Hmember. by rewrite bool_decide_eq_false_2 by (by intros [? [=]]). }
  run_bind (eq_refl : lift (Ok false) data = (Ok false, data)).
  by run_bind (eq_refl : CF_EXPECT false JsonNoGroupsKey data
                         = (Err JsonNoGroupsKey, data)).
Qed.

Lemma LoadFromJson_not_array (members : list (string * Json)) (v : Json)
    (data : PersistentData) :
  member kJsonGroups members = Some v →
  isArray v = false →
  LoadFromJson (JObject members) data = (Err JsonGroupsNotArray, data).
Proof.
  intros Hmember Harray. unfold LoadFromJson.
  assert (isMember (JObject members) kJsonGroups = Ok true) as ->.
  { cbn. rewrite Hmember. by rewrite bool_decide_eq_true_2 by eauto. }
  run_bind (eq_refl : lift (Ok true) data = (Ok true, data)).
  run_bind (eq_refl : CF_EXPECT true JsonNoGroupsKey data = (Ok tt, data)).
  unfold json_index. rewrite Hmember. unfold default, id.
  cbn [from_option]. rewrite Harray.
  by run_bind (eq_refl : CF_EXPECT false JsonGroupsNotArray data
                         = (Err JsonGroupsNotArray, data)).
Qed.

End ClearFacts.

(** ** The registry on the example data *)

(** Decide a closed proposition by evaluation. *)
Ltac by_evaluation :=
  lazymatch goal with
  | |- ?P => refine (@bool_decide_unpack P _ _); vm_compute; exact I
  end.


(** Scenario 3 of the design document: the id 2 is taken. *)
Example conflict_on_id :
  @AddInstanceGroup reference_deps g2 world_g1
  = (Err (InstanceConflict "a" 2),
     mkWorld (mkFileSystem ({["/h2"]} ∪ directories fs0) ∅) registry_g1).
Proof. by vm_compute. Qed.

(** Scenario 2 read on the code: the conflict is on the pair (home, group
    name), so a second group at the same home with another name is added. *)
Example same_home_other_name :
  (@AddInstanceGroup reference_deps g3 world_g1).1 = Ok (mkLocalInstanceGroup g3).
Proof. by vm_compute. Qed.

(** The ids of a new group are compared with the stored instances only, not
    with each other: a group that repeats an id passes the two conflict
    checks, is appended to the data under the lock, and is then refused by
    [Create]; the error keeps the backing file as it was. *)
Example repeated_id_refused_by_Create :
  @AddInstanceGroup_locked reference_deps g22 empty_registry
  = (Err GroupValidationFailed, add_instance_groups g22 empty_registry) ∧
  (@AddInstanceGroup reference_deps g22 world_empty).1
  = Err GroupValidationFailed ∧
  backing_file (@AddInstanceGroup reference_deps g22 world_empty).2
  = empty_registry.
Proof. repeat split; by vm_compute. Qed.

(** The theorem on [g2] and the registry with [g1]: a Conflict error, and
    the home directory [/h2], which was missing, is there afterwards. *)
Lemma AddInstanceGroup_error_effects_witness :
  (let r := (@AddInstanceGroup reference_deps g2 world_g1).1 in
   is_invalid r = true ∨ is_conflict r = true) ∧
  let w' := (@AddInstanceGroup reference_deps g2 world_g1).2 in
  backing_file w' = backing_file world_g1 ∧
  fs w'
  = (if @IsValidGroupName reference_deps (name g2)
        && bool_decide (home_directory g2 ∉ directories (fs world_g1))
     then mkFileSystem ({[home_directory g2]} ∪ directories (fs world_g1))
                       (read_only (fs world_g1))
     else fs world_g1) ∧
  (@IsValidGroupName reference_deps (name g2) = true →
   home_directory g2 ∈ directories (fs w')).
Proof.
  assert (let r := (@AddInstanceGroup reference_deps g2 world_g1).1 in
          is_invalid r = true ∨ is_conflict r = true) as Herr
    by (right; vm_compute; reflexivity).
  split; [exact Herr|].
  exact (@AddInstanceGroup_error_effects reference_deps g2 world_g1 Herr).
Defined.

(** C5, counterexample.  [AddInstanceGroup] returns a Conflict error, and the
    home directory [/h2], which did not exist, has been created. *)
Lemma AddInstanceGroup_conflict_creates_home :
  let r := (@AddInstanceGroup reference_deps g2 world_g1).1 in
  let w' := (@AddInstanceGroup reference_deps g2 world_g1).2 in
  is_conflict r = true ∧
  (home_directory g2 ∉ directories (fs world_g1)) ∧
  (home_directory g2 ∈ directories (fs w')) ∧
  fs w' ≠ fs world_g1.
Proof.
  cbv zeta. split; [by vm_compute|].
  split; [by_evaluation|]. split; [by_evaluation|].
  intros Heq.
  assert (home_directory g2 ∈ directories (fs world_g1)) as Hin
    by (rewrite <-Heq; by_evaluation).
  revert Hin. by_evaluation.
Qed.

(** The theorem on the registry that holds [g1]. *)
Lemma Clear_returns_InstanceGroups_witness :
  @R3 reference_deps registry_g1 ∧
  ∃ groups,
    (@InstanceGroups reference_deps registry_g1).1 = Ok groups ∧
    map Proto groups = instance_groups registry_g1 ∧
    (@Clear reference_deps registry_g1).1 = Ok groups ∧
    (@IsEmpty (@Clear reference_deps registry_g1).2).1 = Ok true.
Proof.
  assert (@R3 reference_deps registry_g1) as HR3 by (repeat constructor).
  split; [exact HR3|].
  exact (@Clear_returns_InstanceGroups reference_deps registry_g1 HR3).
Defined.

(** C4, the code at the failing input.  The blob holds the group that is
    already stored.  [AddInstanceGroup] refuses that group with a Conflict
    error; [LoadFromJson] returns success and stores it a second time, which
    breaks R1 and R2. *)
Theorem LoadFromJson_ignores_conflicts :
  is_conflict (@AddInstanceGroup reference_deps g1 world_g1).1 = true ∧
  @LoadFromJson reference_deps blob_g1 registry_g1
  = (Ok tt, mkPersistentData [g1; g1] false) ∧
  R1 registry_g1 ∧ R2 registry_g1 ∧
  ¬ R1 (@LoadFromJson reference_deps blob_g1 registry_g1).2 ∧
  ¬ R2 (@LoadFromJson reference_deps blob_g1 registry_g1).2.
Proof.
  split; [by vm_compute|]. split; [by vm_compute|].
  split; [repeat constructor; by intros ?%elem_of_nil|].
  split; [repeat constructor; by intros ?%elem_of_nil|].
  split.
  - change (¬ NoDup [group_key g1; group_key g1]).
    intros [Hnotin _]%NoDup_cons. apply Hnotin. by left.
  - change (¬ NoDup [2%N; 2%N]).
    intros [Hnotin _]%NoDup_cons. apply Hnotin. by left.
Qed.

(** ** The flag parser *)

Section FlagParserFacts.
Import flag_parser.

Lemma Process_aliases_no_match (setter : FlagMatch → St Vars unit)
    (als : list FlagAlias) (arg : string) (next_arg : option string)
    (vars vars' : Vars) :
  Process_aliases setter als arg next_arg vars = (Ok kFlagNoMatch, vars') →
  existsb (λ alias, alias_matches alias arg) als = false.
Proof.
  induction als as [|alias als IH]; [done|].
  cbn [Process_aliases existsb]. unfold alias_matches at 1.
  destruct (mode alias).
  - case_decide as Harg.
    + unfold bind, ret. by destruct (setter _ _) as [[[]| |] ?].
    + rewrite bool_decide_eq_false_2 by done. apply IH.
  - destruct (String.prefix _ _).
    + unfold bind, ret. by destruct (setter _ _) as [[[]| |] ?].
    + apply IH.
  - case_decide as Harg.
    + destruct next_arg; [|done].
      unfold bind, ret. by destruct (setter _ _) as [[[]| |] ?].
    + rewrite bool_decide_eq_false_2 by done. apply IH.
Qed.

(** A successful [Parse] keeps a subsequence of the arguments, and nothing
    it keeps matches the flag. *)
Lemma Parse_loop_ok (flag : Flag) (n : nat) :
  ∀ (rest kept : Args) (vars : Vars) (out : Args) (vars' : Vars),
    (length rest ≤ n)%nat →
    Parse_loop flag kept rest vars = (Ok tt, (out, vars')) →
    ∃ kept', out = kept ++ kept' ∧ kept' `sublist_of` rest ∧
             Forall (λ arg, flag_matches flag arg = false) kept'.
Proof.
  induction n as [|n IH]; intros rest kept vars out vars' Hlen.
  - destruct rest; [|cbn in Hlen; lia]. cbn. intros [= <- <-].
    exists []. rewrite app_nil_r. by repeat split.
  - destruct rest as [|arg rest']; cbn [Parse_loop].
    { intros [= <- <-]. exists []. rewrite app_nil_r. by repeat split. }
    cbn in Hlen.
    destruct (Process flag arg (head rest') vars) as [[[]| |] vars1] eqn:Hp;
      try done.
    + intros (kept' & -> & Hsub & Hno)%IH; [|lia].
      exists (arg :: kept'). rewrite <-app_assoc. split; [done|].
      split; [by constructor|]. constructor; [|done].
      by eapply Process_aliases_no_match.
    + intros (kept' & -> & Hsub & Hno)%IH; [|lia].
      exists kept'. split; [done|]. split; [by constructor|done].
    + destruct rest' as [|next rest'']; [done|]. cbn in Hlen.
      intros (kept' & -> & Hsub & Hno)%IH; [|lia].
      exists kept'. split; [done|]. split; [by do 2 constructor|done].
Qed.

Lemma ConsumeFlags_ok (flags : list Flag) :
  ∀ (args : Args) (vars : Vars) (out : Args) (vars' : Vars),
    ConsumeFlags flags (args, vars) = (Ok tt, (out, vars')) →
    out `sublist_of` args ∧
    Forall (λ arg, Forall (λ flag, flag_matches flag arg = false) flags) out.
Proof.
  induction flags as [|flag flags IH]; intros args vars out vars'.
  - cbn. intros [= <- <-]. split; [done|].
    apply Forall_forall. intros; constructor.
  - unfold ConsumeFlags. cbn [for_each]. unfold bind at 1, Parse at 1.
    destruct (Parse_loop flag [] args vars) as [[[]| |] [out1 vars1]] eqn:Hp;
      try done.
    apply (Parse_loop_ok flag (length args)) in Hp
      as (kept' & -> & Hsub & Hno); [|done]. cbn [app].
    intros [Hsub' Hno']%IH. split; [by etrans|].
    apply Forall_forall. intros arg Harg. constructor.
    + rewrite Forall_forall in Hno. apply Hno.
      by apply (sublist_subseteq _ _ Hsub').
    + rewrite Forall_forall in Hno'. by apply Hno'.
Qed.

Lemma consume_ok (flags : list Flag) (args out : Args) (vars : Vars) :
  consume_flags flags args = (Ok vars, out) →
  out `sublist_of` args ∧
  Forall (λ arg, Forall (λ flag, flag_matches flag arg = false) flags) out.
Proof.
  unfold consume_flags.
  destruct (ConsumeFlags flags (args, ∅)) as [[[]| |] [out1 vars1]] eqn:Hc;
    intros [= <- <-]. by eapply ConsumeFlags_ok.
Qed.

Lemma flag_matches_GflagsCompatFlag (name variable arg : string) :
  flag_matches (GflagsCompatFlag name variable) arg = is_flag name arg.
Proof.
  unfold flag_matches, is_flag, alias_matches. cbn.
  by rewrite orb_false_r, !orb_assoc.
Qed.

End FlagParserFacts.

(** ** The argument and environment rewriter *)

Section RewriterFacts.
Import flag_parser start.
Context `{StartDeps}.

Lemma fold_left_max_spec (l : list N) (x : N) :
  fold_left N.max l x ∈ x :: l ∧
  Forall (λ y, (y ≤ fold_left N.max l x)%N) (x :: l).
Proof.
  revert x. induction l as [|y l IH]; intros x; cbn.
  - split; [by left|]. by repeat constructor.
  - destruct (IH (N.max x y)) as [Hin Hall].
    apply Forall_cons in Hall as [Hxy Hall]. split.
    + apply elem_of_cons in Hin as [Hin|Hin]; [|by do 2 right].
      rewrite Hin. destruct (N.max_spec x y) as [[_ ->]|[_ ->]];
        [right; left|left]; done.
    + repeat constructor; [lia|lia|done].
Qed.

Lemma fold_left_min_spec (l : list N) (x : N) :
  fold_left N.min l x ∈ x :: l ∧
  Forall (λ y, (fold_left N.min l x ≤ y)%N) (x :: l).
Proof.
  revert x. induction l as [|y l IH]; intros x; cbn.
  - split; [by left|]. by repeat constructor.
  - destruct (IH (N.min x y)) as [Hin Hall].
    apply Forall_cons in Hall as [Hxy Hall]. split.
    + apply elem_of_cons in Hin as [Hin|Hin]; [|by do 2 right].
      rewrite Hin. destruct (N.min_spec x y) as [[_ ->]|[_ ->]];
        [left|right; left]; done.
    + repeat constructor; [lia|lia|done].
Qed.

(** On a non-empty vector the two elements exist, belong to the vector and
    bound it. *)
Lemma max_min_element_spec (ids : list N) :
  ids ≠ [] →
  ∃ mx mn, max_element ids = Some mx ∧ min_element ids = Some mn ∧
           mx ∈ ids ∧ mn ∈ ids ∧
           Forall (λ id, (mn ≤ id ≤ mx)%N) ids.
Proof.
  destruct ids as [|x l]; [done|]. intros _. cbn.
  destruct (fold_left_max_spec l x) as [Hmax Hle].
  destruct (fold_left_min_spec l x) as [Hmin Hge].
  do 2 eexists. repeat split; try done.
  rewrite Forall_forall in Hle, Hge. apply Forall_forall. intros id Hid.
  split; [by apply Hge|by apply Hle].
Qed.

(** The unsigned subtraction and the [size_t] subtraction do not wrap. *)
Lemma is_consecutive_no_wrap (ids : list N) (mx mn : N) :
  fits_unsigned ids → ids ≠ [] →
  mx ∈ ids → (mn ≤ mx)%N →
  (unsigned (Z.of_N mx - Z.of_N mn) =? size_t (Z.of_nat (length ids) - 1))%Z
  = bool_decide (Z.of_N mx - Z.of_N mn = Z.of_nat (length ids) - 1)%Z.
Proof.
  intros [Hfit Hlen] Hne Hmx Hle. rewrite Forall_forall in Hfit.
  specialize (Hfit _ Hmx). unfold unsigned, size_t.
  assert (1 ≤ length ids)%nat by (destruct ids; [done|cbn; lia]).
  rewrite !Z.mod_small by lia.
  destruct (Z.eqb_spec (Z.of_N mx - Z.of_N mn) (Z.of_nat (length ids) - 1)).
  - by rewrite bool_decide_eq_true_2.
  - by rewrite bool_decide_eq_false_2.
Qed.

Lemma is_sorted_Sorted (ids : list N) :
  is_sorted ids = true ↔ Sorted N.le ids.
Proof.
  induction ids as [|x [|y l] IH].
  - split; [constructor|done].
  - split; [repeat constructor|done].
  - cbn [is_sorted]. rewrite andb_true_iff, N.leb_le, IH. split.
    + intros [??]. constructor; [done|]. by constructor.
    + intros [? Hhd]%Sorted_inv. by inversion Hhd.
Qed.

Lemma instance_id_flags_stripped (args stripped : Args) (vars : Vars) :
  consume_flags instance_id_flags args = (Ok vars, stripped) →
  stripped `sublist_of` args ∧
  Forall (λ arg, is_instance_id_flag arg = false) stripped.
Proof.
  intros [Hsub Hno]%consume_ok. split; [done|].
  eapply Forall_impl; [exact Hno|]. intros arg Harg. unfold instance_id_flags in Harg.
  apply Forall_cons in Harg as [H1 Harg].
  apply Forall_cons in Harg as [H2 Harg].
  apply Forall_cons in Harg as [H3 _].
  rewrite flag_matches_GflagsCompatFlag in H1, H2, H3.
  unfold is_instance_id_flag. by rewrite H1, H2, H3.
Qed.

(** C3 (as amended).  For a non-empty instance list whose ids are [unsigned]
    values, when the three instance-id flags of the client parse: they are
    stripped, and then
    - if the ids are not sorted or [max - min ≠ len - 1], the rewriter
      appends exactly [--instance_nums=<comma-join(ids)>] and leaves the
      environment as it is, provided the launcher accepts [instance_nums];
      otherwise it fails;
    - if the ids are sorted, [max - min = len - 1] and there is more than
      one, the rewriter appends [--num_instances=<len>], then
      [--base_instance_num=<min>] iff the launcher accepts that flag, and
      sets [CUTTLEFISH_INSTANCE=<min>], provided the launcher accepts
      [num_instances]; otherwise it fails.
    No other instance-id flag is in the output. *)
Theorem UpdateInstanceArgsAndEnvs_emits (args : Args) (envs : Envs)
    (instances : list PerInstanceInfo) (artifacts_path start_bin : string)
    (vars : Vars) (stripped : Args) :
  let ids := map instance_id_ instances in
  let result :=
    UpdateInstanceArgsAndEnvs args envs instances artifacts_path start_bin in
  instances ≠ [] →
  fits_unsigned ids →
  consume_flags instance_id_flags args = (Ok vars, stripped) →
  stripped `sublist_of` args ∧
  Forall (λ arg, is_instance_id_flag arg = false) stripped ∧
  ∃ mx mn,
    (mx ∈ ids) ∧ (mn ∈ ids) ∧ Forall (λ id, (mn ≤ id ≤ mx)%N) ids ∧
    let consecutive :=
      (Z.of_N mx - Z.of_N mn = Z.of_nat (length ids) - 1)%Z in
    (¬ (consecutive ∧ is_sorted ids = true) →
     result =
     if check_flag artifacts_path "instance_nums"
     then Ok (mkUpdatedArgsAndEnvs
                (stripped ++ ["--instance_nums=" +:+ Join ids ","]) envs)
     else Err (FlagNotSupported "instance_nums")) ∧
    (consecutive ∧ is_sorted ids = true ∧ (1 < length ids)%nat →
     result =
     if check_flag artifacts_path "num_instances"
     then Ok (mkUpdatedArgsAndEnvs
                (stripped
                 ++ ["--num_instances=" +:+ to_string (N.of_nat (length ids))]
                 ++ (if check_flag artifacts_path "base_instance_num"
                     then ["--base_instance_num=" +:+ to_string mn]
                     else []))
                (<[kCuttlefishInstanceEnvVarName := to_string mn]> envs))
     else Err (FlagNotSupported "num_instances")).
Proof.
  intros ids result Hne Hfit Hconsume.
  destruct (instance_id_flags_stripped _ _ _ Hconsume) as [Hsub Hno].
  split; [done|]. split; [done|].
  assert (ids ≠ []) as Hids by (subst ids; by destruct instances).
  destruct (max_min_element_spec ids Hids)
    as (mx & mn & Hmax & Hmin & Hmx & Hmn & Hbounds).
  exists mx, mn. split; [done|]. split; [done|]. split; [done|].
  assert (mn ≤ mx)%N as Hle.
  { rewrite Forall_forall in Hbounds. by apply Hbounds. }
  subst result. unfold UpdateInstanceArgsAndEnvs. fold ids.
  rewrite Hconsume, Hmax, Hmin.
  rewrite (is_consecutive_no_wrap ids mx mn) by done.
  cbv zeta. split.
  - intros Hnot.
    destruct (bool_decide _) eqn:Hc; [|done].
    apply bool_decide_eq_true in Hc.
    destruct (is_sorted ids) eqn:Hs; [|done]. tauto.
  - intros (Hc & Hs & Hlen).
    rewrite bool_decide_eq_true_2, Hs by done. cbn [negb orb].
    apply Nat.ltb_lt in Hlen. rewrite Hlen.
    destruct (check_flag artifacts_path "num_instances"); [|done].
    cbn [and_then].
    destruct (check_flag artifacts_path "base_instance_num");
      by rewrite <-?app_assoc, ?app_nil_r.
Qed.

End RewriterFacts.

(** ** Launching the device and rolling back *)

Section LaunchFacts.
Import start.
Context `{StartDeps}.



End LaunchFacts.

(** ** The HOME of the client *)

Section HomeFacts.
Import start.
Context `{StartDeps}.

Lemma normalize_home_tilde (request : Request) (envs : Envs)
    (given_home_dir : string) :
  envs !! "HOME" = Some given_home_dir →
  String.prefix "~" given_home_dir = true →
  normalize_home request envs = Err HomeStartsWithTilde.
Proof.
  intros Hhome Htilde. unfold normalize_home. rewrite Hhome.
  case_decide as Hempty; [by subst|]. by rewrite Htilde.
Qed.

End HomeFacts.

(** ** The daemon flag *)

Section DaemonFacts.
Import flag_parser start.

(** The setter on a match whose key differs from its value: it accepts
    exactly the values without a comma that are [y], [yes] or [true] up to
    case, and never writes a variable. *)
Lemma daemon_setter_value (key value : string) (vars : Vars) :
  key ≠ value →
  ok (daemon_setter (mkFlagMatch key value) vars).1
  = negb (contains "," value) && truthy value ∧
  (daemon_setter (mkFlagMatch key value) vars).2 = vars.
Proof.
  intros Hne. unfold daemon_setter. cbn [flag_parser.key flag_parser.value].
  case_decide; [done|].
  unfold bind at 1, CF_EXPECT at 1.
  destruct (contains "," value); [done|]. cbn [negb andb].
  fold (truthy value). destruct (truthy value); [done|].
  cbn [kValidFalseStrings for_each]. unfold bind, CF_EXPECT, ret, lift.
  by repeat (destruct (EqualsIgnoreCase _ value); cbn [negb]).
Qed.

(** [--daemon=<v>], for a value that is not the text of the alias itself:
    accepted exactly for the truthy values without a comma, and then
    replaced by [--daemon=true]. *)
Lemma normalize_daemon_value (value : string) :
  value ≠ "--daemon=" →
  ok (normalize_daemon ["--daemon=" +:+ value]).1
  = negb (contains "," value) && truthy value ∧
  (ok (normalize_daemon ["--daemon=" +:+ value]).1 = true →
   (normalize_daemon ["--daemon=" +:+ value]).2 = ["--daemon=true"]).
Proof.
  intros Hne.
  assert ("--daemon=" ≠ value) as Hne' by done.
  destruct (daemon_setter_value "--daemon=" value ∅ Hne') as [Hok Hvars].
  assert ("--daemon=" +:+ value
          = String "-" (String "-" (String "d" (String "a" (String "e"
              (String "m" (String "o" (String "n" (String "=" value)))))))))
    as -> by reflexivity.
  unfold normalize_daemon, ConsumeDaemonModeFlag, consume_flags, ConsumeFlags.
  cbn [for_each]. unfold bind, Parse, ret, modify.
  cbn [Parse_loop]. unfold Process. cbn.
  assert (String.prefix "" value = true) as -> by by destruct value.
  unfold bind, ret.
  destruct (daemon_setter _ _) as [[[]| |] vars'] eqn:Hset; cbn in *;
    rewrite <-Hok; done.
Qed.

End DaemonFacts.

(** ** The internal names of an instance *)

Section InternalNameFacts.

Lemma digit_value_pretty_N_char (d : N) :
  (d < 10)%N → digit_value (pretty_N_char d) = Some d.
Proof.
  intros Hd. destruct d as [|p]; [done|].
  do 4 (destruct p as [p|p|]; try done; try lia).
Qed.

Lemma decimal_value_from_pretty_N_go (x : N) :
  ∀ s, decimal_value_from 0 (pretty_N_go x s) = decimal_value_from x s.
Proof.
  induction x as [x IH] using (well_founded_induction N.lt_wf_0). intros s.
  destruct (decide (x = 0)%N) as [->|Hx]; [by rewrite pretty_N_go_0|].
  rewrite pretty_N_go_step by lia.
  rewrite IH by (apply N.div_lt; lia). cbn [decimal_value_from].
  rewrite digit_value_pretty_N_char by (apply N.mod_lt; lia).
  f_equal. rewrite (N.div_mod' x 10) at 3. lia.
Qed.

Lemma pretty_N_go_leading (x : N) :
  ∀ s, (0 < x)%N →
       ∃ c s', pretty_N_go x s = String c s' ∧ c ≠ "0"%char.
Proof.
  induction x as [x IH] using (well_founded_induction N.lt_wf_0).
  intros s Hx. rewrite pretty_N_go_step by done.
  destruct (decide (x `div` 10 = 0)%N) as [Hdiv|Hdiv].
  - rewrite Hdiv, pretty_N_go_0. do 2 eexists. split; [done|].
    intros Hchar. apply (pretty_N_char_inj _ 0) in Hchar;
      [|apply N.mod_lt; lia|lia].
    pose proof (N.div_mod' x 10). lia.
  - apply IH; [apply N.div_lt; lia|by apply N.neq_0_lt_0].
Qed.

(** [std::to_string] writes the canonical decimal numeral of its argument. *)
Lemma to_string_decimal (n : N) :
  decimal_value (to_string n) = Some n ∧ canonical_numeral (to_string n) = true.
Proof.
  unfold to_string, pretty, pretty_N. case_decide as Hn; [by subst|].
  destruct (pretty_N_go_leading n "") as (c & s & Hgo & Hc); [lia|].
  split.
  - unfold decimal_value. rewrite Hgo, <-Hgo.
    by rewrite decimal_value_from_pretty_N_go.
  - rewrite Hgo. cbn. rewrite (bool_decide_eq_false_2 (c = _)) by done.
    by rewrite orb_true_r.
Qed.

(** C10.  For the instance constructed with the id [n], [InternalName] is
    the decimal numeral of [n], and [InternalDeviceName] is the device-name
    rule applied to the internal group name and that numeral: it does not
    depend on the group name and the per-instance name the user chose. *)
Theorem InternalName_is_decimal_id
    (LocalDeviceNameRule : string → string → string)
    (n : N) (internal_group_name group_name instance_name : string) :
  let i := instance_db.make n internal_group_name group_name instance_name in
  instance_db.InternalName i = to_string n ∧
  decimal_value (instance_db.InternalName i) = Some n ∧
  canonical_numeral (instance_db.InternalName i) = true ∧
  instance_db.InternalDeviceName LocalDeviceNameRule i
  = LocalDeviceNameRule internal_group_name (to_string n) ∧
  ∀ group_name' instance_name',
    instance_db.InternalDeviceName LocalDeviceNameRule
      (instance_db.make n internal_group_name group_name' instance_name')
    = instance_db.InternalDeviceName LocalDeviceNameRule i.
Proof.
  cbv zeta. unfold instance_db.InternalName, instance_db.InternalDeviceName.
  cbn. destruct (to_string_decimal n) as [Hvalue Hcanonical]. by repeat split.
Qed.

End InternalNameFacts.

(** ** The start handler on the scenarios *)

Section Scenarios.
Import flag_parser start.

(** Scenario 4 of the design document. *)
Example child_failure_rollback :
  @LaunchDeviceInterruptible (scenario_deps child_fails) launch_command
    (plan_g [9%N]) (start_request [] "/h" WAIT_BEHAVIOR_COMPLETE) []
  = (Ok (CommandResponse INTERNAL "Exited with code 1"),
     [Call_SetInstanceGroup (plan_g [9%N]);
      Call_Setup launch_command;
      Call_AcloudCompatActions;
      Call_Wait;
      Call_ForcefullyStopGroup 9;
      Call_RemoveInstanceGroup "/h"]).
Proof. by vm_compute. Qed.


(** The theorem for the ids 2, 5, 7 and a client that passed
    [--num_instances=3]. *)
Lemma UpdateInstanceArgsAndEnvs_emits_witness :
  let deps := scenario_deps child_succeeds in
  let args := ["--num_instances=3"; "--cpus=4"] in
  let instances := map instance [2; 5; 7]%N in
  let ids := map instance_id_ instances in
  let vars : Vars := <["old_num_instances" := "3"]> ∅ in
  let stripped := ["--cpus=4"] in
  let result := @UpdateInstanceArgsAndEnvs deps args ∅ instances "/tools"
                  "cvd_internal_start" in
  instances ≠ [] ∧
  fits_unsigned ids ∧
  consume_flags instance_id_flags args = (Ok vars, stripped) ∧
  stripped `sublist_of` args ∧
  Forall (λ arg, is_instance_id_flag arg = false) stripped ∧
  ∃ mx mn,
    (mx ∈ ids) ∧ (mn ∈ ids) ∧ Forall (λ id, (mn ≤ id ≤ mx)%N) ids ∧
    let consecutive :=
      (Z.of_N mx - Z.of_N mn = Z.of_nat (length ids) - 1)%Z in
    (¬ (consecutive ∧ is_sorted ids = true) →
     result =
     if @check_flag deps "/tools" "instance_nums"
     then Ok (mkUpdatedArgsAndEnvs
                (stripped ++ ["--instance_nums=" +:+ Join ids ","]) ∅)
     else Err (FlagNotSupported "instance_nums")) ∧
    (consecutive ∧ is_sorted ids = true ∧ (1 < length ids)%nat →
     result =
     if @check_flag deps "/tools" "num_instances"
     then Ok (mkUpdatedArgsAndEnvs
                (stripped
                 ++ ["--num_instances=" +:+ to_string (N.of_nat (length ids))]
                 ++ (if @check_flag deps "/tools" "base_instance_num"
                     then ["--base_instance_num=" +:+ to_string mn]
                     else []))
                (<[kCuttlefishInstanceEnvVarName := to_string mn]> ∅))
     else Err (FlagNotSupported "num_instances")).
Proof.
  cbv zeta.
  assert (map instance [2; 5; 7]%N ≠ []) as Hne by done.
  assert (fits_unsigned (map instance_id_ (map instance [2; 5; 7]%N))) as Hfit.
  { split; [|vm_compute; discriminate]. repeat constructor. }
  assert (consume_flags instance_id_flags ["--num_instances=3"; "--cpus=4"]
          = (Ok (<["old_num_instances" := "3"]> ∅), ["--cpus=4"])) as Hconsume
    by (vm_compute; reflexivity).
  split; [exact Hne|]. split; [exact Hfit|]. split; [exact Hconsume|].
  exact (@UpdateInstanceArgsAndEnvs_emits (scenario_deps child_succeeds)
           ["--num_instances=3"; "--cpus=4"] ∅ (map instance [2; 5; 7]%N)
           "/tools" "cvd_internal_start" _ _ Hne Hfit Hconsume).
Defined.

(** L5 of the design document: the ids 2, 5, 7. *)
Example rewrite_2_5_7 :
  @UpdateInstanceArgsAndEnvs (scenario_deps child_succeeds)
    ["--num_instances=3"; "--cpus=4"] ∅ (map instance [2; 5; 7]%N)
    "/tools" "cvd_internal_start"
  = Ok (mkUpdatedArgsAndEnvs ["--cpus=4"; "--instance_nums=2,5,7"] ∅).
Proof. by vm_compute. Qed.

(** L4: the ids 5, 6, 7. *)
Example rewrite_5_6_7 :
  @UpdateInstanceArgsAndEnvs (scenario_deps child_succeeds)
    ["--instance_nums"; "1,2"; "--cpus=4"] ∅ (map instance [5; 6; 7]%N)
    "/tools" "cvd_internal_start"
  = Ok (mkUpdatedArgsAndEnvs
          ["--cpus=4"; "--num_instances=3"; "--base_instance_num=5"]
          (<["CUTTLEFISH_INSTANCE" := "5"]> ∅)).
Proof. by vm_compute. Qed.

(** L3: the single id 3. *)
Example rewrite_3 :
  @UpdateInstanceArgsAndEnvs (scenario_deps child_succeeds)
    [] ∅ (map instance [3]%N) "/tools" "cvd_internal_start"
  = Ok (mkUpdatedArgsAndEnvs ["--base_instance_num=3"]
          (<["CUTTLEFISH_INSTANCE" := "3"]> ∅)).
Proof. by vm_compute. Qed.

(** Sorted ids with a repetition count as a consecutive run. *)
Example rewrite_1_1_3 :
  @UpdateInstanceArgsAndEnvs (scenario_deps child_succeeds)
    [] ∅ (map instance [1; 1; 3]%N) "/tools" "cvd_internal_start"
  = Ok (mkUpdatedArgsAndEnvs ["--num_instances=3"; "--base_instance_num=1"]
          (<["CUTTLEFISH_INSTANCE" := "1"]> ∅)).
Proof. by vm_compute. Qed.

(** C3, counterexample.  With a launcher that accepts neither flag the
    rewriter emits nothing: for the ids 2, 5, 7, which are not a consecutive
    run, and for the ids 5, 6, 7, which are one, it returns an error. *)
Lemma UpdateInstanceArgsAndEnvs_counterexample :
  (7 - 2 ≠ 3 - 1)%Z ∧
  @UpdateInstanceArgsAndEnvs (scenario_deps with_old_launcher)
    [] ∅ (map instance [2; 5; 7]%N) "/tools" "cvd_internal_start"
  = Err (FlagNotSupported "instance_nums") ∧
  (7 - 5 = 3 - 1)%Z ∧ is_sorted [5; 6; 7]%N = true ∧
  @UpdateInstanceArgsAndEnvs (scenario_deps with_old_launcher)
    [] ∅ (map instance [5; 6; 7]%N) "/tools" "cvd_internal_start"
  = Err (FlagNotSupported "num_instances").
Proof. repeat split; by vm_compute. Qed.

(** C6, the code at the failing input.  The argument [--daemon=--daemon=]
    matches the prefix alias [--daemon=]; its value, [--daemon=], has no
    comma and is none of [y], [yes], [true]; the setter takes the match for
    an exact one, because key and value are equal, and accepts it. *)
Theorem daemon_value_equal_to_alias_is_accepted :
  String.prefix "--daemon=" "--daemon=--daemon=" = true ∧
  flag_parser.substr (String.length "--daemon=") "--daemon=--daemon="
  = "--daemon=" ∧
  contains "," "--daemon=" = false ∧
  truthy "--daemon=" = false ∧
  normalize_daemon ["--daemon=--daemon="] = (Ok tt, ["--daemon=true"]) ∧
  normalize_daemon ["-daemon=-daemon="] = (Ok tt, ["--daemon=true"]).
Proof. repeat split; by vm_compute. Qed.

(** The forms the daemon flag is documented with. *)
Example daemon_forms :
  (normalize_daemon ["--nodaemon"]).1 = Err NoDaemonNotSupported ∧
  (normalize_daemon ["-nodaemon"]).1 = Err NoDaemonNotSupported ∧
  normalize_daemon ["--daemon"; "--cpus=4"]
  = (Ok tt, ["--cpus=4"; "--daemon=true"]) ∧
  normalize_daemon ["--daemon=YES"] = (Ok tt, ["--daemon=true"]) ∧
  (normalize_daemon ["--daemon=no"]).1
  = Err (DaemonFalseNotSupported "--daemon=" "no") ∧
  (normalize_daemon ["--daemon=maybe"]).1
  = Err (InvalidDaemonOption "--daemon=" "maybe") ∧
  (normalize_daemon ["--daemon=y,es"]).1 = Err (DaemonValueHasComma "y,es") ∧
  normalize_daemon ["--cpus=4"] = (Ok tt, ["--cpus=4"; "--daemon=true"]).
Proof. repeat split; by vm_compute. Qed.

(** Scenario 6 of the design document. *)
Example tilde_home_rejected :
  @Handle (scenario_deps child_succeeds)
    (start_request [] "~/x" WAIT_BEHAVIOR_COMPLETE) []
  = (Err HomeStartsWithTilde, []).
Proof. by vm_compute. Qed.

(** Scenario 1 of the design document, with a relative HOME. *)
Example happy_start :
  @Handle (scenario_deps child_succeeds)
    (start_request [] "h" WAIT_BEHAVIOR_COMPLETE) []
  = (Ok (mkResponse true OK ""
           (Some (mkInstanceGroupInfo "g" ["/h"] [("cvd-9", 9%N)]))),
     [Call_HandleInterruptSignals;
      Call_SetInstanceGroup
        (mkGroupCreationInfo "/h" "/tools" "/out" "g" [instance 9]
           ["--daemon=true"; "--base_instance_num=9"; "--group_id=g"]
           (<[kCvdMarkEnv := "true"]>
              (<[kAndroidSoongHostOut := "/tools"]>
                 (<[kAndroidProductOut := "/out"]>
                    (<[kAndroidHostOut := "/tools"]>
                       (<["HOME" := "/h"]>
                          (<[kCuttlefishInstanceEnvVarName := "9"]>
                             (client_env "/work/h")))))))
           false);
      Call_Setup
        (mkConstructCommandParam "/tools/bin/cvd_internal_start" "/h"
           ["--daemon=true"; "--base_instance_num=9"; "--group_id=g"]
           (<[kCvdMarkEnv := "true"]>
              (<[kAndroidSoongHostOut := "/tools"]>
                 (<[kAndroidProductOut := "/out"]>
                    (<[kAndroidHostOut := "/tools"]>
                       (<["HOME" := "/h"]>
                          (<[kCuttlefishInstanceEnvVarName := "9"]>
                             (client_env "/work/h")))))))
           "/work" "cvd_internal_start");
      Call_AcloudCompatActions;
      Call_Wait;
      Call_MarkLockfilesInUse;
      Call_StopHandlingInterruptSignals;
      Call_WriteAll "{}"]).
Proof. by vm_compute. Qed.

(** C7, counterexample.  The request carries [--config_file]: the handler
    forwards a [load] request and returns its response; the HOME, which
    starts with [~], is never looked at. *)
Lemma Handle_home_counterexample :
  let request :=
    start_request ["--config_file=/x.json"] "~/x" WAIT_BEHAVIOR_COMPLETE in
  env request !! "HOME" = Some "~/x" ∧
  String.prefix "~" "~/x" = true ∧
  @Handle (scenario_deps child_succeeds) request []
  = (Ok (CommandResponse OK ""),
     [Call_ExecuteOne (CreateLoadCommand request [] "/x.json")]).
Proof. repeat split; by vm_compute. Qed.

End Scenarios.

(** * Further properties of the registry *)

(** ** Removing a group *)

Section RemoveFacts.

Lemma erase_first_spec (group_name : string) (groups : list InstanceGroup) :
  ((group_name ∉ map name groups) ∧
   erase_first group_name groups = (false, groups)) ∨
  (∃ before g after,
     groups = before ++ g :: after ∧ name g = group_name ∧
     (group_name ∉ map name before) ∧
     erase_first group_name groups = (true, before ++ after)).
Proof.
  induction groups as [|g groups IH].
  - left. split; [apply not_elem_of_nil|done].
  - cbn [erase_first]. case_decide as Hname.
    + right. exists [], g, groups. repeat split; try done.
      apply not_elem_of_nil.
    + destruct IH as [[Hnot ->]|(before & g' & after & -> & Hg' & Hnot & ->)].
      * left. split; [|done]. cbn. rewrite not_elem_of_cons.
        split; [congruence|done].
      * right. exists (g :: before), g', after. repeat split; try done.
        cbn. rewrite not_elem_of_cons. split; [congruence|done].
Qed.

(** X1.  [RemoveInstanceGroup] answers false and leaves the backing file as
    it is when no stored group has the name; otherwise it answers true and
    erases the first stored group of that name, and only that one: the
    groups before it and after it stay, in their order, and so does the
    acloud translator opt-out. *)
Theorem RemoveInstanceGroup_erases_first (group_name : string)
    (data : PersistentData) :
  ((group_name ∉ map name (instance_groups data)) ∧
   RemoveInstanceGroup group_name data = (Ok false, data)) ∨
  (∃ before g after,
     instance_groups data = before ++ g :: after ∧
     name g = group_name ∧
     (group_name ∉ map name before) ∧
     RemoveInstanceGroup group_name data
     = (Ok true, mkPersistentData (before ++ after)
                                  (acloud_translator_optout data))).
Proof.
  unfold RemoveInstanceGroup, WithExclusiveLock.
  destruct (erase_first_spec group_name (instance_groups data))
    as [[Hnot Herase]|(before & g & after & Hgroups & Hg & Hnot & Herase)];
    rewrite Herase.
  - left. split; [done|]. by destruct data.
  - right. by exists before, g, after.
Qed.

Lemma NoDup_app_drop_middle {A} (l1 l2 l3 : list A) :
  NoDup (l1 ++ l2 ++ l3) → NoDup (l1 ++ l3).
Proof.
  rewrite !NoDup_app. intros (H1 & Hdisj & _ & _ & H3).
  split; [done|]. split; [|done].
  intros x Hx Hx3. apply (Hdisj x Hx). apply elem_of_app. by right.
Qed.

(** X2.  [RemoveInstanceGroup] keeps the invariants of the registry: the
    groups it leaves are the stored groups without one of them, so unique
    (home, name) pairs (R1), unique instance ids (R2) and valid groups (R3)
    stay so; the number of groups drops by one exactly when the answer is
    true. *)
Theorem RemoveInstanceGroup_keeps_invariants `{RegistryDeps}
    (group_name : string) (data : PersistentData) :
  let data' := (RemoveInstanceGroup group_name data).2 in
  instance_groups data' `sublist_of` instance_groups data ∧
  (R1 data → R1 data') ∧ (R2 data → R2 data') ∧ (R3 data → R3 data') ∧
  length (instance_groups data)
  = (length (instance_groups data')
     + match (RemoveInstanceGroup group_name data).1 with
       | Ok true => 1
       | _ => 0
       end)%nat.
Proof.
  cbv zeta. unfold RemoveInstanceGroup, WithExclusiveLock.
  destruct (erase_first_spec group_name (instance_groups data))
    as [[_ ->]|(before & g & after & Hgroups & _ & _ & ->)]; cbn [fst snd].
  - split; [done|]. repeat split; try done.
  - cbn [instance_groups]. unfold R1, R2, R3, all_ids. rewrite Hgroups.
    cbn [instance_groups]. split; [|split; [|split; [|split]]].
    + apply sublist_app; [done|]. by apply sublist_cons.
    + rewrite !fmap_app, fmap_cons.
      apply (NoDup_app_drop_middle _ [_]).
    + rewrite !fmap_app, fmap_cons, !concat_app, concat_cons.
      apply NoDup_app_drop_middle.
    + rewrite !Forall_app, Forall_cons. tauto.
    + rewrite !length_app. cbn. lia.
Qed.

End RemoveFacts.

(** ** What a successful [AddInstanceGroup] has done *)

Section AddFacts.
Context `{RegistryDeps}.

(** The query by (home, group name), whatever is stored: when it returns, it
    returns the stored groups with that key. *)
Lemma FindGroups_loop_key_inv (groups : list InstanceGroup) (h n : string)
    (l : list LocalInstanceGroup) :
  FindGroups_loop groups (mkFindParam (Some h) None (Some n) None) = Ok l →
  l = map mkLocalInstanceGroup
        (filter (λ g, home_directory g = h ∧ name g = n) groups).
Proof.
  revert l. induction groups as [|g groups IH]; intros l.
  - cbn. by intros [= <-].
  - cbn [FindGroups_loop find_home find_group_name find_id find_instance_name
         set_and_differs].
    destruct (decide (h = home_directory g)) as [->|Hh].
    + rewrite bool_decide_eq_false_2 by tauto.
      destruct (decide (n = name g)) as [->|Hn].
      * rewrite bool_decide_eq_false_2 by tauto. unfold Create.
        destruct (ValidGroup g); [|done].
        destruct (FindGroups_loop groups _) as [l'| |] eqn:Hl; try done.
        cbn [push_back]. intros [= <-]. rewrite filter_cons_True by done.
        cbn [map]. f_equal. by apply IH.
      * rewrite bool_decide_eq_true_2 by done.
        rewrite filter_cons_False; [apply IH|]. intros [_ ?]; congruence.
    + rewrite bool_decide_eq_true_2 by done.
      rewrite filter_cons_False; [apply IH|]. intros [? _]; congruence.
Qed.

(** A query that names neither a home nor a group runs [Create] on every
    stored group: it returns only on a registry whose groups are valid. *)
Lemma FindInstances_loop_all_valid (groups : list InstanceGroup)
    (id : option N) (n : option string) (l : list LocalInstance) :
  FindInstances_loop groups (mkFindParam None id None n) = Ok l →
  Forall (λ g, ValidGroup g = true) groups.
Proof.
  revert l. induction groups as [|g groups IH]; intros l; [constructor|].
  cbn [FindInstances_loop find_home find_group_name set_and_differs].
  unfold Create. destruct (ValidGroup g) eqn:Hg; [|done].
  destruct (FindInstances_loop groups _) as [l'| |] eqn:Hl; try done.
  intros _. constructor; eauto.
Qed.

Lemma id_check_ok (i : Instance) (data data' : PersistentData) :
  id_check i data = (Ok tt, data') →
  data' = data ∧ R3 data ∧ (Instance_id i ∉ all_ids data).
Proof.
  unfold id_check, bind, get, lift, FindInstances.
  destruct (FindInstances_loop _ _) as [l| |] eqn:Hl; try done.
  pose proof (FindInstances_loop_all_valid _ _ _ _ Hl) as HR3.
  destruct (FindInstances_loop_id (instance_groups data) (Instance_id i) HR3)
    as (l' & Hl' & Hempty & _).
  rewrite Hl in Hl'. injection Hl' as <-.
  destruct l; [|done]. intros [= <-]. split; [done|]. split; [done|].
  by apply Hempty.
Qed.

Lemma id_checks_ok (insts : list Instance) (data data' : PersistentData) :
  for_each insts id_check data = (Ok tt, data') →
  data' = data ∧ Forall (λ i, Instance_id i ∉ all_ids data) insts ∧
  (insts ≠ [] → R3 data).
Proof.
  induction insts as [|i insts IH].
  - cbn. intros [= <-]. by split; [|split; [constructor|]].
  - cbn [for_each]. unfold bind at 1.
    destruct (id_check i data) as [[[]| |] data1] eqn:Hi; try done.
    apply id_check_ok in Hi as (-> & HR3 & Hi).
    intros (-> & Hall & _)%IH. split; [done|]. split; [by constructor|done].
Qed.

Lemma AddInstanceGroup_locked_ok (spec : InstanceGroup)
    (data data' : PersistentData) (g : LocalInstanceGroup) :
  AddInstanceGroup_locked spec data = (Ok g, data') →
  g = mkLocalInstanceGroup spec ∧
  data' = add_instance_groups spec data ∧
  ValidGroup spec = true ∧
  ¬ group_clash spec data ∧ ¬ id_clash spec data ∧
  (instances spec ≠ [] → R3 data).
Proof.
  unfold AddInstanceGroup_locked.
  run_bind (eq_refl : get data = (Ok data, data)).
  unfold bind at 1, lift at 1, FindGroups.
  destruct (FindGroups_loop _ _) as [l| |] eqn:Hfind; try done.
  apply FindGroups_loop_key_inv in Hfind.
  unfold bind at 1.
  destruct l as [|g0 l]; [|done]. unfold ret at 1.
  unfold bind at 1.
  destruct (for_each _ id_check data) as [[[]| |] data1] eqn:Hids; try done.
  apply id_checks_ok in Hids as (-> & Hids & HR3).
  unfold bind, modify, lift, Create.
  destruct (ValidGroup spec) eqn:Hvalid; [|done].
  intros [= <- <-]. split; [done|]. split; [done|]. split; [done|].
  split; [|split; [|done]].
  - unfold group_clash. intros (g0 & Hg0 & Hkey)%Exists_exists.
    assert (g0 ∈ filter (λ g, home_directory g = home_directory spec
                              ∧ name g = name spec) (instance_groups data))
      as Hin by by apply list_elem_of_filter.
    symmetry in Hfind. apply map_eq_nil in Hfind.
    rewrite Hfind in Hin. by apply elem_of_nil in Hin.
  - unfold id_clash, ids_of. rewrite Exists_fmap.
    intros (i & Hi & Hin)%Exists_exists.
    rewrite Forall_forall in Hids. by eapply Hids.
Qed.

Lemma for_each_names_ok {S} (insts : list Instance) (s s' : S) :
  for_each insts (λ instance_proto,
    CF_EXPECT (IsValidInstanceName (Instance_name instance_proto))
              (InvalidInstanceName (Instance_name instance_proto))) s
  = (Ok tt, s') →
  s' = s ∧ Forall (λ i, IsValidInstanceName (Instance_name i) = true) insts.
Proof.
  induction insts as [|i insts IH].
  - cbn. intros [= <-]. by split; [|constructor].
  - cbn [for_each]. unfold bind at 1, CF_EXPECT at 1.
    destruct (IsValidInstanceName (Instance_name i)) eqn:Hi; [|done].
    intros [-> Hall]%IH. split; [done|]. by constructor.
Qed.

Lemma AddInstanceGroup_ok_inv (spec : InstanceGroup) (w w' : World)
    (g : LocalInstanceGroup) :
  AddInstanceGroup spec w = (Ok g, w') →
  g = mkLocalInstanceGroup spec ∧
  backing_file w' = add_instance_groups spec (backing_file w) ∧
  (home_directory spec ∈ directories (fs w')) ∧
  passes_validation spec w ∧
  ¬ group_clash spec (backing_file w) ∧ ¬ id_clash spec (backing_file w) ∧
  (instances spec ≠ [] → R3 (backing_file w)).
Proof.
  unfold AddInstanceGroup, passes_validation.
  unfold bind at 1, CF_EXPECT at 1.
  destruct (IsValidGroupName (name spec)) eqn:Hname; [|done].
  unfold bind at 1, ensure_directory at 1.
  assert ((EnsureDirectoryExists (home_directory spec) (fs w)).1 = true →
          home_directory spec
          ∈ directories (EnsureDirectoryExists (home_directory spec) (fs w)).2)
    as Hdir.
  { unfold EnsureDirectoryExists. repeat case_decide; cbn; try done.
    intros _. set_solver. }
  destruct (EnsureDirectoryExists _ _) as [b fs'] eqn:Hensure.
  cbn [fst snd] in Hdir |- *.
  unfold bind at 1, CF_EXPECT at 1. destruct b; [|done].
  unfold bind at 1, get at 1. cbn [fs].
  unfold bind at 1, CF_EXPECT at 1.
  destruct (PotentiallyHostArtifactsPath _ _) eqn:Htools; [|done].
  unfold bind at 1.
  destruct (for_each _ _ _) as [[[]| |] w1] eqn:Hnames; try done.
  apply for_each_names_ok in Hnames as [-> Hnames].
  unfold on_file, WithExclusiveLock. cbn [backing_file fs].
  destruct (AddInstanceGroup_locked spec (backing_file w))
    as [[g'| |] data'] eqn:Hlocked; try done.
  apply AddInstanceGroup_locked_ok in Hlocked
    as (-> & -> & Hvalid & Hgroup & Hid & HR3).
  intros [= <- <-]. cbn [backing_file fs]. repeat split; try done.
  by apply Hdir.
Qed.

(** X3.  When [AddInstanceGroup] returns a group, every check has passed
    and nothing else has happened: the group returned wraps the proto that
    was given, the backing file is the old one with that proto appended, the
    home directory exists, no stored group had its (home, name) pair and no
    stored instance had one of its ids; and when the group has an instance,
    every stored group is valid (R3), or the id check would have aborted.
    Nothing is assumed of the registry or of the collaborators. *)
Theorem AddInstanceGroup_success (spec : InstanceGroup) (w : World)
    (g : LocalInstanceGroup) :
  (AddInstanceGroup spec w).1 = Ok g →
  g = mkLocalInstanceGroup spec ∧
  backing_file (AddInstanceGroup spec w).2
  = mkPersistentData (instance_groups (backing_file w) ++ [spec])
                     (acloud_translator_optout (backing_file w)) ∧
  (home_directory spec ∈ directories (fs (AddInstanceGroup spec w).2)) ∧
  passes_validation spec w ∧
  ¬ group_clash spec (backing_file w) ∧ ¬ id_clash spec (backing_file w) ∧
  (instances spec ≠ [] → R3 (backing_file w)).
Proof.
  destruct (AddInstanceGroup spec w) as [r w'] eqn:Hrun. cbn [fst snd].
  intros ->.
  apply AddInstanceGroup_ok_inv in Hrun
    as (Hg & Hfile & Hhome & Hpass & Hgroup & Hid & HR3).
  rewrite Hfile. unfold add_instance_groups. tauto.
Qed.

End AddFacts.

(** The group [g3] is added to the registry that holds [g1]. *)
Lemma AddInstanceGroup_success_witness :
  (@AddInstanceGroup reference_deps g3 world_g1).1
  = Ok (mkLocalInstanceGroup g3) ∧
  backing_file (@AddInstanceGroup reference_deps g3 world_g1).2
  = mkPersistentData (instance_groups registry_g1 ++ [g3])
                     (acloud_translator_optout registry_g1) ∧
  (home_directory g3
   ∈ directories (fs (@AddInstanceGroup reference_deps g3 world_g1).2)) ∧
  @passes_validation reference_deps g3 world_g1 ∧
  ¬ group_clash g3 registry_g1 ∧ ¬ id_clash g3 registry_g1 ∧
  (instances g3 ≠ [] → @R3 reference_deps registry_g1).
Proof.
  assert ((@AddInstanceGroup reference_deps g3 world_g1).1
          = Ok (mkLocalInstanceGroup g3)) as Hrun by (vm_compute; reflexivity).
  split; [exact Hrun|].
  exact (proj2 (@AddInstanceGroup_success reference_deps g3 world_g1 _ Hrun)).
Defined.

(** ** Adding a group, then removing it or looking it up *)

Section AddThenFacts.
Context `{RegistryDeps}.

Lemma erase_first_app (group_name : string) (l1 l2 : list InstanceGroup) :
  erase_first group_name (l1 ++ l2)
  = if (erase_first group_name l1).1
    then (true, (erase_first group_name l1).2 ++ l2)
    else ((erase_first group_name l2).1, l1 ++ (erase_first group_name l2).2).
Proof.
  induction l1 as [|g l1 IH]; cbn [app erase_first].
  - by destruct (erase_first group_name l2).
  - case_decide; [done|]. rewrite IH.
    destruct (erase_first group_name l1) as [[] l1'];
      destruct (erase_first group_name l2) as [b l2']; done.
Qed.

(** X4.  Removing by name a group that was just added.  When no stored
    group had that name the backing file is again what it was before the
    group was added.  When a stored group had the name (at another home, or
    the group would not have been added), the removal erases the first such
    group, stored earlier, and the group just added stays in the registry:
    the removal is by name and takes the first match. *)
Theorem AddInstanceGroup_then_RemoveInstanceGroup (spec : InstanceGroup)
    (w : World) (g : LocalInstanceGroup) :
  (AddInstanceGroup spec w).1 = Ok g →
  let file' := backing_file (AddInstanceGroup spec w).2 in
  ((name spec ∉ map name (instance_groups (backing_file w))) →
   RemoveInstanceGroup (name spec) file' = (Ok true, backing_file w)) ∧
  ((name spec ∈ map name (instance_groups (backing_file w))) →
   ∃ before old after,
     instance_groups (backing_file w) = before ++ old :: after ∧
     name old = name spec ∧
     home_directory old ≠ home_directory spec ∧
     (name spec ∉ map name before) ∧
     RemoveInstanceGroup (name spec) file'
     = (Ok true, mkPersistentData (before ++ after ++ [spec])
                   (acloud_translator_optout (backing_file w)))).
Proof.
  destruct (AddInstanceGroup spec w) as [r w'] eqn:Hrun. cbn [fst snd].
  intros ->. apply AddInstanceGroup_ok_inv in Hrun
    as (_ & Hfile & _ & _ & Hgroup & _ & _).
  cbv zeta. rewrite Hfile.
  unfold RemoveInstanceGroup, WithExclusiveLock, add_instance_groups.
  cbn [instance_groups acloud_translator_optout].
  rewrite erase_first_app.
  destruct (erase_first_spec (name spec) (instance_groups (backing_file w)))
    as [[Hnot ->]|(before & old & after & Hgroups & Hold & Hnot & ->)];
    cbn [fst snd].
  - split; [|done]. intros _. cbn [erase_first].
    rewrite decide_True by done. cbn. rewrite app_nil_r.
    by destruct (backing_file w).
  - split.
    { intros Hno. exfalso. apply Hno. rewrite Hgroups, fmap_app, fmap_cons.
      apply elem_of_app. right. rewrite Hold. by left. }
    intros _. exists before, old, after. repeat split; try done.
    + intros Hhome. apply Hgroup. unfold group_clash. rewrite Hgroups.
      apply Exists_app. right. by left.
    + by rewrite <-app_assoc.
Qed.

End AddThenFacts.

(** ** The query engine *)

Section QueryFacts.
Context `{RegistryDeps}.

Lemma empty_FindById (g : InstanceGroup) (id : N) :
  empty (FindById (mkLocalInstanceGroup g) id)
  = negb (bool_decide (id ∈ ids_of g)).
Proof.
  unfold FindById, Instances, ids_of. cbn [Proto].
  induction (instances g) as [|i l IH].
  - cbn. by rewrite bool_decide_eq_false_2 by apply not_elem_of_nil.
  - cbn [map]. rewrite filter_cons. cbn [InstanceId].
    destruct (decide (Instance_id i = id)) as [Hid|Hid].
    + cbn. rewrite bool_decide_eq_true_2; [done|]. subst. by left.
    + rewrite IH. f_equal. apply bool_decide_ext.
      rewrite elem_of_cons. intuition congruence.
Qed.

Lemma empty_FindByInstanceName (g : InstanceGroup) (n : string) :
  empty (FindByInstanceName (mkLocalInstanceGroup g) n)
  = negb (bool_decide (n ∈ map Instance_name (instances g))).
Proof.
  unfold FindByInstanceName, Instances. cbn [Proto].
  induction (instances g) as [|i l IH].
  - cbn. by rewrite bool_decide_eq_false_2 by apply not_elem_of_nil.
  - cbn [map]. rewrite filter_cons. cbn [PerInstanceName].
    destruct (decide (Instance_name i = n)) as [Hn|Hn].
    + cbn. rewrite bool_decide_eq_true_2; [done|]. subst. by left.
    + rewrite IH. f_equal. apply bool_decide_ext.
      rewrite elem_of_cons. intuition congruence.
Qed.

(** On valid groups the loop of [FindGroups] is a filter. *)
Lemma FindGroups_loop_selected (groups : list InstanceGroup)
    (param : FindParam) :
  Forall (λ g, ValidGroup g = true) groups →
  FindGroups_loop groups param
  = Ok (map mkLocalInstanceGroup
          (filter (λ g, group_selected param g) groups)).
Proof.
  induction 1 as [|g groups Hg _ IH]; [done|].
  cbn [FindGroups_loop]. rewrite IH. unfold Create. rewrite Hg.
  rewrite filter_cons.
  assert (group_selected param g
          = negb (set_and_differs (find_home param) (home_directory g))
            && negb (set_and_differs (find_group_name param) (name g))
            && match find_id param with
               | Some id => bool_decide (id ∈ ids_of g)
               | None => true
               end
            && match find_instance_name param with
               | Some n => bool_decide (n ∈ map Instance_name (instances g))
               | None => true
               end) as Hsel by reflexivity.
  destruct (group_selected param g);
    [rewrite decide_True by exact I|rewrite decide_False by (by intros [])];
    revert Hsel;
    (destruct (set_and_differs (find_home param) (home_directory g));
       cbn [negb andb]; [done|]);
    (destruct (set_and_differs (find_group_name param) (name g));
       cbn [negb andb]; [done|]);
    destruct (find_id param) as [id|];
    destruct (find_instance_name param) as [n|];
    rewrite ?empty_FindById, ?empty_FindByInstanceName;
    repeat (destruct (bool_decide _); cbn [negb andb]); done.
Qed.

Lemma matching_instances_of_selected (g : InstanceGroup) (param : FindParam) :
  matching_instances_of (mkLocalInstanceGroup g) param
  = map to_LocalInstance
        (filter (λ i, instance_selected param i) (instances g)).
Proof.
  unfold matching_instances_of, Instances. cbn [Proto].
  induction (instances g) as [|i l IH]; [done|].
  cbn [map]. rewrite !filter_cons, IH. cbn [InstanceId PerInstanceName].
  assert (instance_selected param i
          = negb (set_and_differs (find_id param) (Instance_id i))
            && negb (set_and_differs (find_instance_name param)
                                     (Instance_name i))) as Hsel
    by reflexivity.
  destruct (set_and_differs (find_id param) (Instance_id i));
    destruct (set_and_differs (find_instance_name param) (Instance_name i));
    cbn [negb andb] in Hsel; rewrite Hsel.
  - by rewrite !decide_False by (first [by intros [??]|by intros []]).
  - by rewrite !decide_False by (first [by intros [??]|by intros []]).
  - by rewrite !decide_False by (first [by intros [??]|by intros []]).
  - by rewrite !decide_True by (first [done|exact I]).
Qed.

(** On valid groups the loop of [FindInstances] collects, group by group in
    the stored order, the instances that satisfy the id and the instance
    name, from the groups with the home and the group name. *)
Lemma FindInstances_loop_selected (groups : list InstanceGroup)
    (param : FindParam) :
  Forall (λ g, ValidGroup g = true) groups →
  FindInstances_loop groups param
  = Ok (concat
          (map (λ g, map to_LocalInstance
                       (filter (λ i, instance_selected param i) (instances g)))
               (filter (λ g, group_in_scope param g) groups))).
Proof.
  induction 1 as [|g groups Hg _ IH]; [done|].
  cbn [FindInstances_loop]. rewrite IH. unfold Create. rewrite Hg.
  rewrite filter_cons.
  assert (group_in_scope param g
          = negb (set_and_differs (find_group_name param) (name g))
            && negb (set_and_differs (find_home param) (home_directory g)))
    as Hscope by reflexivity.
  destruct (set_and_differs (find_group_name param) (name g));
    [by rewrite Hscope, decide_False by (by intros [])|].
  destruct (set_and_differs (find_home param) (home_directory g));
    [by rewrite Hscope, decide_False by (by intros [])|].
  rewrite Hscope, decide_True by exact I.
  cbn [map concat]. by rewrite matching_instances_of_selected.
Qed.

End QueryFacts.

(** The group [g1_elsewhere] is added to the registry that holds [g1]: the
    two have the same name, and the removal by that name erases [g1]. *)
Lemma AddInstanceGroup_then_RemoveInstanceGroup_witness :
  (@AddInstanceGroup reference_deps g1_elsewhere world_g1).1
  = Ok (mkLocalInstanceGroup g1_elsewhere) ∧
  (name g1_elsewhere ∈ map name (instance_groups registry_g1)) ∧
  ∃ before old after,
    instance_groups registry_g1 = before ++ old :: after ∧
    name old = name g1_elsewhere ∧
    home_directory old ≠ home_directory g1_elsewhere ∧
    (name g1_elsewhere ∉ map name before) ∧
    RemoveInstanceGroup (name g1_elsewhere)
      (backing_file (@AddInstanceGroup reference_deps g1_elsewhere world_g1).2)
    = (Ok true, mkPersistentData (before ++ after ++ [g1_elsewhere])
                  (acloud_translator_optout registry_g1)).
Proof.
  assert ((@AddInstanceGroup reference_deps g1_elsewhere world_g1).1
          = Ok (mkLocalInstanceGroup g1_elsewhere)) as Hrun
    by (vm_compute; reflexivity).
  assert (name g1_elsewhere ∈ map name (instance_groups registry_g1)) as Hin
    by (left; reflexivity).
  split; [exact Hrun|]. split; [exact Hin|].
  exact (proj2 (@AddInstanceGroup_then_RemoveInstanceGroup reference_deps
                  g1_elsewhere world_g1 _ Hrun) Hin).
Defined.

Section QueryTheorems.
Context `{RegistryDeps}.

(** X5.  On a registry whose groups are valid (R3), [FindGroups] returns
    the stored groups that satisfy every criterion that is set (home
    directory, group name, some instance with the id, some instance with the
    name), each once and in the stored order; with no criterion set it
    returns what [InstanceGroups] returns. *)
Theorem FindGroups_selects (data : PersistentData) (param : FindParam) :
  R3 data →
  FindGroups data param
  = Ok (map mkLocalInstanceGroup
          (filter (λ g, group_selected param g) (instance_groups data))) ∧
  FindGroups data (mkFindParam None None None None) = (InstanceGroups data).1.
Proof.
  intros HR3. unfold FindGroups, InstanceGroups, WithSharedLock. cbn [fst].
  rewrite !FindGroups_loop_selected, collect_Create_valid by done.
  split; [done|]. do 2 f_equal.
  induction (instance_groups data) as [|g l IH]; [done|].
  rewrite filter_cons, decide_True by exact I. by rewrite IH.
Qed.

(** X6.  On a registry whose groups are valid (R3), [FindInstances]
    returns, group by group in the stored order, the instances that have the
    id and the instance name that are set, taken from the groups that have
    the home directory and the group name that are set. *)
Theorem FindInstances_selects (data : PersistentData) (param : FindParam) :
  R3 data →
  FindInstances data param
  = Ok (concat
          (map (λ g, map to_LocalInstance
                       (filter (λ i, instance_selected param i) (instances g)))
               (filter (λ g, group_in_scope param g) (instance_groups data)))).
Proof. intros HR3. by apply FindInstances_loop_selected. Qed.

End QueryTheorems.

Section QueryConsistency.
Context `{RegistryDeps}.

Lemma instance_selected_id (param : FindParam) (i : Instance) (id : N) :
  instance_selected param i = true → find_id param = Some id →
  Instance_id i = id.
Proof.
  unfold instance_selected. intros [Hid _]%andb_prop Hparam.
  rewrite Hparam in Hid. cbn in Hid.
  apply negb_true_iff, bool_decide_eq_false, dec_stable in Hid. done.
Qed.

Lemma instance_selected_name (param : FindParam) (i : Instance) (n : string) :
  instance_selected param i = true → find_instance_name param = Some n →
  Instance_name i = n.
Proof.
  unfold instance_selected. intros [_ Hn]%andb_prop Hparam.
  rewrite Hparam in Hn. cbn in Hn.
  apply negb_true_iff, bool_decide_eq_false, dec_stable in Hn. done.
Qed.

Lemma elem_of_concat {A} (x : A) (ls : list (list A)) :
  x ∈ concat ls ↔ ∃ l, l ∈ ls ∧ x ∈ l.
Proof.
  induction ls as [|l ls IH]; cbn [concat].
  - split; [by intros ?%elem_of_nil|by intros (? & ?%elem_of_nil & _)].
  - rewrite elem_of_app, IH. split.
    + intros [Hx|(l' & Hl' & Hx)]; [exists l; split; [by left|done]|].
      exists l'. split; [by right|done].
    + intros (l' & [->|Hl']%elem_of_cons & Hx); [by left|].
      right. by exists l'.
Qed.

(** X7.  [FindInstances] and [FindGroups] on the same parameters, on a
    registry whose groups are valid (R3).  Every instance [FindInstances]
    returns belongs to a group [FindGroups] returns.  The converse holds
    when the id or the instance name is not set: every group returned that
    has an instance at all has one among the instances returned.  (With both
    set, [FindGroups] asks for an instance with the id and an instance with
    the name, [FindInstances] for one instance with both.) *)
Theorem FindInstances_within_FindGroups (data : PersistentData)
    (param : FindParam) :
  R3 data →
  ∃ found_groups found_instances,
    FindGroups data param = Ok found_groups ∧
    FindInstances data param = Ok found_instances ∧
    (∀ i, i ∈ found_instances →
          ∃ g, g ∈ found_groups ∧ i ∈ Instances g) ∧
    (find_id param = None ∨ find_instance_name param = None →
     ∀ g, g ∈ found_groups → Instances g ≠ [] →
          ∃ i, i ∈ Instances g ∧ i ∈ found_instances).
Proof.
  intros HR3. unfold FindGroups, FindInstances.
  rewrite FindGroups_loop_selected, FindInstances_loop_selected by done.
  do 2 eexists. split; [done|]. split; [done|]. split.
  - intros i (l & Hl & Hi)%elem_of_concat.
    apply list_elem_of_fmap in Hl as (g & -> & Hg).
    apply list_elem_of_filter in Hg as [Hscope Hg].
    apply list_elem_of_fmap in Hi as (j & -> & Hj).
    apply list_elem_of_filter in Hj as [Hsel Hj].
    apply Is_true_true in Hsel, Hscope.
    exists (mkLocalInstanceGroup g). split.
    + apply list_elem_of_fmap_2, list_elem_of_filter. split; [|done].
      apply Is_true_true. unfold group_selected.
      unfold group_in_scope in Hscope.
      apply andb_prop in Hscope as [-> ->]. cbn [andb].
      apply andb_true_intro. split.
      * destruct (find_id param) as [id|] eqn:Hid; [|done].
        apply bool_decide_eq_true.
        rewrite <-(instance_selected_id _ _ _ Hsel Hid).
        unfold ids_of. by apply list_elem_of_fmap_2.
      * destruct (find_instance_name param) as [n|] eqn:Hn; [|done].
        apply bool_decide_eq_true.
        rewrite <-(instance_selected_name _ _ _ Hsel Hn).
        by apply list_elem_of_fmap_2.
    + unfold Instances. cbn [Proto].
      by apply (list_elem_of_fmap_2 to_LocalInstance).
  - intros Hunset g' Hg' Hne.
    apply list_elem_of_fmap in Hg' as (g & -> & Hg).
    apply list_elem_of_filter in Hg as [Hsel Hg].
    apply Is_true_true in Hsel. unfold group_selected in Hsel.
    apply andb_prop in Hsel as [Hsel Hname].
    apply andb_prop in Hsel as [Hsel Hid].
    apply andb_prop in Hsel as [Hhome Hgroup].
    assert (group_in_scope param g) as Hscope.
    { apply Is_true_true. unfold group_in_scope. by rewrite Hhome, Hgroup. }
    assert (∃ j, j ∈ instances g ∧ instance_selected param j = true)
      as (j & Hj & Hselj).
    { unfold instance_selected.
      destruct (find_id param) as [id|] eqn:Eid;
        destruct (find_instance_name param) as [n|] eqn:En.
      - by destruct Hunset.
      - apply bool_decide_eq_true in Hid. unfold ids_of in Hid.
        apply list_elem_of_fmap in Hid as (j & -> & Hj).
        exists j. split; [done|]. cbn.
        by rewrite bool_decide_eq_false_2 by tauto.
      - apply bool_decide_eq_true in Hname.
        apply list_elem_of_fmap in Hname as (j & -> & Hj).
        exists j. split; [done|]. cbn.
        by rewrite bool_decide_eq_false_2 by tauto.
      - unfold Instances in Hne. cbn [Proto] in Hne.
        destruct (instances g) as [|j l]; [done|].
        exists j. split; [by left|done]. }
    exists (to_LocalInstance j). split.
    + unfold Instances. cbn [Proto].
      by apply (list_elem_of_fmap_2 to_LocalInstance).
    + apply elem_of_concat. eexists. split.
      * apply list_elem_of_fmap_2, list_elem_of_filter. by split.
      * apply list_elem_of_fmap_2, list_elem_of_filter.
        split; [by apply Is_true_true|done].
Qed.

End QueryConsistency.

Section LookupById.
Context `{RegistryDeps}.

Lemma Ok_inj {A} (a b : A) : Ok a = Ok b → a = b.
Proof. by intros [=]. Qed.

Lemma filter_eq_nil_not_elem (id : N) (l : list N) :
  id ∉ l → filter (λ x, x = id) l = [].
Proof.
  induction l as [|x l IH]; [done|].
  rewrite not_elem_of_cons. intros [Hne Hl].
  rewrite filter_cons, decide_False by congruence. by apply IH.
Qed.

Lemma NoDup_filter_eq_length (id : N) (l : list N) :
  NoDup l → (length (filter (λ x, x = id) l) ≤ 1)%nat.
Proof.
  induction 1 as [|x l Hx _ IH]; [cbn; lia|].
  rewrite filter_cons. case_decide as Hid; [|done].
  subst. by rewrite filter_eq_nil_not_elem.
Qed.

Lemma instance_selected_by_id (id : N) (i : Instance) :
  instance_selected (mkFindParam None (Some id) None None) i
  ↔ Instance_id i = id.
Proof.
  unfold instance_selected.
  cbn [find_id find_instance_name set_and_differs negb andb].
  rewrite andb_true_r. case_bool_decide as Hb; cbn [negb].
  - split; [by intros []|congruence].
  - split; [intros _|done]. apply dec_stable. congruence.
Qed.

(** The ids of the instances the query by id collects are the stored ids
    equal to it. *)
Lemma selected_ids (groups : list InstanceGroup) (id : N) :
  map InstanceId
    (concat
       (map (λ g, map to_LocalInstance
                    (filter (λ i, instance_selected
                                    (mkFindParam None (Some id) None None) i)
                            (instances g)))
            groups))
  = filter (λ x, x = id) (concat (map ids_of groups)).
Proof.
  induction groups as [|g groups IH]; [done|].
  cbn [map concat]. rewrite List.map_app, filter_app, IH.
  f_equal. unfold ids_of.
  rewrite (list_filter_iff _ (λ i, Instance_id i = id))
    by apply instance_selected_by_id.
  induction (instances g) as [|i l IHl]; [done|].
  cbn [map]. rewrite !filter_cons.
  destruct (decide (Instance_id i = id)) as [Hid|Hid]; [|done].
  cbn [map InstanceId to_LocalInstance]. by rewrite IHl.
Qed.

(** A query that names neither a home nor a group looks at every group. *)
Lemma all_in_scope (groups : list InstanceGroup) (id : option N)
    (n : option string) :
  filter (λ g, group_in_scope (mkFindParam None id None n) g) groups = groups.
Proof.
  induction groups as [|g l IH]; [done|].
  rewrite filter_cons, decide_True by exact I. by rewrite IH.
Qed.

(** X8.  On a registry whose groups are valid (R3) and whose instance ids
    are unique (R2), the query by an id alone returns at most one instance:
    none when the id is not stored, and otherwise the one instance that has
    it. *)
Theorem FindInstances_by_id_unique (data : PersistentData) (id : N) :
  R3 data → R2 data →
  ∃ found,
    FindInstances data (mkFindParam None (Some id) None None) = Ok found ∧
    (length found ≤ 1)%nat ∧
    (found = [] ↔ id ∉ all_ids data) ∧
    Forall (λ i, InstanceId i = id) found.
Proof.
  intros HR3 HR2. unfold FindInstances.
  destruct (FindInstances_loop_id (instance_groups data) id HR3)
    as (found & Hfound & Hempty & Hall).
  exists found. split; [done|]. split; [|split; [|done]].
  - rewrite FindInstances_loop_selected in Hfound by done.
    apply Ok_inj in Hfound as <-.
    rewrite <-(length_map InstanceId).
    rewrite all_in_scope, selected_ids. by apply NoDup_filter_eq_length.
  - rewrite <-Hempty. by destruct found.
Qed.

End LookupById.

(** ** Looking up a group that was just added *)

Section AddThenFind.
Context `{RegistryDeps}.

Lemma FindGroups_loop_snoc_key (groups : list InstanceGroup)
    (spec : InstanceGroup) :
  ¬ group_clash spec (mkPersistentData groups false) →
  ValidGroup spec = true →
  FindGroups_loop (groups ++ [spec])
    (mkFindParam (Some (home_directory spec)) None (Some (name spec)) None)
  = Ok [mkLocalInstanceGroup spec].
Proof.
  unfold group_clash. cbn [instance_groups]. intros Hno Hvalid.
  induction groups as [|g groups IH];
    cbn [app FindGroups_loop find_home find_group_name find_id
         find_instance_name set_and_differs].
  - rewrite !bool_decide_eq_false_2 by tauto.
    unfold Create. by rewrite Hvalid.
  - rewrite Exists_cons in Hno.
    destruct (decide (home_directory spec = home_directory g)) as [Hh|Hh].
    + rewrite (bool_decide_eq_false_2 (home_directory spec ≠ _)) by tauto.
      rewrite (bool_decide_eq_true_2 (name spec ≠ _)).
      * apply IH. tauto.
      * intros Hn. apply Hno. left. by split.
    + rewrite (bool_decide_eq_true_2 (home_directory spec ≠ _)) by done.
      apply IH. tauto.
Qed.

Lemma FindById_to_LocalInstance (spec : InstanceGroup) (id : N) :
  map to_LocalInstance
      (filter (λ i, instance_selected (mkFindParam None (Some id) None None) i)
              (instances spec))
  = FindById (mkLocalInstanceGroup spec) id.
Proof.
  unfold FindById, Instances. cbn [Proto].
  rewrite (list_filter_iff _ (λ i, Instance_id i = id))
    by apply instance_selected_by_id.
  induction (instances spec) as [|i l IH]; [done|].
  cbn [map]. rewrite !filter_cons. cbn [InstanceId].
  destruct (decide (Instance_id i = id)); [|done].
  cbn [map]. by rewrite IH.
Qed.

Lemma collect_snoc {A B} (f : A → Result B) (l : list A) (x : A)
    (bs : list B) (b : B) :
  collect f l = Ok bs → f x = Ok b → collect f (l ++ [x]) = Ok (bs ++ [b]).
Proof.
  intros Hl Hx. revert bs Hl. induction l as [|y l IH]; intros bs.
  - cbn. intros [= <-]. by rewrite Hx.
  - cbn [app collect]. destruct (f y); [|done..].
    destruct (collect f l) as [bs'| |]; [|done..].
    intros [= <-]. by rewrite (IH bs').
Qed.

(** X9.  After [AddInstanceGroup] has returned a group, the registry is not
    empty, the query by the home directory and the name of the group finds
    exactly that group, the query by the id of any of its instances returns
    the instances of that group with the id and none of another group, and
    [InstanceGroups] lists the groups it listed before followed by the new
    one. *)
Theorem AddInstanceGroup_then_lookup (spec : InstanceGroup) (w : World)
    (g : LocalInstanceGroup) :
  (AddInstanceGroup spec w).1 = Ok g →
  let file' := backing_file (AddInstanceGroup spec w).2 in
  (IsEmpty file').1 = Ok false ∧
  FindGroups file'
    (mkFindParam (Some (home_directory spec)) None (Some (name spec)) None)
  = Ok [g] ∧
  (∀ i, i ∈ instances spec →
        FindInstances file' (mkFindParam None (Some (Instance_id i)) None None)
        = Ok (FindById g (Instance_id i))) ∧
  (∀ groups, (InstanceGroups (backing_file w)).1 = Ok groups →
             (InstanceGroups file').1 = Ok (groups ++ [g])).
Proof.
  destruct (AddInstanceGroup spec w) as [r w'] eqn:Hrun. cbn [fst snd].
  intros ->. apply AddInstanceGroup_ok_inv in Hrun
    as (-> & Hfile & _ & (_ & _ & _ & _ & Hvalid) & Hgroup & Hid & HR3).
  cbv zeta. rewrite Hfile.
  unfold IsEmpty, FindGroups, FindInstances, InstanceGroups, WithSharedLock,
    add_instance_groups.
  cbn [fst instance_groups]. split; [|split; [|split]].
  - by destruct (instance_groups (backing_file w)).
  - apply FindGroups_loop_snoc_key; [|done].
    by destruct (backing_file w).
  - intros i Hi.
    assert (R3 (backing_file w)) as Hstored
      by (apply HR3; intros Hnil; rewrite Hnil in Hi; by apply elem_of_nil in Hi).
    rewrite FindInstances_loop_selected, all_in_scope
      by (apply Forall_app; split; [done|by constructor]).
    rewrite List.map_app, concat_app. cbn [map concat].
    rewrite app_nil_r, FindById_to_LocalInstance.
    assert (concat
              (map (λ g, map to_LocalInstance
                       (filter (λ j, instance_selected
                                       (mkFindParam None (Some (Instance_id i))
                                                    None None) j)
                               (instances g)))
                   (instance_groups (backing_file w))) = []) as ->; [|done].
    apply (map_eq_nil InstanceId). rewrite selected_ids.
    apply filter_eq_nil_not_elem. intros Hin. apply Hid.
    unfold id_clash. apply Exists_exists. exists (Instance_id i).
    split; [|done]. unfold ids_of. by apply list_elem_of_fmap_2.
  - intros groups Hgroups. apply collect_snoc; [done|].
    unfold Create. by rewrite Hvalid.
Qed.

End AddThenFind.

(** The lookups after [g3] was added to the registry that holds [g1]. *)
Lemma AddInstanceGroup_then_lookup_witness :
  (@AddInstanceGroup reference_deps g3 world_g1).1
  = Ok (mkLocalInstanceGroup g3) ∧
  let file' := backing_file (@AddInstanceGroup reference_deps g3 world_g1).2 in
  (IsEmpty file').1 = Ok false ∧
  @FindGroups reference_deps file'
    (mkFindParam (Some (home_directory g3)) None (Some (name g3)) None)
  = Ok [mkLocalInstanceGroup g3] ∧
  (∀ i, i ∈ instances g3 →
        @FindInstances reference_deps file'
          (mkFindParam None (Some (Instance_id i)) None None)
        = Ok (FindById (mkLocalInstanceGroup g3) (Instance_id i))) ∧
  (∀ groups, (@InstanceGroups reference_deps (backing_file world_g1)).1
             = Ok groups →
             (@InstanceGroups reference_deps file').1
             = Ok (groups ++ [mkLocalInstanceGroup g3])).
Proof.
  assert ((@AddInstanceGroup reference_deps g3 world_g1).1
          = Ok (mkLocalInstanceGroup g3)) as Hrun by (vm_compute; reflexivity).
  split; [exact Hrun|].
  exact (@AddInstanceGroup_then_lookup reference_deps g3 world_g1 _ Hrun).
Defined.

(** The query theorems on the registry that holds [g1] and [g3]. *)
Lemma FindGroups_selects_witness :
  @R3 reference_deps registry_g1_g3 ∧
  @FindGroups reference_deps registry_g1_g3
    (mkFindParam (Some "/h") (Some 3%N) None None)
  = Ok (map mkLocalInstanceGroup
          (filter (λ g, group_selected
                          (mkFindParam (Some "/h") (Some 3%N) None None) g)
                  (instance_groups registry_g1_g3))) ∧
  @FindGroups reference_deps registry_g1_g3 (mkFindParam None None None None)
  = (@InstanceGroups reference_deps registry_g1_g3).1.
Proof.
  assert (@R3 reference_deps registry_g1_g3) as HR3 by (repeat constructor).
  split; [exact HR3|].
  exact (@FindGroups_selects reference_deps registry_g1_g3
           (mkFindParam (Some "/h") (Some 3%N) None None) HR3).
Defined.

Lemma FindInstances_selects_witness :
  @R3 reference_deps registry_g1_g3 ∧
  @FindInstances reference_deps registry_g1_g3
    (mkFindParam (Some "/h") None None (Some "a"))
  = Ok (concat
          (map (λ g, map to_LocalInstance
                       (filter (λ i, instance_selected
                                       (mkFindParam (Some "/h") None None
                                                    (Some "a")) i)
                               (instances g)))
               (filter (λ g, group_in_scope
                               (mkFindParam (Some "/h") None None (Some "a")) g)
                       (instance_groups registry_g1_g3)))).
Proof.
  assert (@R3 reference_deps registry_g1_g3) as HR3 by (repeat constructor).
  split; [exact HR3|].
  exact (@FindInstances_selects reference_deps registry_g1_g3
           (mkFindParam (Some "/h") None None (Some "a")) HR3).
Defined.

Lemma FindInstances_within_FindGroups_witness :
  @R3 reference_deps registry_g1_g3 ∧
  ∃ found_groups found_instances,
    @FindGroups reference_deps registry_g1_g3
      (mkFindParam None (Some 3%N) None None) = Ok found_groups ∧
    @FindInstances reference_deps registry_g1_g3
      (mkFindParam None (Some 3%N) None None) = Ok found_instances ∧
    (∀ i, i ∈ found_instances →
          ∃ g, g ∈ found_groups ∧ i ∈ Instances g) ∧
    (find_id (mkFindParam None (Some 3%N) None None) = None
     ∨ find_instance_name (mkFindParam None (Some 3%N) None None) = None →
     ∀ g, g ∈ found_groups → Instances g ≠ [] →
          ∃ i, i ∈ Instances g ∧ i ∈ found_instances).
Proof.
  assert (@R3 reference_deps registry_g1_g3) as HR3 by (repeat constructor).
  split; [exact HR3|].
  exact (@FindInstances_within_FindGroups reference_deps registry_g1_g3
           (mkFindParam None (Some 3%N) None None) HR3).
Defined.

Lemma FindInstances_by_id_unique_witness :
  @R3 reference_deps registry_g1_g3 ∧ R2 registry_g1_g3 ∧
  ∃ found,
    @FindInstances reference_deps registry_g1_g3
      (mkFindParam None (Some 3%N) None None) = Ok found ∧
    (length found ≤ 1)%nat ∧
    (found = [] ↔ 3%N ∉ all_ids registry_g1_g3) ∧
    Forall (λ i, InstanceId i = 3%N) found.
Proof.
  assert (@R3 reference_deps registry_g1_g3) as HR3 by (repeat constructor).
  assert (R2 registry_g1_g3) as HR2.
  { unfold R2. by_evaluation. }
  split; [exact HR3|]. split; [exact HR2|].
  exact (@FindInstances_by_id_unique reference_deps registry_g1_g3 3%N HR3 HR2).
Defined.

(** ** All or nothing *)

Section AllOrNothing.
Context `{RegistryDeps}.

Lemma collect_Create_outcome (groups : list InstanceGroup) :
  (Forall (λ g, ValidGroup g = true) groups ∧
   collect Create groups = Ok (map mkLocalInstanceGroup groups)) ∨
  (¬ Forall (λ g, ValidGroup g = true) groups ∧
   collect Create groups = Err GroupValidationFailed).
Proof.
  induction groups as [|g groups IH].
  - left. by split; [constructor|].
  - cbn [collect]. unfold Create at 1 3.
    destruct (ValidGroup g) eqn:Hg.
    + destruct IH as [[Hall ->]|[Hnot ->]].
      * left. by split; [constructor|].
      * right. split; [|done]. by intros [_ ?]%Forall_cons.
    + right. split; [|done]. intros [? _]%Forall_cons. congruence.
Qed.

(** X10.  [Clear] empties the registry or leaves it alone.  On a registry
    whose groups are all valid it returns them, in the stored order, and the
    backing file keeps nothing but the acloud translator opt-out.  When a
    stored group fails the validation of [Create], [Clear] returns that
    error and the backing file is what it was: nothing is removed. *)
Theorem Clear_all_or_nothing (data : PersistentData) :
  (R3 data ∧
   Clear data = (Ok (map mkLocalInstanceGroup (instance_groups data)),
                 clear_instance_groups data)) ∨
  (¬ R3 data ∧ Clear data = (Err GroupValidationFailed, data)).
Proof.
  unfold Clear, WithExclusiveLock, R3.
  unfold bind, get, modify, lift.
  destruct (collect_Create_outcome (instance_groups data))
    as [[Hall ->]|[Hnot ->]]; [left|right]; done.
Qed.

(** X11.  [LoadFromJson] appends every group of the blob or none.  When it
    returns success, the value under the key [Groups] is an array, every
    element of it was deserialized, and the backing file is the old one
    followed by those groups, in the order of the array; on every other
    outcome the backing file is what it was, also when only the last
    element fails to deserialize. *)
Theorem LoadFromJson_all_or_nothing (db_json : Json) (data : PersistentData) :
  match (LoadFromJson db_json data).1 with
  | Ok _ =>
      ∃ elements new_groups,
        json_index db_json kJsonGroups = JArray elements ∧
        collect Deserialize elements = Ok new_groups ∧
        (LoadFromJson db_json data).2
        = mkPersistentData (instance_groups data ++ map Proto new_groups)
                           (acloud_translator_optout data)
  | _ => (LoadFromJson db_json data).2 = data
  end.
Proof.
  destruct (LoadFromJson db_json data) as [r data'] eqn:Hrun.
  cbn [fst snd]. revert Hrun.
  unfold LoadFromJson. unfold bind at 1, lift at 1.
  destruct (isMember db_json kJsonGroups) as [is_member| |];
    [|by intros [= <- <-]..].
  unfold bind at 1, CF_EXPECT at 1.
  destruct is_member; [|by intros [= <- <-]].
  unfold bind at 1, CF_EXPECT at 1.
  destruct (json_index db_json kJsonGroups) as [| | | |elements|] eqn:Hindex;
    try (by intros [= <- <-]).
  cbn [isArray json_elements]. unfold bind at 1, lift at 1.
  destruct (collect Deserialize elements) as [new_groups| |] eqn:Hparsed;
    [|by intros [= <- <-]..].
  unfold WithExclusiveLock. rewrite load_loop. intros [= <- <-].
  by exists elements, new_groups.
Qed.

End AllOrNothing.

(** ** The acloud translator opt-out *)

Section OptoutFacts.
Context `{RegistryDeps}.

(** The backing file after [AddInstanceGroup]: the proto appended when a
    group is returned, and on every other outcome the file as it was. *)
Lemma AddInstanceGroup_file (spec : InstanceGroup) (w : World) :
  backing_file (AddInstanceGroup spec w).2
  = if ok (AddInstanceGroup spec w).1
    then add_instance_groups spec (backing_file w)
    else backing_file w.
Proof.
  destruct (AddInstanceGroup spec w) as [r w'] eqn:Hrun. cbn [fst snd].
  destruct r as [g| |]; cbn [ok].
  { by apply AddInstanceGroup_ok_inv in Hrun as (_ & -> & _). }
  all: revert Hrun; unfold AddInstanceGroup;
    unfold bind at 1, CF_EXPECT at 1;
    (destruct (IsValidGroupName (name spec)); [|intros ?; by simplify_eq]);
    unfold bind at 1, ensure_directory at 1;
    destruct (EnsureDirectoryExists _ _) as [b fs'];
    unfold bind at 1, CF_EXPECT at 1;
    (destruct b; [|intros ?; by simplify_eq]);
    unfold bind at 1, get at 1; cbn [fs];
    unfold bind at 1, CF_EXPECT at 1;
    (destruct (PotentiallyHostArtifactsPath _ _); [|intros ?; by simplify_eq]);
    unfold bind at 1;
    pose proof (for_each_read_only (instances spec)
      (λ instance_proto,
         CF_EXPECT (IsValidInstanceName (Instance_name instance_proto))
                   (InvalidInstanceName (Instance_name instance_proto)))
      (mkWorld fs' (backing_file w))) as Hloop;
    destruct (for_each _ _ _) as [r1 w1]; cbn in Hloop;
    rewrite Hloop by (intros x s; unfold CF_EXPECT; done);
    (destruct r1 as [[]| |]; [|intros ?; by simplify_eq..]);
    unfold on_file, WithExclusiveLock; cbn [backing_file fs];
    destruct (AddInstanceGroup_locked spec (backing_file w)) as [[?| |] ?];
    intros ?; by simplify_eq.
Qed.

(** [LoadFromJson] keeps the opt-out. *)
Lemma LoadFromJson_optout (db_json : Json) (data : PersistentData) :
  acloud_translator_optout (LoadFromJson db_json data).2
  = acloud_translator_optout data.
Proof.
  unfold LoadFromJson. unfold bind at 1, lift at 1.
  destruct (isMember db_json kJsonGroups) as [is_member| |]; [|done..].
  unfold bind at 1, CF_EXPECT at 1. destruct is_member; [|done].
  unfold bind at 1, CF_EXPECT at 1.
  destruct (isArray (json_index db_json kJsonGroups)); [|done].
  unfold bind at 1, lift at 1.
  destruct (collect Deserialize _) as [new_groups| |]; [|done..].
  unfold WithExclusiveLock. by rewrite load_loop.
Qed.

(** X12.  The acloud translator opt-out and the groups do not touch each
    other.  [GetAcloudTranslatorOptout] returns what
    [SetAcloudTranslatorOptout] stored last, and storing it leaves the
    groups as they are; [Clear], [RemoveInstanceGroup], [LoadFromJson] and
    [AddInstanceGroup] keep the opt-out, whatever they return. *)
Theorem acloud_translator_optout_frame (optout : bool) (data : PersistentData) :
  SetAcloudTranslatorOptout optout data
  = (Ok tt, mkPersistentData (instance_groups data) optout) ∧
  (GetAcloudTranslatorOptout (SetAcloudTranslatorOptout optout data).2).1
  = Ok optout ∧
  acloud_translator_optout (Clear data).2 = acloud_translator_optout data ∧
  (∀ group_name,
     acloud_translator_optout (RemoveInstanceGroup group_name data).2
     = acloud_translator_optout data) ∧
  (∀ db_json,
     acloud_translator_optout (LoadFromJson db_json data).2
     = acloud_translator_optout data) ∧
  (∀ spec fs,
     acloud_translator_optout
       (backing_file (AddInstanceGroup spec (mkWorld fs data)).2)
     = acloud_translator_optout data).
Proof.
  split; [done|]. split; [done|]. split; [|split; [|split]].
  - unfold Clear, WithExclusiveLock, bind, get, modify, lift.
    by destruct (collect_Create_outcome (instance_groups data))
      as [[_ ->]|[_ ->]].
  - intros group_name. unfold RemoveInstanceGroup, WithExclusiveLock.
    by destruct (erase_first group_name (instance_groups data)).
  - intros db_json. apply LoadFromJson_optout.
  - intros spec fs. rewrite AddInstanceGroup_file.
    by destruct (ok _).
Qed.

End OptoutFacts.

(** * Further properties of the start handler *)

(** ** The environment and the arguments of the launcher *)

Section EnvironmentFacts.
Import flag_parser start.
Context `{StartDeps}.

(** Two names of environment variables differ. *)
Ltac env_ne :=
  let Heq := fresh in intros Heq; compute in Heq; discriminate Heq.

(** The instance rewriter touches one variable of the environment. *)
Lemma UpdateInstanceArgsAndEnvs_envs (args : Args) (envs : Envs)
    (instances : list PerInstanceInfo) (artifacts_path start_bin : string)
    (updated : UpdatedArgsAndEnvs) :
  UpdateInstanceArgsAndEnvs args envs instances artifacts_path start_bin
  = Ok updated →
  ∀ k, k ≠ kCuttlefishInstanceEnvVarName →
       updated_envs updated !! k = envs !! k.
Proof.
  unfold UpdateInstanceArgsAndEnvs.
  destruct (consume_flags instance_id_flags args) as [[vars| |] new_args];
    [|done..].
  destruct (max_element _) as [mx|]; [|done].
  destruct (min_element _) as [mn|]; [|done].
  cbv zeta. destruct (negb _ || negb _).
  - destruct (check_flag artifacts_path "instance_nums"); [|done].
    by intros [= <-].
  - destruct (1 <? length _)%nat;
      [destruct (check_flag artifacts_path "num_instances"); [|done]|];
      cbn [and_then]; intros [= <-] k Hk; cbn [updated_envs];
      by apply lookup_insert_ne.
Qed.

(** X13.  The launcher environment [UpdateArgsAndEnvs] builds.  It fails
    exactly when the instance rewriter fails.  Otherwise HOME is the home
    of the group, ANDROID_HOST_OUT and ANDROID_SOONG_HOST_OUT are its host
    artifacts path, ANDROID_PRODUCT_OUT its product out path and the cvd
    mark is [true], whatever the client had set for them; every other
    variable, CUTTLEFISH_INSTANCE apart, is the one of the group plan; the
    plan is otherwise unchanged, and [--group_id=<group name>] is appended
    to the rewritten arguments exactly when the launcher knows the flag. *)
Theorem UpdateArgsAndEnvs_environment (old_group_info : GroupCreationInfo)
    (start_bin : string) :
  match UpdateArgsAndEnvs old_group_info start_bin with
  | Ok info =>
      envs info !! "HOME" = Some (home old_group_info) ∧
      envs info !! kAndroidHostOut = Some (host_artifacts_path old_group_info) ∧
      envs info !! kAndroidSoongHostOut
      = Some (host_artifacts_path old_group_info) ∧
      envs info !! kAndroidProductOut = Some (product_out_path old_group_info) ∧
      envs info !! kCvdMarkEnv = Some "true" ∧
      (∀ k, k ∉ ["HOME"; kAndroidHostOut; kAndroidSoongHostOut;
                 kAndroidProductOut; kCvdMarkEnv;
                 kCuttlefishInstanceEnvVarName] →
            envs info !! k = envs old_group_info !! k) ∧
      (home info, host_artifacts_path info, product_out_path info,
       group_name info, instances info, is_default_group info)
      = (home old_group_info, host_artifacts_path old_group_info,
         product_out_path old_group_info, group_name old_group_info,
         instances old_group_info, is_default_group old_group_info) ∧
      ∃ updated,
        UpdateInstanceArgsAndEnvs (args old_group_info) (envs old_group_info)
          (instances old_group_info) (host_artifacts_path old_group_info)
          start_bin = Ok updated ∧
        args info
        = updated_args updated
          ++ (if ReadFlag (host_artifacts_path old_group_info) "start"
                          "group_id"
              then ["--group_id=" +:+ group_name old_group_info]
              else [])
  | Err e =>
      UpdateInstanceArgsAndEnvs (args old_group_info) (envs old_group_info)
        (instances old_group_info) (host_artifacts_path old_group_info)
        start_bin = Err e
  | Abort =>
      UpdateInstanceArgsAndEnvs (args old_group_info) (envs old_group_info)
        (instances old_group_info) (host_artifacts_path old_group_info)
        start_bin = Abort
  end.
Proof.
  unfold UpdateArgsAndEnvs.
  destruct (UpdateInstanceArgsAndEnvs _ _ _ _ _) as [updated| |] eqn:Hinner;
    [|done..].
  pose proof (UpdateInstanceArgsAndEnvs_envs _ _ _ _ _ _ Hinner) as Hframe.
  cbn [and_then envs home host_artifacts_path product_out_path group_name
       instances is_default_group args].
  unfold Envs in *.
  do 5 (split; [rewrite ?lookup_insert_ne by env_ne; apply lookup_insert_eq|]).
  split; [|split; [done|]].
  - intros k Hk. rewrite !not_elem_of_cons in Hk.
    destruct Hk as (? & ? & ? & ? & ? & ? & _).
    rewrite !lookup_insert_ne by done. by apply Hframe.
  - exists updated. split; [done|].
    destruct (ReadFlag _ _ _); [done|by rewrite app_nil_r].
Qed.

End EnvironmentFacts.

(** ** The instance ids and the flags that stand for them *)

Section InstanceIdFacts.
Import flag_parser start.
Context `{StartDeps}.

(** X14.  For a group of one instance, once the instance-id flags of the
    client are parsed and stripped, the rewriter does not fail: it never
    asks the launcher for [instance_nums] or [num_instances] and emits
    neither, it appends [--base_instance_num=<id>] exactly when the launcher
    knows that flag, and it sets [CUTTLEFISH_INSTANCE=<id>]. *)
Theorem UpdateInstanceArgsAndEnvs_single (args : Args) (envs : Envs)
    (instance : PerInstanceInfo) (artifacts_path start_bin : string)
    (vars : Vars) (stripped : Args) :
  consume_flags instance_id_flags args = (Ok vars, stripped) →
  UpdateInstanceArgsAndEnvs args envs [instance] artifacts_path start_bin
  = Ok (mkUpdatedArgsAndEnvs
          (stripped
           ++ if check_flag artifacts_path "base_instance_num"
              then ["--base_instance_num=" +:+ to_string (instance_id_ instance)]
              else [])
          (<[kCuttlefishInstanceEnvVarName := to_string (instance_id_ instance)]>
             envs)).
Proof.
  intros Hconsume. unfold UpdateInstanceArgsAndEnvs. rewrite Hconsume.
  cbn [map max_element min_element fold_left length is_sorted].
  rewrite Z.sub_diag. cbn [negb orb Nat.ltb Nat.leb and_then].
  change (unsigned 0 =? size_t (Z.of_nat 1 - 1))%Z with true.
  cbn [negb orb and_then].
  destruct (check_flag artifacts_path "base_instance_num");
    [done|by rewrite app_nil_r].
Qed.

(** The run of [n] ids from [base] on. *)
Lemma run_S (base : N) (n : nat) :
  map (λ k, (base + N.of_nat k)%N) (seq 0 (S n))
  = base :: map (λ k, (base + 1 + N.of_nat k)%N) (seq 0 n).
Proof.
  cbn [seq map]. rewrite N.add_0_r. f_equal.
  rewrite <-seq_shift, List.map_map. apply List.map_ext. intros k. lia.
Qed.

(** In a sorted list without repetition the element [k] places after the
    first one is at least [k] above it. *)
Lemma sorted_nodup_bound (x : N) (l : list N) (bound : N) :
  is_sorted (x :: l) = true → NoDup (x :: l) →
  Forall (λ y, (y ≤ bound)%N) (x :: l) →
  (x + N.of_nat (length l) ≤ bound)%N.
Proof.
  revert x. induction l as [|y l IH]; intros x Hsorted Hnodup Hbound.
  - apply Forall_cons in Hbound as [Hx _]. cbn. lia.
  - cbn [is_sorted] in Hsorted.
    apply andb_prop in Hsorted as [Hxy%N.leb_le Hsorted].
    apply NoDup_cons in Hnodup as [Hx Hnodup].
    apply Forall_cons in Hbound as [_ Hbound].
    specialize (IH y Hsorted Hnodup Hbound).
    assert (x ≠ y) by (intros ->; apply Hx; by left).
    cbn [length]. lia.
Qed.

Lemma sorted_nodup_run (x : N) (l : list N) (mx : N) :
  is_sorted (x :: l) = true → NoDup (x :: l) →
  Forall (λ y, (y ≤ mx)%N) (x :: l) →
  mx = (x + N.of_nat (length l))%N →
  x :: l = map (λ k, (x + N.of_nat k)%N) (seq 0 (S (length l))).
Proof.
  revert x. induction l as [|y l IH]; intros x Hsorted Hnodup Hbound Hmx.
  - cbn. by rewrite N.add_0_r.
  - rewrite run_S. f_equal.
    pose proof Hsorted as Hsorted'. cbn [is_sorted] in Hsorted'.
    apply andb_prop in Hsorted' as [Hxy%N.leb_le Hsorted'].
    pose proof Hnodup as Hnodup'.
    apply NoDup_cons in Hnodup' as [Hx Hnodup'].
    pose proof Hbound as Hbound'.
    apply Forall_cons in Hbound' as [_ Hbound'].
    pose proof (sorted_nodup_bound y l mx Hsorted' Hnodup' Hbound') as Hlow.
    assert (x ≠ y) by (intros ->; apply Hx; by left).
    cbn [length] in Hmx.
    assert (y = x + 1)%N as -> by lia.
    apply IH; [done..|lia].
Qed.

Lemma run_sorted (base : N) (n : nat) :
  is_sorted (map (λ k, (base + N.of_nat k)%N) (seq 0 n)) = true.
Proof.
  revert base. induction n as [|n IH]; intros base; [done|].
  rewrite run_S. destruct n as [|n]; [done|].
  rewrite run_S.
  change (is_sorted (?a :: ?b :: ?l))
    with ((a <=? b)%N && is_sorted (b :: l)).
  apply andb_true_intro. split.
  - apply N.leb_le. lia.
  - rewrite <-run_S. apply IH.
Qed.

(** X15.  What the test of the rewriter decides.  For ids without
    repetition, the test (the ids are sorted and [max - min = len - 1])
    holds exactly when the ids are the run [min, min + 1, ..., min + len - 1]
    in this order: then, and only then, [--base_instance_num=<min>] and
    [--num_instances=<len>] stand for the ids of the group. *)
Theorem consecutive_test_exact (ids : list N) (mx mn : N) :
  NoDup ids →
  max_element ids = Some mx → min_element ids = Some mn →
  is_sorted ids = true ∧
  (Z.of_N mx - Z.of_N mn = Z.of_nat (length ids) - 1)%Z
  ↔ ids = map (λ k, (mn + N.of_nat k)%N) (seq 0 (length ids)).
Proof.
  intros Hnodup Hmax Hmin.
  assert (ids ≠ []) as Hne by (by intros ->).
  destruct (max_min_element_spec ids Hne)
    as (mx' & mn' & Hmax' & Hmin' & Hmx & Hmn & Hbounds).
  rewrite Hmax in Hmax'. rewrite Hmin in Hmin'.
  injection Hmax' as <-. injection Hmin' as <-.
  destruct ids as [|x l]; [done|]. split.
  - intros [Hsorted Hlen]. cbn [length] in Hlen.
    assert (Forall (λ y, (y ≤ mx)%N) (x :: l)) as Hupper
      by (eapply Forall_impl; [exact Hbounds|]; cbn; lia).
    pose proof (sorted_nodup_bound x l mx Hsorted Hnodup Hupper) as Hlow.
    assert (Forall (λ y, (mn ≤ y)%N) (x :: l)) as Hlower
      by (eapply Forall_impl; [exact Hbounds|]; cbn; lia).
    apply Forall_cons in Hlower as [Hmnx _].
    assert (mn = x) as -> by lia.
    apply sorted_nodup_run with (mx := mx); [done..|lia].
  - intros Hrun. split; [rewrite Hrun; apply run_sorted|].
    cbn [length] in Hrun |- *. rewrite run_S in Hrun.
    injection Hrun as Hx Hl. subst x.
    assert (Forall (λ y, (y ≤ mn + N.of_nat (length l))%N) (mn :: l)) as Hle.
    { constructor; [lia|]. apply Forall_forall. intros y Hy.
      rewrite Hl in Hy. apply list_elem_of_fmap in Hy as (k & -> & Hk).
      apply elem_of_seq in Hk. lia. }
    assert (mx ≤ mn + N.of_nat (length l))%N as Hupper.
    { rewrite Forall_forall in Hle. by apply Hle. }
    assert (mn + N.of_nat (length l) ≤ mx)%N as Hlower.
    { apply (sorted_nodup_bound mn l mx); [|done|].
      - rewrite Hl. rewrite <-run_S. apply run_sorted.
      - eapply Forall_impl; [exact Hbounds|]. cbn. lia. }
    lia.
Qed.

End InstanceIdFacts.

(** The rewriter on one instance, and the test on the ids 5, 6, 7. *)
Lemma UpdateInstanceArgsAndEnvs_single_witness :
  flag_parser.consume_flags start.instance_id_flags
    ["--num_instances=3"; "--cpus=4"]
  = (Ok (<["old_num_instances" := "3"]> ∅), ["--cpus=4"]) ∧
  @start.UpdateInstanceArgsAndEnvs (scenario_deps child_succeeds)
    ["--num_instances=3"; "--cpus=4"] ∅ [instance 3] "/tools"
    "cvd_internal_start"
  = Ok (start.mkUpdatedArgsAndEnvs
          (["--cpus=4"]
           ++ if @start.check_flag (scenario_deps child_succeeds) "/tools"
                   "base_instance_num"
              then ["--base_instance_num="
                    +:+ to_string (start.instance_id_ (instance 3))]
              else [])
          (<[start.kCuttlefishInstanceEnvVarName
             := to_string (start.instance_id_ (instance 3))]> ∅)).
Proof.
  assert (flag_parser.consume_flags start.instance_id_flags
            ["--num_instances=3"; "--cpus=4"]
          = (Ok (<["old_num_instances" := "3"]> ∅), ["--cpus=4"])) as Hconsume
    by (vm_compute; reflexivity).
  split; [exact Hconsume|].
  exact (@UpdateInstanceArgsAndEnvs_single (scenario_deps child_succeeds)
           ["--num_instances=3"; "--cpus=4"] ∅ (instance 3) "/tools"
           "cvd_internal_start" _ _ Hconsume).
Defined.

Lemma consecutive_test_exact_witness :
  NoDup [5; 6; 7]%N ∧
  start.max_element [5; 6; 7]%N = Some 7%N ∧
  start.min_element [5; 6; 7]%N = Some 5%N ∧
  (start.is_sorted [5; 6; 7]%N = true ∧
   (Z.of_N 7 - Z.of_N 5 = Z.of_nat (length [5; 6; 7]%N) - 1)%Z
   ↔ [5; 6; 7]%N
     = map (λ k, (5 + N.of_nat k)%N) (seq 0 (length [5; 6; 7]%N))).
Proof.
  assert (NoDup [5; 6; 7]%N) as Hnodup by by_evaluation.
  split; [exact Hnodup|]. split; [reflexivity|]. split; [reflexivity|].
  exact (consecutive_test_exact [5; 6; 7]%N 7 5 Hnodup eq_refl eq_refl).
Defined.

(** ** The ways out of [Handle] before the registry *)

Section HandleExits.
Import flag_parser start.
Context `{StartDeps}.

(** What [GetConfigPath] leaves of the arguments when it returns a path. *)
Lemma GetConfigPath_some (args rest : Args) (config_file : string) :
  GetConfigPath args = (Ok (Some config_file), rest) →
  rest `sublist_of` args ∧
  Forall (λ arg, is_flag "config_file" arg = false) rest ∧
  (length rest < length args)%nat.
Proof.
  unfold GetConfigPath.
  destruct (consume_flags _ args) as [[vars| |] args'] eqn:Hconsume;
    [|done..].
  case_decide as Hsize; [done|]. intros [= _ <-].
  apply consume_ok in Hconsume as [Hsub Hno]. split; [done|]. split.
  - eapply Forall_impl; [exact Hno|]. intros arg [Harg _]%Forall_cons.
    by rewrite flag_matches_GflagsCompatFlag in Harg.
  - apply sublist_length in Hsub. lia.
Qed.

(** X16.  A start request with a config file is a load request.  When
    [GetConfigPath] finds [--config_file] among the arguments of the
    subcommand, [Handle] makes one call, to the command executor, with the
    request [cvd load <remaining arguments> <path>] in the environment and
    the working directory of the client, and returns what that call
    returns: no precondition is verified, the registry is not touched and
    no launcher is started.  The remaining arguments are the arguments of
    the client without the config-file flags. *)
Theorem Handle_forwards_config_file (request : Request) (trace : Trace)
    (config_file : string) (rest : Args) :
  GetConfigPath (ParseInvocation request).2 = (Ok (Some config_file), rest) →
  let subrequest :=
    mkRequest (["cvd"; "load"] ++ rest ++ [config_file])
              (env request) (working_directory request)
              WAIT_BEHAVIOR_COMPLETE [] in
  Handle request trace
  = (ExecuteOne subrequest, trace ++ [Call_ExecuteOne subrequest]) ∧
  rest `sublist_of` (ParseInvocation request).2 ∧
  Forall (λ arg, is_flag "config_file" arg = false) rest ∧
  (length rest < length (ParseInvocation request).2)%nat.
Proof.
  intros Hconfig. cbv zeta. split; [|by eapply GetConfigPath_some].
  unfold Handle. unfold bind at 1, lift at 1, CanHandle.
  destruct (ParseInvocation request) as [subcmd subcmd_args].
  cbn [snd] in Hconfig. rewrite Hconfig.
  unfold bind at 1, lift at 1. by unfold call, CreateLoadCommand.
Qed.

(** X17.  Without a config file, [Handle] leaves before it has called any
    collaborator with an effect in two cases.  When the preconditions of
    the request are not verified it returns, as a value, the response
    FAILED_PRECONDITION with the message of the verification.  When they
    are verified but the subcommand is neither [start] nor [launch_cvd],
    it returns an error: [CanHandle] is only asked whether it has an
    answer, and the subcommand is checked after the environment. *)
Theorem Handle_leaves_early (request : Request) (trace : Trace)
    (rest : Args) :
  GetConfigPath (ParseInvocation request).2 = (Ok None, rest) →
  match VerifyPrecondition request with
  | Some message =>
      Handle request trace
      = (Ok (CommandResponse FAILED_PRECONDITION message), trace)
  | None =>
      (ParseInvocation request).1 ∉ supported_commands_ →
      CanHandle request = Ok false ∧
      ok (Handle request trace).1 = false ∧
      (Handle request trace).2 = trace
  end.
Proof.
  intros Hconfig.
  destruct (VerifyPrecondition request) as [message|] eqn:Hverify.
  - unfold Handle. unfold bind at 1, lift at 1, CanHandle.
    destruct (ParseInvocation request) as [subcmd subcmd_args].
    cbn [snd] in Hconfig. rewrite Hconfig.
    unfold bind at 1, lift at 1. by rewrite Hverify.
  - intros Hsub. split; [unfold CanHandle; by rewrite bool_decide_eq_false_2|].
    destruct (Handle request trace) as [r trace'] eqn:Hrun.
    cbn [fst snd]. revert Hrun.
    unfold Handle. unfold bind at 1, lift at 1, CanHandle.
    destruct (ParseInvocation request) as [subcmd subcmd_args].
    cbn [fst snd] in Hconfig, Hsub |- *. rewrite Hconfig.
    unfold bind at 1, lift at 1. rewrite Hverify.
    unfold bind at 1, lift at 1.
    destruct (normalize_home request (env request)) as [envs| |];
      [|by intros [= <- <-]..].
    unfold bind at 1, lift at 1.
    destruct (envs !! kAndroidHostOut) as [android_host_out|];
      [|by intros [= <- <-]].
    unfold bind at 1, lift at 1.
    destruct (FindStartBin android_host_out) as [bin| |];
      [|by intros [= <- <-]..].
    unfold bind at 1, CF_EXPECT at 1.
    rewrite bool_decide_eq_false_2 by done. by intros [= <- <-].
Qed.

End HandleExits.

(** The two ways out on requests of the scenarios: a start request with a
    config file, and one whose environment lacks ANDROID_HOST_OUT. *)
Lemma Handle_forwards_config_file_witness :
  let deps := scenario_deps child_succeeds in
  let request :=
    start_request ["--config_file=/x.json"] "/h" start.WAIT_BEHAVIOR_COMPLETE in
  start.GetConfigPath (@start.ParseInvocation deps request).2
  = (Ok (Some "/x.json"), []) ∧
  let subrequest :=
    start.mkRequest (["cvd"; "load"] ++ [] ++ ["/x.json"])
      (start.env request) (start.working_directory request)
      start.WAIT_BEHAVIOR_COMPLETE [] in
  @start.Handle deps request []
  = (@start.ExecuteOne deps subrequest,
     [] ++ [start.Call_ExecuteOne subrequest]) ∧
  [] `sublist_of` (@start.ParseInvocation deps request).2 ∧
  Forall (λ arg, flag_parser.is_flag "config_file" arg = false) [] ∧
  (length (@nil string) < length (@start.ParseInvocation deps request).2)%nat.
Proof.
  cbv zeta.
  assert (start.GetConfigPath
            (@start.ParseInvocation (scenario_deps child_succeeds)
               (start_request ["--config_file=/x.json"] "/h"
                  start.WAIT_BEHAVIOR_COMPLETE)).2
          = (Ok (Some "/x.json"), [])) as Hconfig by (vm_compute; reflexivity).
  split; [exact Hconfig|].
  exact (@Handle_forwards_config_file (scenario_deps child_succeeds)
           (start_request ["--config_file=/x.json"] "/h"
              start.WAIT_BEHAVIOR_COMPLETE) [] "/x.json" [] Hconfig).
Defined.

Lemma Handle_leaves_early_witness :
  let deps := scenario_deps child_succeeds in
  let request :=
    start.mkRequest ["cvd"; "start"] ∅ "/work" start.WAIT_BEHAVIOR_COMPLETE [] in
  start.GetConfigPath (@start.ParseInvocation deps request).2 = (Ok None, []) ∧
  @start.Handle deps request []
  = (Ok (start.CommandResponse start.FAILED_PRECONDITION
           "ANDROID_HOST_OUT in client environment is invalid."), []).
Proof.
  cbv zeta.
  assert (start.GetConfigPath
            (@start.ParseInvocation (scenario_deps child_succeeds)
               (start.mkRequest ["cvd"; "start"] ∅ "/work"
                  start.WAIT_BEHAVIOR_COMPLETE [])).2
          = (Ok None, [])) as Hconfig by (vm_compute; reflexivity).
  split; [exact Hconfig|].
  exact (@Handle_leaves_early (scenario_deps child_succeeds)
           (start.mkRequest ["cvd"; "start"] ∅ "/work"
              start.WAIT_BEHAVIOR_COMPLETE []) [] [] Hconfig).
Defined.

(** ** The registry during a launch *)

Section LaunchRegistry.
Import flag_parser start.
Context `{StartDeps}.

(** [LaunchDevice] neither touches the registry nor the interrupt
    handler. *)
Lemma LaunchDevice_unguarded (launch_command : Command)
    (group_creation_info : GroupCreationInfo) (request : Request)
    (trace : Trace) :
  ∃ events,
    (LaunchDevice launch_command group_creation_info request trace).2
    = trace ++ events ∧
    filter guarded_event events = [].
Proof.
  unfold LaunchDevice, CvdResetGroup.
  unfold bind, call, CF_EXPECT, ret, lift.
  destruct (bool_decide (wait_behavior request ≠ WAIT_BEHAVIOR_START));
    [|by exists []; rewrite app_nil_r].
  destruct (Setup launch_command) as [[]| |];
    [|by eexists; split; [reflexivity|]..].
  destruct Wait as [infop| |];
    [|by rewrite <-!app_assoc; eexists; split; [reflexivity|]..].
  destruct (child_failed infop);
    [|by rewrite <-!app_assoc; eexists; split; [reflexivity|]].
  destruct RunCvdProcessManager_Get; cbn [negb];
    [|by rewrite <-!app_assoc; eexists; split; [reflexivity|]].
  destruct (instances group_creation_info) as [|first_instance rest];
    [by rewrite <-!app_assoc; eexists; split; [reflexivity|]|].
  destruct (ForcefullyStopGroup _); cbn [negb CommandResponse status_code is_OK];
    by rewrite <-!app_assoc; eexists; split; [reflexivity|].
Qed.

Lemma LaunchDeviceInterruptible_guarded (command : Command)
    (group_creation_info : GroupCreationInfo) (request : Request)
    (trace trace' : Trace) (r : Result Response) :
  LaunchDeviceInterruptible command group_creation_info request trace
  = (r, trace') →
  aborted r = false →
  ∃ events,
    trace' = trace ++ events ∧
    filter guarded_event events
    = Call_SetInstanceGroup group_creation_info
      :: (if ok (SetInstanceGroup group_creation_info)
             && negb (reports_success r)
          then [Call_RemoveInstanceGroup (home group_creation_info)]
          else []).
Proof.
  unfold LaunchDeviceInterruptible, UpdateInstanceDatabase, MarkLockfilesInUse.
  unfold bind at 1, call at 1.
  destruct (SetInstanceGroup group_creation_info) as [[]| |] eqn:Hset;
    [|by intros [= <- <-] _; eexists..|by intros [= <- <-]].
  unfold bind at 1, attempt at 1.
  destruct (LaunchDevice_unguarded command group_creation_info request
              (trace ++ [Call_SetInstanceGroup group_creation_info]))
    as (events & Hevents & Hguarded).
  destruct (LaunchDevice _ _ _ _) as [start_res trace1].
  cbn [snd] in Hevents. subst trace1.
  assert (∀ more,
            filter guarded_event
              ([Call_SetInstanceGroup group_creation_info] ++ events ++ more)
            = Call_SetInstanceGroup group_creation_info
              :: filter guarded_event more) as Hfilter.
  { intros more. by rewrite !filter_app, Hguarded. }
  destruct start_res as [response| |]; [| |by intros [= <- <-]].
  - cbn [ok negb orb]. destruct (is_OK (status_code response)) eqn:Hok;
      cbn [negb].
    + unfold bind at 1, lift at 1. rewrite Hok, orb_false_r.
      destruct (has_status response); cbn [negb].
      * unfold bind, call, ret.
        destruct (is_default_group group_creation_info);
          intros [= <- <-] _; rewrite <-!app_assoc;
          (eexists; split; [reflexivity|]);
          rewrite Hfilter; cbn [reports_success]; by rewrite Hok.
      * unfold ret. intros [= <- <-] _. rewrite <-!app_assoc.
        eexists; split; [reflexivity|].
        rewrite <-(app_nil_r events), Hfilter.
        cbn [reports_success]. by rewrite Hok.
    + unfold bind, call, lift.
      destruct (RemoveInstanceGroup (home group_creation_info)) as [b| |];
        [| |by intros [= <- <-]];
        intros [= <- <-] _; rewrite <-!app_assoc;
        (eexists; split; [reflexivity|]);
        rewrite Hfilter; cbn [reports_success]; by rewrite ?Hok.
  - cbn [ok negb orb]. unfold bind, call, lift.
    destruct (RemoveInstanceGroup (home group_creation_info)) as [b| |];
      [| |by intros [= <- <-]];
      intros [= <- <-] _; rewrite <-!app_assoc;
      (eexists; split; [reflexivity|]); by rewrite Hfilter.
Qed.

(** X18.  The group stays registered exactly when the launch reports
    success.  Whatever the collaborators answer, short of aborting the
    process, [LaunchDeviceInterruptible] registers the group once, first
    of all, and removes it again, by its home directory, exactly when the
    registration succeeded and the result is not a response with the
    status OK: a launch that could not start, a child that failed, a
    failed force-stop.  These are its only calls that change the registry,
    and it never arms or tears down the interrupt handler. *)
Theorem LaunchDeviceInterruptible_registry (command : Command)
    (group_creation_info : GroupCreationInfo) (request : Request)
    (trace : Trace) :
  let run :=
    LaunchDeviceInterruptible command group_creation_info request trace in
  aborted run.1 = false →
  ∃ events,
    run.2 = trace ++ events ∧
    filter guarded_event events
    = Call_SetInstanceGroup group_creation_info
      :: (if ok (SetInstanceGroup group_creation_info)
             && negb (reports_success run.1)
          then [Call_RemoveInstanceGroup (home group_creation_info)]
          else []).
Proof.
  cbv zeta.
  destruct (LaunchDeviceInterruptible _ _ _ _) as [r trace'] eqn:Hrun.
  cbn [fst snd]. intros Habort.
  by apply (LaunchDeviceInterruptible_guarded _ _ _ _ _ _ Hrun).
Qed.

End LaunchRegistry.

(** ** The interrupt handler and the registry during [Handle] *)

Section HandleGuards.
Import flag_parser start.
Context `{StartDeps}.

(** X19.  [Handle] changes the registry only while the interrupt handler
    is armed, and tears the handler down whenever it armed it.  Whatever
    the collaborators answer, short of aborting the process, the calls of
    one request that arm or tear down the interrupt handler or change the
    registry are: none at all; or the failed attempt to arm the handler
    alone; or arming the handler, registering the group, possibly removing
    it again, and tearing the handler down, in this order.  So no path
    returns with the handler still armed, also when the launch fails, and
    no path touches the registry without it. *)
Theorem Handle_guards_registry (request : Request) (trace : Trace) :
  let run := Handle request trace in
  aborted run.1 = false →
  ∃ events,
    run.2 = trace ++ events ∧
    (filter guarded_event events = [] ∨
     (ok pipe2 = false ∧
      filter guarded_event events = [Call_HandleInterruptSignals]) ∨
     ∃ info mutations,
       ok pipe2 = true ∧
       filter guarded_event events
       = Call_HandleInterruptSignals
         :: mutations ++ [Call_StopHandlingInterruptSignals] ∧
       (mutations = [Call_SetInstanceGroup info] ∨
        mutations = [Call_SetInstanceGroup info;
                     Call_RemoveInstanceGroup (home info)])).
Proof.
  cbv zeta. destruct (Handle request trace) as [r trace'] eqn:Hrun.
  cbn [fst snd]. revert Hrun. unfold Handle.
  unfold bind at 1, lift at 1, CanHandle.
  destruct (ParseInvocation request) as [subcmd subcmd_args].
  destruct (GetConfigPath subcmd_args) as [config_result rest].
  unfold bind at 1, lift at 1.
  destruct config_result as [[config_file|]| |];
    [|
     |by intros [= <- <-] _; exists []; rewrite app_nil_r; auto
     |by intros [= <- <-]].
  { unfold call. intros [= <- <-] _. eexists. split; [reflexivity|]. by left. }
  destruct (VerifyPrecondition request) as [message|];
    [by intros [= <- <-] _; exists []; rewrite app_nil_r; auto|].
  unfold bind at 1, lift at 1.
  destruct (normalize_home request (env request)) as [envs| |];
    [|by intros [= <- <-] _; exists []; rewrite app_nil_r; auto
     |by intros [= <- <-]].
  unfold bind at 1, lift at 1.
  destruct (envs !! kAndroidHostOut) as [android_host_out|];
    [|by intros [= <- <-] _; exists []; rewrite app_nil_r; auto].
  unfold bind at 1, lift at 1.
  destruct (FindStartBin android_host_out) as [bin| |];
    [|by intros [= <- <-] _; exists []; rewrite app_nil_r; auto
     |by intros [= <- <-]].
  unfold bind at 1, CF_EXPECT at 1.
  destruct (bool_decide (subcmd ∈ supported_commands_));
    [|by intros [= <- <-] _; exists []; rewrite app_nil_r; auto].
  unfold bind at 1, lift at 1.
  destruct (IsHelpSubcmd rest) as [is_help| |];
    [|by intros [= <- <-] _; exists []; rewrite app_nil_r; auto
     |by intros [= <- <-]].
  destruct (normalize_daemon rest) as [daemon_result daemon_args].
  unfold bind at 1, lift at 1.
  destruct daemon_result as [[]| |];
    [|by intros [= <- <-] _; exists []; rewrite app_nil_r; auto
     |by intros [= <- <-]].
  destruct is_help.
  { unfold bind at 1, lift at 1.
    destruct (ConstructCvdHelpCommand _ _ _ _) as [command| |];
      [|by intros [= <- <-] _; exists []; rewrite app_nil_r; auto
       |by intros [= <- <-]].
    unfold bind, call, ret.
    destruct (Setup command) as [[]| |];
      [|by intros [= <- <-] _; eexists; split; [reflexivity|]; left
       |by intros [= <- <-]].
    by destruct Wait as [infop| |]; intros [= <- <-] _; rewrite <-!app_assoc;
      eexists; (split; [reflexivity|]); left. }
  unfold bind at 1, lift at 1.
  destruct (GetGroupCreationInfo _ _ _ _) as [info| |];
    [|by intros [= <- <-] _; exists []; rewrite app_nil_r; auto
     |by intros [= <- <-]].
  unfold bind at 1, lift at 1.
  destruct (ConstructCvdNonHelpCommand _ _ _) as [command| |];
    [|by intros [= <- <-] _; exists []; rewrite app_nil_r; auto
     |by intros [= <- <-]].
  unfold bind at 1, HandleInterruptSignals, call at 1.
  destruct pipe2 as [fd| |] eqn:Hpipe;
    [|by intros [= <- <-] _; eexists; split; [reflexivity|]; right; left
     |by intros [= <- <-]].
  unfold bind at 1, attempt at 1.
  destruct (LaunchDeviceInterruptible command info request
              (trace ++ [Call_HandleInterruptSignals]))
    as [launch_res trace1] eqn:Hlaunch.
  destruct (aborted launch_res) eqn:Haborted;
    [destruct launch_res; try done; by intros [= <- <-]|].
  destruct (LaunchDeviceInterruptible_guarded _ _ _ _ _ _ Hlaunch Haborted)
    as (events & -> & Hguarded).
  assert (∀ more,
            filter guarded_event more = [] →
            ∃ mutations,
              filter guarded_event
                ([Call_HandleInterruptSignals] ++ events
                 ++ [Call_StopHandlingInterruptSignals] ++ more)
              = Call_HandleInterruptSignals
                :: mutations ++ [Call_StopHandlingInterruptSignals] ∧
              (mutations = [Call_SetInstanceGroup info] ∨
               mutations = [Call_SetInstanceGroup info;
                            Call_RemoveInstanceGroup (home info)]))
    as Hpattern.
  { intros more Hmore. rewrite !filter_app, Hguarded, Hmore, app_nil_r.
    eexists. split; [reflexivity|]. destruct (ok _ && negb _); auto. }
  assert (∀ t (res : Result Response),
            (match launch_res with
             | Abort => (Abort, t)
             | _ => (Ok launch_res, t)
             end : Result (Result Response) * Trace)
            = (Ok launch_res, t)) as Hattempt
    by (intros; by destruct launch_res).
  rewrite Hattempt by exact launch_res. clear Hattempt.
  unfold bind at 1, StopHandlingInterruptSignals, call at 1.
  unfold bind at 1, lift at 1.
  destruct launch_res as [response| |]; [| |done].
  - unfold bind at 1, lift at 1.
    destruct (FindGroup (group_name info)) as [[]| |];
      [| |by intros [= <- <-]].
    + unfold bind at 1, lift at 1.
      destruct FetchGroupStatus as [group_json| |];
        [| |by intros [= <- <-]].
      * unfold bind, call, CF_EXPECT, ret.
        destruct (bool_decide _); intros [= <- <-] _; rewrite <-!app_assoc;
          (eexists; split; [reflexivity|]); right; right;
          destruct (Hpattern [Call_WriteAll group_json] eq_refl)
            as (mutations & Hfilter & Hmutations);
          exists info, mutations; by rewrite Hfilter.
      * intros [= <- <-] _. rewrite <-!app_assoc.
        eexists; split; [reflexivity|]. right; right.
        destruct (Hpattern [] eq_refl) as (mutations & Hfilter & Hmutations).
        rewrite app_nil_r in Hfilter. exists info, mutations.
        by rewrite Hfilter.
    + intros [= <- <-] _. rewrite <-!app_assoc.
      eexists; split; [reflexivity|]. right; right.
      destruct (Hpattern [] eq_refl) as (mutations & Hfilter & Hmutations).
      rewrite app_nil_r in Hfilter. exists info, mutations.
      by rewrite Hfilter.
  - intros [= <- <-] _. rewrite <-!app_assoc.
    eexists; split; [reflexivity|]. right; right.
    destruct (Hpattern [] eq_refl) as (mutations & Hfilter & Hmutations).
    rewrite app_nil_r in Hfilter. exists info, mutations.
    by rewrite Hfilter.
Qed.

End HandleGuards.

Section HandleHelp.
Import flag_parser start.
Context `{StartDeps}.

(** X20.  A request for help has no effect on the registry.  When the
    arguments left by [GetConfigPath] ask for help, [Handle] registers no
    group, removes none and does not arm the interrupt handler, whatever
    else happens: it forwards a load request, or leaves early, or starts
    the help command of the launcher and waits for it, and then answers
    with the response derived from its exit status. *)
Theorem Handle_help (request : Request) (trace : Trace) :
  IsHelpSubcmd (GetConfigPath (ParseInvocation request).2).2 = Ok true →
  ∃ events,
    (Handle request trace).2 = trace ++ events ∧
    filter guarded_event events = [] ∧
    (events = [] ∨
     (∃ subrequest, events = [Call_ExecuteOne subrequest]) ∨
     (∃ command, events = [Call_Setup command]
                 ∧ ok (Handle request trace).1 = false) ∨
     (∃ command, events = [Call_Setup command; Call_Wait]
                 ∧ (Handle request trace).1
                   = and_then Wait (λ infop, Ok (ResponseFromSiginfo infop)))).
Proof.
  destruct (Handle request trace) as [r trace'] eqn:Hrun.
  cbn [fst snd]. revert Hrun. unfold Handle.
  unfold bind at 1, lift at 1, CanHandle.
  destruct (ParseInvocation request) as [subcmd subcmd_args]. cbn [snd].
  destruct (GetConfigPath subcmd_args) as [config_result rest]. cbn [snd].
  unfold bind at 1, lift at 1.
  destruct config_result as [[config_file|]| |];
    [|
     |by intros [= <- <-] _; exists []; rewrite app_nil_r; auto..].
  { unfold call. intros [= <- <-] _. eexists. split; [reflexivity|].
    split; [done|]. right; left. by eexists. }
  destruct (VerifyPrecondition request) as [message|];
    [by intros [= <- <-] _; exists []; rewrite app_nil_r; auto|].
  unfold bind at 1, lift at 1.
  destruct (normalize_home request (env request)) as [envs| |];
    [|by intros [= <- <-] _; exists []; rewrite app_nil_r; auto..].
  unfold bind at 1, lift at 1.
  destruct (envs !! kAndroidHostOut) as [android_host_out|];
    [|by intros [= <- <-] _; exists []; rewrite app_nil_r; auto].
  unfold bind at 1, lift at 1.
  destruct (FindStartBin android_host_out) as [bin| |];
    [|by intros [= <- <-] _; exists []; rewrite app_nil_r; auto..].
  unfold bind at 1, CF_EXPECT at 1.
  destruct (bool_decide (subcmd ∈ supported_commands_));
    [|by intros [= <- <-] _; exists []; rewrite app_nil_r; auto].
  unfold bind at 1, lift at 1. intros Hrun Hhelp. revert Hrun.
  rewrite Hhelp.
  destruct (normalize_daemon rest) as [daemon_result daemon_args].
  unfold bind at 1, lift at 1.
  destruct daemon_result as [[]| |];
    [|by intros [= <- <-]; exists []; rewrite app_nil_r; auto..].
  unfold bind at 1, lift at 1.
  destruct (ConstructCvdHelpCommand _ _ _ _) as [command| |];
    [|by intros [= <- <-]; exists []; rewrite app_nil_r; auto..].
  unfold bind, call, ret.
  destruct (Setup command) as [[]| |];
    [|by intros [= <- <-]; eexists; split; [reflexivity|]; split; [done|];
         right; right; left; eexists..].
  destruct Wait as [infop| |]; intros [= <- <-]; rewrite <-!app_assoc;
    (eexists; split; [reflexivity|]); (split; [done|]);
    right; right; right; by eexists.
Qed.

End HandleHelp.

(** The theorems on the launch and on the handler, for the scenario in which
    the child exits with 1, and for a request for help. *)
Lemma LaunchDeviceInterruptible_registry_witness :
  let deps := scenario_deps child_fails in
  let info := plan_g [9%N] in
  let request := start_request [] "/h" start.WAIT_BEHAVIOR_COMPLETE in
  let run := @start.LaunchDeviceInterruptible deps launch_command info
               request [] in
  aborted run.1 = false ∧
  ∃ events,
    run.2 = [] ++ events ∧
    filter guarded_event events
    = start.Call_SetInstanceGroup info
      :: (if ok (@start.SetInstanceGroup deps info)
             && negb (reports_success run.1)
          then [start.Call_RemoveInstanceGroup (start.home info)]
          else []).
Proof.
  cbv zeta.
  assert (aborted (@start.LaunchDeviceInterruptible (scenario_deps child_fails)
                     launch_command (plan_g [9%N])
                     (start_request [] "/h" start.WAIT_BEHAVIOR_COMPLETE) []).1
          = false) as Hrun by (vm_compute; reflexivity).
  split; [exact Hrun|].
  exact (@LaunchDeviceInterruptible_registry (scenario_deps child_fails)
           launch_command (plan_g [9%N])
           (start_request [] "/h" start.WAIT_BEHAVIOR_COMPLETE) [] Hrun).
Defined.

Lemma Handle_guards_registry_witness :
  let deps := scenario_deps child_fails in
  let request := start_request [] "/h" start.WAIT_BEHAVIOR_COMPLETE in
  let run := @start.Handle deps request [] in
  aborted run.1 = false ∧
  ∃ events,
    run.2 = [] ++ events ∧
    (filter guarded_event events = [] ∨
     (ok (@start.pipe2 deps) = false ∧
      filter guarded_event events = [start.Call_HandleInterruptSignals]) ∨
     ∃ info mutations,
       ok (@start.pipe2 deps) = true ∧
       filter guarded_event events
       = start.Call_HandleInterruptSignals
         :: mutations ++ [start.Call_StopHandlingInterruptSignals] ∧
       (mutations = [start.Call_SetInstanceGroup info] ∨
        mutations = [start.Call_SetInstanceGroup info;
                     start.Call_RemoveInstanceGroup (start.home info)])).
Proof.
  cbv zeta.
  assert (aborted (@start.Handle (scenario_deps child_fails)
                     (start_request [] "/h" start.WAIT_BEHAVIOR_COMPLETE) []).1
          = false) as Hrun by (vm_compute; reflexivity).
  split; [exact Hrun|].
  exact (@Handle_guards_registry (scenario_deps child_fails)
           (start_request [] "/h" start.WAIT_BEHAVIOR_COMPLETE) [] Hrun).
Defined.

Lemma Handle_help_witness :
  let deps := scenario_deps child_succeeds in
  let request := start_request ["--help"] "/h" start.WAIT_BEHAVIOR_COMPLETE in
  @start.IsHelpSubcmd deps
    (start.GetConfigPath (@start.ParseInvocation deps request).2).2 = Ok true ∧
  ∃ events,
    (@start.Handle deps request []).2 = [] ++ events ∧
    filter guarded_event events = [] ∧
    (events = [] ∨
     (∃ subrequest, events = [start.Call_ExecuteOne subrequest]) ∨
     (∃ command, events = [start.Call_Setup command]
                 ∧ ok (@start.Handle deps request []).1 = false) ∨
     (∃ command, events = [start.Call_Setup command; start.Call_Wait]
                 ∧ (@start.Handle deps request []).1
                   = and_then (@start.Wait deps)
                       (λ infop, Ok (start.ResponseFromSiginfo infop)))).
Proof.
  cbv zeta.
  assert (@start.IsHelpSubcmd (scenario_deps child_succeeds)
            (start.GetConfigPath
               (@start.ParseInvocation (scenario_deps child_succeeds)
                  (start_request ["--help"] "/h"
                     start.WAIT_BEHAVIOR_COMPLETE)).2).2
          = Ok true) as Hhelp by (vm_compute; reflexivity).
  split; [exact Hhelp|].
  exact (@Handle_help (scenario_deps child_succeeds)
           (start_request ["--help"] "/h" start.WAIT_BEHAVIOR_COMPLETE) []
           Hhelp).
Defined.

(** * The interrupt handler *)

Section SignalFacts.
Import signals.

Lemma exec_bind {A B} (fds : option (Z * Z)) (p : Prog A) (f : A → Prog B)
    (s : State) :
  exec fds (p ≫= f) s
  = match exec fds p s with
    | (Ok a, s') => exec fds (f a) s'
    | (Err e, s') => (Err e, s')
    | (Abort, s') => (Abort, s')
    end.
Proof.
  revert s. unfold mbind, Prog_bind.
  induction p as [[a|e|]|desired k IH|c k IH|k IH]; intros s; cbn; auto.
Qed.

(** The handler while the descriptor [fd] is in the atomic: one write, and
    the descriptor is back in the atomic. *)
Lemma InterruptHandler_armed (fds : option (Z * Z)) (signal fd : Z)
    (l : list Syscall) :
  (0 ≤ fd)%Z →
  exec fds (InterruptHandler signal) (mkState fd l)
  = (Ok tt, mkState fd (l ++ [write fd signal])).
Proof.
  intros Hfd. unfold InterruptHandler. cbn.
  assert ((0 <=? fd)%Z = true) as -> by (apply Z.leb_le; lia). cbn.
  by rewrite bool_decide_eq_false_2 by (intros Hne; by apply Hne).
Qed.

Lemma deliver_armed (fds : option (Z * Z)) (signals : list Z) (fd : Z)
    (l : list Syscall) :
  (0 ≤ fd)%Z →
  exec fds (deliver signals) (mkState fd l)
  = (Ok tt, mkState fd (l ++ map (write fd) signals)).
Proof.
  intros Hfd. revert l. induction signals as [|signal rest IH]; intros l.
  - cbn. by rewrite app_nil_r.
  - cbn [deliver]. rewrite exec_bind, InterruptHandler_armed by done.
    rewrite IH. cbn [map]. by rewrite <-app_assoc.
Qed.

(** X21.  Arming, signals, teardown, one after the other.  From a closed
    atomic, [HandleInterruptSignals] takes the pair that [pipe2] answers,
    stores its first descriptor in the atomic and returns the second; each
    run of [InterruptHandler] then writes its signal number to the stored
    descriptor and puts the descriptor back; [StopHandlingInterruptSignals]
    restores the default handlers and closes the stored descriptor, once.
    The atomic is closed again at the end, so the handler can be armed
    anew. *)
Theorem arm_deliver_stop (fds0 fds1 : Z) (signals : list Z)
    (l : list Syscall) :
  (0 ≤ fds0)%Z →
  exec (Some (fds0, fds1))
    (signals_fd ← HandleInterruptSignals;
     deliver signals;;
     StopHandlingInterruptSignals;;
     mret signals_fd)
    (mkState CLOSED_FD l)
  = (Ok fds1,
     mkState CLOSED_FD
       (l ++ [set_nonblocking fds0;
              ChangeSignalHandlers Install_InterruptHandler]
          ++ map (write fds0) signals
          ++ [ChangeSignalHandlers SIG_DFL; close fds0])).
Proof.
  intros Hfds0. rewrite exec_bind.
  assert (exec (Some (fds0, fds1)) HandleInterruptSignals (mkState CLOSED_FD l)
          = (Ok fds1,
             mkState fds0
               (l ++ [set_nonblocking fds0;
                      ChangeSignalHandlers Install_InterruptHandler]))) as ->.
  { cbn. rewrite bool_decide_eq_true_2 by done. cbn. by rewrite <-app_assoc. }
  rewrite exec_bind, deliver_armed by done.
  cbn. assert ((0 <=? fds0)%Z = true) as -> by (apply Z.leb_le; lia).
  cbn. by rewrite <-!app_assoc.
Qed.

(** X22.  The three functions away from the expected order.
    [HandleInterruptSignals] on an atomic that is not closed aborts on its
    [CHECK], after the atomic has been overwritten and before the handlers
    are changed; when [pipe2] fails it returns an error and has done
    nothing.  A run of [InterruptHandler] that finds the atomic closed (a
    late signal), or in use by a handler it has interrupted, writes
    nothing, closes nothing and leaves the atomic as it found it.
    [StopHandlingInterruptSignals] on a closed atomic restores the default
    handlers and closes nothing: a second teardown is harmless. *)
Theorem signal_functions_out_of_order (fds0 fds1 signal previous : Z)
    (l : list Syscall) :
  exec (Some (fds0, fds1)) HandleInterruptSignals (mkState previous l)
  = (if bool_decide (previous = CLOSED_FD)
     then (Ok fds1,
           mkState fds0 (l ++ [set_nonblocking fds0;
                               ChangeSignalHandlers Install_InterruptHandler]))
     else (Abort, mkState fds0 (l ++ [set_nonblocking fds0]))) ∧
  exec None HandleInterruptSignals (mkState previous l)
  = (Err SignalPipeFailed, mkState previous l) ∧
  exec None (InterruptHandler signal) (mkState CLOSED_FD l)
  = (Ok tt, mkState CLOSED_FD l) ∧
  exec None (InterruptHandler signal) (mkState IN_USE_FD l)
  = (Ok tt, mkState IN_USE_FD l) ∧
  exec None StopHandlingInterruptSignals (mkState CLOSED_FD l)
  = (Ok tt, mkState CLOSED_FD (l ++ [ChangeSignalHandlers SIG_DFL])).
Proof.
  split; [|by repeat split].
  cbn. case_bool_decide; cbn; [by rewrite <-app_assoc|done].
Qed.

End SignalFacts.

(** ** One run of the handler against the teardown *)

Section SignalRace.
Import signals.

Lemma filter_on_fd_cons (fd : Z) (c : Syscall) (l : list Syscall) :
  filter (λ c, on_fd fd c) (c :: l)
  = if on_fd fd c then c :: filter (λ c, on_fd fd c) l
    else filter (λ c, on_fd fd c) l.
Proof. rewrite filter_cons. by destruct (on_fd fd c). Qed.

(** The end of an interleaving: both threads have returned. *)
Ltac race_finish :=
  cbn [fst snd signal_pipe_write_end calls];
  split; [reflexivity|]; split; [reflexivity|];
  rewrite <-?app_assoc; eexists; split; [reflexivity|];
  cbn [app]; rewrite ?filter_on_fd_cons; cbn [on_fd];
  rewrite ?bool_decide_eq_true_2 by done;
  first [left; reflexivity | right; reflexivity].

(** Every next operation of an interleaving, then every one after it. *)
Ltac race_explore Hfd Hne :=
  lazymatch goal with
  | Hrun : interleaving _ _ _ _ _ |- _ =>
      inversion Hrun; subst; clear Hrun;
      try match goal with
      | Hstep : step _ _ _ = Some _ |- _ =>
          cbn in Hstep; first [discriminate Hstep | injection Hstep as <- <-]
      end;
      try match goal with
      | Hrest : interleaving _ _ _ _ _ |- _ =>
          cbn in Hrest; rewrite ?Hfd, ?Hne in Hrest; cbn in Hrest
      end;
      first [race_explore Hfd Hne | race_finish]
  end.

(** X23.  One run of [InterruptHandler] on one thread against
    [StopHandlingInterruptSignals] on another, from an atomic that holds the
    descriptor [fd], in every order of their exchanges and system calls.
    Both return, the atomic ends closed, and of the system calls on [fd]
    there is exactly one [close], made by whichever thread found the
    descriptor in the atomic last, and at most one [write], which comes
    before the [close]. *)
Theorem handler_against_teardown (fds : option (Z * Z)) (fd signal : Z)
    (l : list Syscall) (out : Result unit * Result unit * State) :
  (0 ≤ fd)%Z →
  interleaving fds (InterruptHandler signal) StopHandlingInterruptSignals
    (mkState fd l) out →
  out.1 = (Ok tt, Ok tt) ∧
  signal_pipe_write_end out.2 = CLOSED_FD ∧
  ∃ new,
    calls out.2 = l ++ new ∧
    (filter (λ c, on_fd fd c) new = [write fd signal; close fd] ∨
     filter (λ c, on_fd fd c) new = [close fd]).
Proof.
  intros Hfd Hrun.
  assert ((0 <=? fd)%Z = true) as Hfd' by (apply Z.leb_le; lia).
  assert (bool_decide (fd ≠ (-2)%Z) = true) as Hne
    by (apply bool_decide_eq_true; lia).
  unfold InterruptHandler, StopHandlingInterruptSignals in Hrun.
  unfold CLOSED_FD, IN_USE_FD in *. cbn in Hrun.
  race_explore Hfd' Hne.
Qed.

End SignalRace.

(** C9, the code at the failing schedule.  The atomic holds the descriptor
    3.  Two signals, 2 and 15, are handled on two threads while a third
    thread tears the handler down.  The first handler takes the descriptor
    and writes; the teardown finds the atomic in use and closes nothing; the
    second handler, entered before the teardown, finds the atomic closed;
    the first handler puts the descriptor back, sees the mark of the second
    and returns; the second handler puts [CLOSED_FD] back, receives the
    descriptor, and overwrites it with the result of its last exchange.
    Every thread has returned, the atomic is closed, and the descriptor 3
    has not been closed by anyone. *)
Theorem two_signals_during_teardown_leak_the_descriptor :
  signals.schedule None
    [signals.InterruptHandler 2; signals.InterruptHandler 15;
     signals.StopHandlingInterruptSignals]
    (signals.mkState 3 [])
    (signals.mkState signals.CLOSED_FD
       [signals.write 3 2; signals.ChangeSignalHandlers signals.SIG_DFL]) ∧
  filter (λ c, signals.on_fd 3 c)
    [signals.write 3 2; signals.ChangeSignalHandlers signals.SIG_DFL]
  = [signals.write 3 2].
Proof.
  split; [|reflexivity].
  (* the first handler: exchange, write *)
  eapply (signals.thread_step _ _ 0%nat); [reflexivity..|].
  eapply (signals.thread_step _ _ 0%nat); [reflexivity..|].
  (* the teardown: default handlers, exchange *)
  eapply (signals.thread_step _ _ 2%nat); [reflexivity..|].
  eapply (signals.thread_step _ _ 2%nat); [reflexivity..|].
  (* the second handler: first exchange *)
  eapply (signals.thread_step _ _ 1%nat); [reflexivity..|].
  (* the first handler: second exchange *)
  eapply (signals.thread_step _ _ 0%nat); [reflexivity..|].
  (* the second handler: second and third exchange *)
  eapply (signals.thread_step _ _ 1%nat); [reflexivity..|].
  eapply (signals.thread_step _ _ 1%nat); [reflexivity..|].
  apply signals.all_returned. by repeat constructor.
Qed.

(** The sequence on the descriptors 3 and 4 with the signals 2 and 15, and
    the order in which the teardown runs between the write of the handler
    and its second exchange. *)
Lemma arm_deliver_stop_witness :
  (0 ≤ 3)%Z ∧
  signals.exec (Some (3, 4)%Z)
    (signals_fd ← signals.HandleInterruptSignals;
     signals.deliver [2; 15]%Z;;
     signals.StopHandlingInterruptSignals;;
     mret signals_fd)
    (signals.mkState signals.CLOSED_FD [])
  = (Ok 4%Z,
     signals.mkState signals.CLOSED_FD
       ([] ++ [signals.set_nonblocking 3;
               signals.ChangeSignalHandlers signals.Install_InterruptHandler]
           ++ map (signals.write 3) [2; 15]%Z
           ++ [signals.ChangeSignalHandlers signals.SIG_DFL;
               signals.close 3])).
Proof.
  assert (0 ≤ 3)%Z as Hfd by lia.
  split; [exact Hfd|].
  exact (arm_deliver_stop 3 4 [2; 15]%Z [] Hfd).
Defined.

Lemma handler_against_teardown_witness :
  let out :=
    (Ok tt, Ok tt,
     signals.mkState signals.CLOSED_FD
       [signals.write 3 2; signals.ChangeSignalHandlers signals.SIG_DFL;
        signals.close 3]) in
  (0 ≤ 3)%Z ∧
  signals.interleaving None (signals.InterruptHandler 2)
    signals.StopHandlingInterruptSignals (signals.mkState 3 []) out ∧
  out.1 = (Ok tt, Ok tt) ∧
  signals.signal_pipe_write_end out.2 = signals.CLOSED_FD ∧
  ∃ new,
    signals.calls out.2 = [] ++ new ∧
    (filter (λ c, signals.on_fd 3 c) new
     = [signals.write 3 2; signals.close 3] ∨
     filter (λ c, signals.on_fd 3 c) new = [signals.close 3]).
Proof.
  cbv zeta.
  assert (0 ≤ 3)%Z as Hfd by lia.
  assert (signals.interleaving None (signals.InterruptHandler 2)
            signals.StopHandlingInterruptSignals (signals.mkState 3 [])
            (Ok tt, Ok tt,
             signals.mkState signals.CLOSED_FD
               [signals.write 3 2;
                signals.ChangeSignalHandlers signals.SIG_DFL;
                signals.close 3])) as Hrun.
  { (* the handler exchanges and writes *)
    eapply signals.left_step; [reflexivity|].
    eapply signals.left_step; [reflexivity|].
    (* the teardown finds the atomic in use *)
    eapply signals.right_step; [reflexivity|].
    eapply signals.right_step; [reflexivity|].
    (* the handler finds it closed, and closes the descriptor *)
    eapply signals.left_step; [reflexivity|].
    eapply signals.left_step; [reflexivity|].
    eapply signals.left_step; [reflexivity|].
    apply signals.both_returned. }
  split; [exact Hfd|]. split; [exact Hrun|].
  exact (handler_against_teardown None 3 2 [] _ Hfd Hrun).
Defined.

(** * The queries of a selector *)

Section QueryParameters.
Variables kHomeField kInstanceIdField kGroupNameField kInstanceNameField
  : string.
Variable ParseInt : string → option Z.
Hypothesis field_names_differ :
  NoDup [kHomeField; kInstanceIdField; kGroupNameField; kInstanceNameField].

Local Abbreviation loop :=
  (ParamFromQueries_loop kHomeField kInstanceIdField kGroupNameField
     kInstanceNameField ParseInt).

Lemma last_or_cons {A} (x : A) (l : list A) (d : option A) :
  last_or (x :: l) d = last_or l (Some x).
Proof.
  unfold last_or. destruct l as [|y l]; [done|].
  rewrite last_cons_cons. destruct (last (y :: l)) eqn:Hlast; [done|].
  by apply last_None in Hlast.
Qed.

Lemma last_or_None {A} (l : list A) : last_or l None = last l.
Proof. unfold last_or. by destruct (last l). Qed.

Lemma values_for_cons (field : string) (q : Query) (queries : list Query) :
  values_for field (q :: queries)
  = if decide (field_name_ q = field)
    then field_value_ q :: values_for field queries
    else values_for field queries.
Proof. unfold values_for. rewrite filter_cons. by case_decide. Qed.

Lemma field_names_cases :
  kHomeField ≠ kInstanceIdField ∧ kHomeField ≠ kGroupNameField ∧
  kHomeField ≠ kInstanceNameField ∧ kInstanceIdField ≠ kGroupNameField ∧
  kInstanceIdField ≠ kInstanceNameField ∧
  kGroupNameField ≠ kInstanceNameField.
Proof.
  pose proof field_names_differ as Hnodup.
  rewrite !NoDup_cons, !not_elem_of_cons in Hnodup. intuition congruence.
Qed.

Lemma ParamFromQueries_loop_ok (queries : list Query)
    (start_param param : FindParam) :
  loop queries start_param = inr param →
  find_home param
  = last_or (values_for kHomeField queries) (find_home start_param) ∧
  find_group_name param
  = last_or (values_for kGroupNameField queries)
            (find_group_name start_param) ∧
  find_instance_name param
  = last_or (values_for kInstanceNameField queries)
            (find_instance_name start_param) ∧
  (∃ ids,
     mapM ParseInt (values_for kInstanceIdField queries) = Some ids ∧
     find_id param
     = last_or (map (λ id, Z.to_N (start.unsigned id)) ids)
               (find_id start_param)) ∧
  Forall (λ q, field_name_ q ∈ [kHomeField; kInstanceIdField; kGroupNameField;
                                kInstanceNameField]) queries.
Proof.
  destruct field_names_cases as (H12 & H13 & H14 & H23 & H24 & H34).
  revert start_param. induction queries as [|q queries IH]; intros start_param.
  - cbn. intros [= <-]. repeat split; try done.
    exists []. by split.
  - cbn [ParamFromQueries_loop]. rewrite !values_for_cons.
    destruct (decide (field_name_ q = kHomeField)) as [Hq|Hq1].
    { intros (Hhome & Hgroup & Hname & (ids & Hids & Hid) & Hall)%IH.
      cbn [find_home find_id find_group_name find_instance_name] in *.
      rewrite !decide_False by congruence. rewrite last_or_cons.
      repeat split; try done; [by exists ids|].
      constructor; [|done]. rewrite Hq. by left. }
    destruct (decide (field_name_ q = kInstanceIdField)) as [Hq|Hq2].
    { destruct (ParseInt (field_value_ q)) as [id|] eqn:Hparse; [|done].
      intros (Hhome & Hgroup & Hname & (ids & Hids & Hid) & Hall)%IH.
      cbn [find_home find_id find_group_name find_instance_name] in *.
      rewrite !decide_False by congruence.
      repeat split; try done.
      - exists (id :: ids). cbn [mapM]. rewrite Hparse. cbn.
        rewrite Hids. cbn. split; [done|]. by rewrite last_or_cons.
      - constructor; [|done]. rewrite Hq. right. by left. }
    destruct (decide (field_name_ q = kGroupNameField)) as [Hq|Hq3].
    { intros (Hhome & Hgroup & Hname & (ids & Hids & Hid) & Hall)%IH.
      cbn [find_home find_id find_group_name find_instance_name] in *.
      rewrite !decide_False by congruence. rewrite last_or_cons.
      repeat split; try done; [by exists ids|].
      constructor; [|done]. rewrite Hq. do 2 right. by left. }
    destruct (decide (field_name_ q = kInstanceNameField)) as [Hq|Hq4];
      [|done].
    intros (Hhome & Hgroup & Hname & (ids & Hids & Hid) & Hall)%IH.
    cbn [find_home find_id find_group_name find_instance_name] in *.
    rewrite last_or_cons.
    repeat split; try done; [by exists ids|].
    constructor; [|done]. rewrite Hq. do 3 right. by left.
Qed.

Lemma ParamFromQueries_loop_error (queries : list Query)
    (start_param : FindParam) (e : QueryError) :
  loop queries start_param = inl e →
  ∃ q, q ∈ queries ∧
       match e with
       | IdIsNotANumber =>
           field_name_ q = kInstanceIdField ∧
           ParseInt (field_value_ q) = None
       | UnrecognizedFieldName n =>
           field_name_ q = n ∧
           (n ∉ [kHomeField; kInstanceIdField; kGroupNameField;
                 kInstanceNameField])
       end.
Proof.
  revert start_param. induction queries as [|q queries IH]; intros start_param;
    [done|].
  cbn [ParamFromQueries_loop].
  destruct (decide (field_name_ q = kHomeField)) as [Hq|Hq1].
  { intros (q' & Hq' & He)%IH. exists q'. split; [by right|done]. }
  destruct (decide (field_name_ q = kInstanceIdField)) as [Hq|Hq2].
  { destruct (ParseInt (field_value_ q)) as [id|] eqn:Hparse.
    - intros (q' & Hq' & He)%IH. exists q'. split; [by right|done].
    - intros [= <-]. exists q. split; [by left|done]. }
  destruct (decide (field_name_ q = kGroupNameField)) as [Hq|Hq3].
  { intros (q' & Hq' & He)%IH. exists q'. split; [by right|done]. }
  destruct (decide (field_name_ q = kInstanceNameField)) as [Hq|Hq4].
  { intros (q' & Hq' & He)%IH. exists q'. split; [by right|done]. }
  intros [= <-]. exists q. split; [by left|]. split; [done|].
  rewrite !not_elem_of_cons. repeat split; try done. apply not_elem_of_nil.
Qed.

(** X24.  [ParamFromQueries], for field names that differ from each other.
    It returns a parameter exactly when every query names one of the four
    fields and every value given for the id parses as an [int].  Then each
    field of the parameter is the value of the last query for that field,
    and is not set when no query names the field; the id is the parsed
    number, stored as an [unsigned].  Otherwise some query is at fault: the
    value it gives for the id is not a number, or its field name, which the
    error carries, is not one of the four. *)
Theorem ParamFromQueries_last_query_wins (queries : list Query) :
  match ParamFromQueries kHomeField kInstanceIdField kGroupNameField
          kInstanceNameField ParseInt queries with
  | inr param =>
      find_home param = last (values_for kHomeField queries) ∧
      find_group_name param = last (values_for kGroupNameField queries) ∧
      find_instance_name param
      = last (values_for kInstanceNameField queries) ∧
      (∃ ids,
         mapM ParseInt (values_for kInstanceIdField queries) = Some ids ∧
         find_id param = last (map (λ id, Z.to_N (start.unsigned id)) ids)) ∧
      Forall (λ q, field_name_ q ∈ [kHomeField; kInstanceIdField;
                                    kGroupNameField; kInstanceNameField])
             queries
  | inl e =>
      ∃ q, q ∈ queries ∧
           match e with
           | IdIsNotANumber =>
               field_name_ q = kInstanceIdField ∧
               ParseInt (field_value_ q) = None
           | UnrecognizedFieldName n =>
               field_name_ q = n ∧
               (n ∉ [kHomeField; kInstanceIdField; kGroupNameField;
                     kInstanceNameField])
           end
  end.
Proof.
  unfold ParamFromQueries.
  destruct (loop queries (mkFindParam None None None None)) as [e|param]
    eqn:Hrun.
  - by apply ParamFromQueries_loop_error in Hrun.
  - apply ParamFromQueries_loop_ok in Hrun
      as (Hhome & Hgroup & Hname & (ids & Hids & Hid) & Hall).
    cbn [find_home find_id find_group_name find_instance_name] in *.
    rewrite last_or_None in Hhome, Hgroup, Hname. rewrite last_or_None in Hid.
    repeat split; try done. by exists ids.
Qed.

End QueryParameters.

Lemma ParamFromQueries_last_query_wins_witness :
  NoDup ["home"; "instance_id"; "group_name"; "instance_name"] ∧
  ∃ param,
    ParamFromQueries "home" "instance_id" "group_name" "instance_name"
      (λ s, if decide (s = "3") then Some 3%Z else None)
      [mkQuery "home" "/a"; mkQuery "instance_id" "3"; mkQuery "home" "/b"]
    = inr param ∧
    find_home param = Some "/b" ∧ find_id param = Some 3%N.
Proof.
  assert (NoDup ["home"; "instance_id"; "group_name"; "instance_name"])
    as Hnodup by by_evaluation.
  split; [exact Hnodup|].
  pose proof (ParamFromQueries_last_query_wins
                "home" "instance_id" "group_name" "instance_name"
                (λ s, if decide (s = "3") then Some 3%Z else None) Hnodup
                [mkQuery "home" "/a"; mkQuery "instance_id" "3";
                 mkQuery "home" "/b"]) as Hspec.
  destruct (ParamFromQueries _ _ _ _ _ _) as [e|param] eqn:Hrun;
    [discriminate Hrun|].
  exists param. split; [reflexivity|].
  destruct Hspec as (Hhome & _). split; [exact Hhome|].
  by injection Hrun as <-.
Defined.

(** * The symbolic links *)

Section LinkFacts.
Import links.
Context {FS : Type} `{!FileOps FS}.

Lemma adds_bind {A B} (m : M FS A) (k : A → M FS B) (s : FS * list FsCall)
    (P : LinkError + A → list FsCall → Prop)
    (Q : LinkError + B → list FsCall → Prop) :
  adds m s P →
  (∀ e new, P (inl e) new → Q (inl e) new) →
  (∀ a new s', P (inr a) new →
     adds (k a) s' (λ r new', Q r (new ++ new'))) →
  adds (m ≫= k) s Q.
Proof.
  intros (new & Hcalls & HP) Herr Hok. unfold adds, mbind, M_bind.
  destruct (m s) as [[e|a] s'] eqn:Hrun; cbn [fst snd] in *.
  - exists new. split; [done|]. by apply Herr.
  - destruct (Hok a new s' HP) as (new' & Hcalls' & HQ).
    exists (new ++ new'). split; [|done].
    by rewrite Hcalls', Hcalls, <-app_assoc.
Qed.

Lemma adds_ret {A} (a : A) (s : FS * list FsCall)
    (P : LinkError + A → list FsCall → Prop) :
  P (inr a) [] → adds (mret a) s P.
Proof. intros HP. exists []. split; [by rewrite app_nil_r|done]. Qed.

Lemma symlinks_of_app (l k : list FsCall) :
  symlinks_of (l ++ k) = symlinks_of l ++ symlinks_of k.
Proof. apply omap_app. Qed.

Lemma removals_of_app (l k : list FsCall) :
  removals_of (l ++ k) = removals_of l ++ removals_of k.
Proof. apply omap_app. Qed.

Lemma executions_of_app (l k : list FsCall) :
  executions_of (l ++ k) = executions_of l ++ executions_of k.
Proof. apply omap_app. Qed.

Lemma EnsureSymlink_adds (target link : string) (s : FS * list FsCall) :
  adds (EnsureSymlink target link) s (λ r new,
    Forall (λ path, path = link) (removals_of new) ∧
    executions_of new = [] ∧
    match r with
    | inr _ => symlinks_of new = [(target, link)]
    | inl e => is_link_failure e = true ∧
               (symlinks_of new = [] ∨ symlinks_of new = [(target, link)])
    end).
Proof.
  destruct s as [fs calls].
  unfold adds, EnsureSymlink, mbind, M_bind, look, op, CF_EXPECTF, fail, mret,
    M_ret.
  cbn [fst snd].
  repeat match goal with
         | |- context [match ?x with _ => _ end] =>
             lazymatch x with
             | context [match _ with _ => _ end] => fail
             | _ => destruct x eqn:?; cbn [fst snd]
             end
         end;
    rewrite <-?app_assoc; eexists; (split; [reflexivity|]); cbn;
    repeat split; auto.
Qed.

(** The links ensured one after the other: the links asked for are the
    first of the list, all of them on success, and nothing but a link of
    the list is removed. *)
Lemma ensure_all_adds (links : list (string * string))
    (s : FS * list FsCall) :
  adds (ensure_all links) s (λ r new,
    Forall (λ path, path ∈ links.*2) (removals_of new) ∧
    executions_of new = [] ∧
    symlinks_of new `prefix_of` links ∧
    match r with
    | inr _ => symlinks_of new = links
    | inl e => is_link_failure e = true
    end).
Proof.
  revert s. induction links as [|[target link] links IH]; intros s.
  - apply adds_ret. cbn. repeat split; done || by constructor.
  - cbn [ensure_all]. eapply adds_bind; [apply EnsureSymlink_adds|..].
    + intros e new (Hremoved & Hexec & Hfail & Hlinks).
      repeat split; try done.
      * eapply Forall_impl; [exact Hremoved|]. intros path ->. by left.
      * destruct Hlinks as [->| ->]; [apply prefix_nil|].
        by apply prefix_cons, prefix_nil.
    + intros [] new s' (Hremoved & Hexec & Hlinks).
      destruct (IH s') as (new' & Hcalls & Hremoved' & Hexec' & Hprefix & Hr).
      exists new'. split; [done|].
      rewrite removals_of_app, executions_of_app, symlinks_of_app, Hlinks,
        Hexec, Hexec'.
      repeat split; try done.
      * apply Forall_app. split.
        -- eapply Forall_impl; [exact Hremoved|]. intros path ->. by left.
        -- eapply Forall_impl; [exact Hremoved'|]. intros path Hin.
           by right.
      * by apply prefix_cons.
      * destruct ((ensure_all links s').1) as [e|[]]; [done|].
        cbn. by rewrite Hr.
Qed.

Lemma CreateSymlinks_loop_adds (home system_wide_home : string)
    (instances : list start.PerInstanceInfo) (smallest_id : N)
    (s : FS * list FsCall) :
  let links := flat_map (instance_links home system_wide_home) instances in
  adds (CreateSymlinks_loop home system_wide_home instances smallest_id) s
    (λ r new,
      Forall (λ path, path ∈ links.*2) (removals_of new) ∧
      executions_of new = [] ∧
      symlinks_of new `prefix_of` links ∧
      match r with
      | inr id =>
          symlinks_of new = links ∧
          id = foldl N.min smallest_id (map start.instance_id_ instances)
      | inl e => is_link_failure e = true
      end).
Proof.
  cbv zeta. revert smallest_id s.
  induction instances as [|instance instances IH]; intros smallest_id s.
  - apply adds_ret. cbn. repeat split; done || by constructor.
  - cbn [CreateSymlinks_loop flat_map map foldl].
    eapply adds_bind; [apply ensure_all_adds|..].
    + intros e new (Hremoved & Hexec & Hprefix & Hfail).
      repeat split; try done.
      * eapply Forall_impl; [exact Hremoved|]. intros path Hin.
        rewrite fmap_app. apply elem_of_app. by left.
      * by apply prefix_app_r.
    + intros [] new s' (Hremoved & Hexec & Hprefix & Hlinks).
      destruct (IH (N.min smallest_id (start.instance_id_ instance)) s')
        as (new' & Hcalls & Hremoved' & Hexec' & Hprefix' & Hr).
      exists new'. split; [done|].
      rewrite removals_of_app, executions_of_app, symlinks_of_app, Hlinks,
        Hexec, Hexec'.
      repeat split; try done.
      * rewrite fmap_app. apply Forall_app. split.
        -- eapply Forall_impl; [exact Hremoved|]. intros path Hin.
           apply elem_of_app. by left.
        -- eapply Forall_impl; [exact Hremoved'|]. intros path Hin.
           apply elem_of_app. by right.
      * by apply prefix_app.
      * destruct ((CreateSymlinks_loop _ _ _ _ s').1) as [e|id]; [done|].
        destruct Hr as [-> ->]. done.
Qed.

Lemma calls_after_EnsureDirectoryExists (dir : string) (l : list FsCall) :
  symlinks_of (Call_EnsureDirectoryExists dir :: l) = symlinks_of l ∧
  removals_of (Call_EnsureDirectoryExists dir :: l) = removals_of l.
Proof. done. Qed.

Lemma foldl_min_spec (init : N) (ids : list N) :
  (foldl N.min init ids ≤ init)%N ∧
  Forall (λ id, (foldl N.min init ids ≤ id)%N) ids ∧
  (foldl N.min init ids = init ∨ foldl N.min init ids ∈ ids).
Proof.
  revert init. induction ids as [|id ids IH]; intros init; cbn [foldl].
  - split; [lia|]. split; [constructor|by left].
  - destruct (IH (N.min init id)) as (Hle & Hall & Hin).
    split; [lia|]. split; [constructor; [lia|done]|].
    destruct Hin as [Hin|Hin]; [|right; by right].
    rewrite Hin.
    destruct (N.min_spec init id) as [[_ ->]|[_ ->]]; [by left|right; by left].
Qed.

(** X25.  The links of [CreateSymlinks], whatever the file system
    answers.  With [h] the home of the group and [s] the system wide home,
    the links planned are, for each instance in order,
    [s/cuttlefish_runtime.<id>] to [h/cuttlefish/instances/cvd-<id>],
    [s/cuttlefish] to [h/cuttlefish] and [s/.cuttlefish_config.json] to the
    configuration of [h], and at the end [s/cuttlefish_runtime] to
    [s/cuttlefish_runtime.<m>], [m] being the smallest id.  The links asked
    for are always the first of this plan, and all of it on success;
    nothing is removed but what is at the path of a planned link.  Without a
    system wide home nothing is linked or removed.  The error of a group
    without instance is returned after the links of the instances are made,
    exactly when no id is below the largest [unsigned]: also for a group
    whose only id is that number. *)
Theorem CreateSymlinks_links (group_creation_info : start.GroupCreationInfo)
    (fs : FS) :
  let r := (CreateSymlinks group_creation_info (fs, [])).1 in
  let calls := (CreateSymlinks group_creation_info (fs, [])).2.2 in
  let ids := map start.instance_id_ (start.instances group_creation_info) in
  let smallest_id := foldl N.min UINT_MAX ids in
  match SystemWideUserHome with
  | None =>
      symlinks_of calls = [] ∧ removals_of calls = [] ∧
      (r = inl EnsureDirectoryFailed ∨ r = inl NoSystemWideUserHome)
  | Some system_wide_home =>
      let per_instance :=
        flat_map (instance_links (start.home group_creation_info)
                                 system_wide_home)
                 (start.instances group_creation_info) in
      let plan :=
        per_instance
        ++ [(system_wide_home +:+ "/cuttlefish_runtime."
               +:+ to_string smallest_id,
             system_wide_home +:+ "/cuttlefish_runtime")] in
      symlinks_of calls `prefix_of` plan ∧
      Forall (λ path, path ∈ plan.*2) (removals_of calls) ∧
      match r with
      | inr _ =>
          symlinks_of calls = plan ∧
          smallest_id ∈ ids ∧ Forall (λ id, (smallest_id ≤ id)%N) ids ∧
          (smallest_id < UINT_MAX)%N
      | inl NoInstance =>
          symlinks_of calls = per_instance ∧
          Forall (λ id, (UINT_MAX ≤ id)%N) ids
      | inl _ => True
      end
  end.
Proof.
  cbv zeta.
  set (home := start.home group_creation_info).
  set (instances := start.instances group_creation_info).
  destruct (foldl_min_spec UINT_MAX (map start.instance_id_ instances))
    as (Hle & Hmin & Hin).
  destruct (CreateSymlinks group_creation_info (fs, []))
    as [r [fs' calls]] eqn:Hrun.
  cbn [fst snd]. revert Hrun.
  unfold CreateSymlinks. fold home instances.
  unfold mbind at 1 2 3, M_bind, op at 1, CF_EXPECTF at 1, fail, mret, M_ret.
  cbn [fst snd].
  destruct (EnsureDirectoryExists home fs) as [[] fs1]; cbn [fst snd app].
  2: { intros [= <- <- <-].
       destruct SystemWideUserHome; cbn; repeat split; auto using prefix_nil. }
  destruct SystemWideUserHome as [system_wide_home|];
    [|intros [= <- <- <-]; cbn; repeat split; auto].
  unfold mbind at 1, M_bind.
  destruct (CreateSymlinks_loop_adds home system_wide_home instances UINT_MAX
              (fs1, [Call_EnsureDirectoryExists home]))
    as (new & Hcalls & Hremoved & Hexec & Hprefix & Hr).
  destruct (CreateSymlinks_loop home system_wide_home instances UINT_MAX
              (fs1, [Call_EnsureDirectoryExists home]))
    as [[e|smallest_id] [fs2 calls2]]; cbn [fst snd] in *; subst calls2.
  { intros [= <- <- <-].
    rewrite !(proj1 (calls_after_EnsureDirectoryExists _ _)),
      !(proj2 (calls_after_EnsureDirectoryExists _ _)). repeat split.
    - by apply prefix_app_r.
    - eapply Forall_impl; [exact Hremoved|]. intros path Hpath.
      rewrite fmap_app. apply elem_of_app. by left.
    - by destruct e. }
  destruct Hr as [Hlinks ->].
  unfold mbind at 1, M_bind, CF_EXPECTF at 1, fail, mret, M_ret.
  case_bool_decide as Hsmallest; cbn [fst snd].
  2: { intros [= <- <- <-].
       rewrite !(proj1 (calls_after_EnsureDirectoryExists _ _)),
         !(proj2 (calls_after_EnsureDirectoryExists _ _)). repeat split.
       - by apply prefix_app_r.
       - eapply Forall_impl; [exact Hremoved|]. intros path Hpath.
         rewrite fmap_app. apply elem_of_app. by left.
       - done.
       - rewrite <-Hsmallest in Hmin.
         exact Hmin. }
  match goal with
  | |- context [EnsureSymlink ?target ?link ?s] =>
      destruct (EnsureSymlink_adds target link s)
        as (new' & Hcalls' & Hremoved' & Hexec' & Hr');
      destruct (EnsureSymlink target link s) as [r' [fs3 calls3]]
  end.
  cbn [fst snd] in *. subst calls3. intros [= <- <- <-].
  rewrite !(proj1 (calls_after_EnsureDirectoryExists _ _)),
    !(proj2 (calls_after_EnsureDirectoryExists _ _)).
  rewrite !symlinks_of_app, !removals_of_app, Hlinks. repeat split.
  - destruct r' as [e|[]].
    + destruct Hr' as [_ [->| ->]]; [rewrite app_nil_r; by apply prefix_app_r|
                                     done].
    + by rewrite Hr'.
  - rewrite fmap_app. apply Forall_app. split.
    + eapply Forall_impl; [exact Hremoved|]. intros path Hpath.
      apply elem_of_app. by left.
    + eapply Forall_impl; [exact Hremoved'|]. intros path ->.
      apply elem_of_app. right. by left.
  - destruct r' as [e|[]].
    + destruct Hr' as [Hfail _]. by destruct e.
    + rewrite Hr'. split; [done|]. split; [|split; [done|lia]].
      by destruct Hin as [Hin|Hin]; [congruence|].
Qed.

Lemma remove_acloud_compat_homes_adds (envs : Envs)
    (acloud_compat_homes : list string) (s : FS * list FsCall) :
  adds (remove_acloud_compat_homes envs acloud_compat_homes) s (λ r new,
    r = inr tt ∧
    symlinks_of new = [] ∧ executions_of new = [] ∧
    removals_of new `sublist_of` acloud_compat_homes ∧
    (launched_by_acloud envs = true → removals_of new = [])).
Proof.
  revert s.
  induction acloud_compat_homes as [|acloud_compat_home rest IH]; intros s.
  - by apply adds_ret.
  - cbn [remove_acloud_compat_homes].
    eapply adds_bind with
      (P := λ r new,
         r = inr tt ∧ symlinks_of new = [] ∧ executions_of new = [] ∧
         removals_of new `sublist_of` [acloud_compat_home] ∧
         (launched_by_acloud envs = true → removals_of new = [])).
    + destruct s as [fs calls].
      unfold adds, mbind, M_bind, look, op, mret, M_ret. cbn [fst snd].
      destruct (FileExists acloud_compat_home true fs); cbn [negb fst snd].
      2: { exists []. rewrite app_nil_r. repeat split; try done.
           apply sublist_nil_l. }
      destruct (launched_by_acloud envs); cbn [negb fst snd].
      { exists []. rewrite app_nil_r. repeat split; try done.
        apply sublist_nil_l. }
      destruct (DirectoryExists acloud_compat_home false fs);
        cbn [negb fst snd].
      * destruct (RecursivelyRemoveDirectory acloud_compat_home fs)
          as [answer fs1]. cbn [fst snd]. eexists. by split.
      * destruct (RemoveFile acloud_compat_home fs) as [answer fs1].
        cbn [fst snd]. eexists. by split.
    + by intros e new [[=] _].
    + intros [] new s' (_ & Hlinks & Hexec & Hremoved & Hacloud).
      destruct (IH s') as (new' & Hcalls & Hr' & Hlinks' & Hexec' & Hremoved'
                           & Hacloud').
      exists new'. split; [done|]. split; [exact Hr'|].
      rewrite symlinks_of_app, executions_of_app, removals_of_app, Hlinks,
        Hlinks', Hexec, Hexec'.
      repeat split; try done.
      * change (acloud_compat_home :: rest)
          with ([acloud_compat_home] ++ rest).
        by apply sublist_app.
      * intros Hlaunched. by rewrite Hacloud, Hacloud'.
Qed.

(** X26.  [AcloudCompatActions], whatever the file system answers.  It
    removes nothing but the paths [<tmp>/acloud_cvd_temp/local-instance-<id>]
    of the ids of the group, each at most once and in the order of the
    instances, and nothing at all when the request was launched by acloud.
    Whether a removal succeeds has no bearing on the result.  It makes no
    link itself: after the removals it hands the executor one list of
    requests, once, and fails only when [/dev/null] cannot be opened (the
    executor is then not called) or when the executor fails. *)
Theorem AcloudCompatActions_removes_and_executes
    (group_creation_info : start.GroupCreationInfo) (request : start.Request)
    (fs : FS) :
  let r := (AcloudCompatActions group_creation_info request (fs, [])).1 in
  let calls :=
    (AcloudCompatActions group_creation_info request (fs, [])).2.2 in
  removals_of calls
    `sublist_of` map acloud_compat_home
                     (start.instances group_creation_info) ∧
  (launched_by_acloud (start.envs group_creation_info) = true →
   removals_of calls = []) ∧
  symlinks_of calls = [] ∧
  match r with
  | inl DevNullNotOpen => executions_of calls = []
  | inr _ | inl ExecuteFailed =>
      executions_of calls
      = [request_forms group_creation_info
                       (start.working_directory request)] ∧
      last calls
      = Some (Call_Execute
                (request_forms group_creation_info
                               (start.working_directory request)))
  | inl _ => False
  end.
Proof.
  cbv zeta.
  destruct (AcloudCompatActions group_creation_info request (fs, []))
    as [r [fs' calls]] eqn:Hrun.
  cbn [fst snd]. revert Hrun. unfold AcloudCompatActions.
  unfold mbind at 1, M_bind.
  destruct (remove_acloud_compat_homes_adds
              (start.envs group_creation_info)
              (map acloud_compat_home (start.instances group_creation_info))
              (fs, []))
    as (new & Hcalls & Hr & Hlinks & Hexec & Hremoved & Hacloud).
  destruct (remove_acloud_compat_homes _ _ (fs, [])) as [r1 [fs1 calls1]].
  cbn [fst snd app] in *. subst r1 calls1.
  unfold mbind, M_bind, look, op, CF_EXPECTF, fail, mret, M_ret.
  cbn [fst snd].
  destruct (dev_null_IsOpen fs1); cbn [fst snd];
    [|by intros [= <- <- <-]].
  destruct (Execute (request_forms group_creation_info
                                   (start.working_directory request)) fs1)
    as [[] fs2]; cbn [fst snd];
    intros [= <- <- <-];
    rewrite symlinks_of_app, executions_of_app, removals_of_app, Hlinks,
      Hexec, last_snoc; cbn; rewrite !app_nil_r; done.
Qed.

End LinkFacts.

(** The links of the plan [{g, home:/h, ids 3 and 1}], and a group whose
    only id is the largest [unsigned]. *)
Example CreateSymlinks_3_1 :
  @links.CreateSymlinks unit obliging_file_system (plan_g [3; 1]%N) (tt, [])
  = (inr tt,
     (tt,
      [ links.Call_EnsureDirectoryExists "/h";
        links.Call_symlink "/h/cuttlefish/instances/cvd-3"
                           "/u/cuttlefish_runtime.3";
        links.Call_symlink "/h/cuttlefish" "/u/cuttlefish";
        links.Call_symlink "/h/cuttlefish/assembly/cuttlefish_config.json"
                           "/u/.cuttlefish_config.json";
        links.Call_symlink "/h/cuttlefish/instances/cvd-1"
                           "/u/cuttlefish_runtime.1";
        links.Call_symlink "/h/cuttlefish" "/u/cuttlefish";
        links.Call_symlink "/h/cuttlefish/assembly/cuttlefish_config.json"
                           "/u/.cuttlefish_config.json";
        links.Call_symlink "/u/cuttlefish_runtime.1"
                           "/u/cuttlefish_runtime" ])).
Proof. by vm_compute. Qed.

Example CreateSymlinks_largest_unsigned :
  (@links.CreateSymlinks unit obliging_file_system
     (plan_g [4294967295]%N) (tt, [])).1
  = inl links.NoInstance.
Proof. by vm_compute. Qed.

Example AcloudCompatActions_3 :
  links.executions_of
    (@links.AcloudCompatActions unit obliging_file_system (plan_g [3]%N)
       (start_request [] "/h" start.WAIT_BEHAVIOR_COMPLETE) (tt, [])).2.2
  = [[ links.mkMakeRequestForm ["mkdir"; "-p"; "/h"] ∅ [] "/work";
       links.mkMakeRequestForm
         ["ln"; "-T"; "-f"; "-s"; "/tools"; "/h/host_bins"] ∅ [] "/work";
       links.mkMakeRequestForm
         ["ln"; "-T"; "-f"; "-s"; "/h";
          "/tmp/acloud_cvd_temp/local-instance-3"] ∅ [] "/work" ]].
Proof. by vm_compute. Qed.

(** * The daemon flag on any argument vector *)

Section DaemonNormalisation.
Import flag_parser start.

Lemma daemon_setter_outcome (m : FlagMatch) (vars : Vars) :
  (daemon_setter m vars).2 = vars ∧
  match (daemon_setter m vars).1 with
  | Ok _ => True
  | Err e => is_daemon_error e = true
  | Abort => False
  end.
Proof.
  unfold daemon_setter. case_decide.
  - unfold CF_EXPECT. by destruct (negb _).
  - unfold bind at 1, CF_EXPECT at 1.
    destruct (contains "," (value m)); [done|]. cbn [negb].
    destruct (existsb _ _); [done|].
    cbn [kValidFalseStrings for_each]. unfold bind, CF_EXPECT, ret, lift.
    by repeat (destruct (EqualsIgnoreCase _ (value m)); cbn [negb]).
Qed.

Lemma daemon_Process (arg : string) (next_arg : option string) (vars : Vars) :
  (Process daemon_flag arg next_arg vars).2 = vars ∧
  match (Process daemon_flag arg next_arg vars).1 with
  | Ok kFlagNoMatch => flag_matches daemon_flag arg = false
  | Ok kFlagConsumed =>
      flag_matches daemon_flag arg = true ∧
      arg ≠ "-nodaemon" ∧ arg ≠ "--nodaemon"
  | Ok kFlagConsumedWithFollowing => False
  | Err e => flag_matches daemon_flag arg = true ∧ is_daemon_error e = true
  | Abort => False
  end.
Proof.
  assert (∀ m r,
            (let '(r0, vars') := daemon_setter m vars in
             match r0 with
             | Ok _ => (Ok kFlagConsumed, vars')
             | Err e => (Err e, vars')
             | Abort => (Abort, vars')
             end) = r →
            r.2 = vars ∧
            match r.1 with
            | Ok kFlagConsumed => (daemon_setter m vars).1 = Ok tt
            | Err e => is_daemon_error e = true
            | _ => False
            end) as Hset.
  { intros m r <-. destruct (daemon_setter_outcome m vars) as [Hvars Hr].
    by destruct (daemon_setter m vars) as [[[]|e|] vars']. }
  unfold Process, flag_matches, alias_matches, daemon_flag.
  cbn [aliases Setter Process_aliases existsb mode alias_name].
  unfold bind, ret.
  destruct (String.prefix "-daemon=" arg) eqn:Hp1.
  { cbn [orb]. edestruct Hset as [Hvars Hr]; [reflexivity|].
    split; [exact Hvars|].
    destruct (daemon_setter _ vars) as [[[]|e|] vars']; cbn in *; try done.
    repeat split; intros ->; discriminate Hp1. }
  destruct (String.prefix "--daemon=" arg) eqn:Hp2.
  { cbn [orb]. edestruct Hset as [Hvars Hr]; [reflexivity|].
    split; [exact Hvars|].
    destruct (daemon_setter _ vars) as [[[]|e|] vars']; cbn in *; try done.
    repeat split; intros ->; discriminate Hp2. }
  cbn [orb].
  repeat case_decide; subst; by vm_compute.
Qed.

Lemma daemon_Parse_loop (rest kept : Args) (vars : Vars) :
  (Parse_loop daemon_flag kept rest vars).2.2 = vars ∧
  match (Parse_loop daemon_flag kept rest vars).1 with
  | Ok _ =>
      (Parse_loop daemon_flag kept rest vars).2.1
      = kept ++ filter (λ arg, flag_matches daemon_flag arg = false) rest ∧
      ("-nodaemon" ∉ rest) ∧ ("--nodaemon" ∉ rest)
  | Err e =>
      is_daemon_error e = true ∧
      (∃ arg, arg ∈ rest ∧ flag_matches daemon_flag arg = true) ∧
      ∃ kept', (Parse_loop daemon_flag kept rest vars).2.1 = kept ++ kept' ∧
               kept' `sublist_of` rest
  | Abort => False
  end.
Proof.
  revert kept. induction rest as [|arg rest IH]; intros kept.
  - cbn. rewrite app_nil_r. repeat split; apply not_elem_of_nil.
  - cbn [Parse_loop].
    destruct (daemon_Process arg (head rest) vars) as [Hvars Hr].
    destruct (Process daemon_flag arg (head rest) vars)
      as [[[]|e|] vars'] eqn:Hp; cbn [fst snd] in *; subst vars'; try done.
    + destruct (IH (kept ++ [arg])) as [Hvars' Hrest]. split; [done|].
      destruct ((Parse_loop daemon_flag (kept ++ [arg]) rest vars).1)
        as [[]|e|]; [| |done].
      * destruct Hrest as (-> & Hno1 & Hno2).
        unfold Args in *. rewrite filter_cons, decide_True by done. rewrite <-app_assoc.
        split; [done|].
        rewrite !not_elem_of_cons. repeat split; try done;
          intros <-; by vm_compute in Hr.
      * destruct Hrest as (Herr & (arg' & Harg' & Hmatch) & kept' & -> & Hsub).
        split; [done|]. split; [exists arg'; split; [by right|done]|].
        exists (arg :: kept'). rewrite <-app_assoc. split; [done|].
        by constructor.
    + destruct (IH kept) as [Hvars' Hrest]. split; [done|].
      destruct Hr as (Hmatch & Hne1 & Hne2).
      destruct ((Parse_loop daemon_flag kept rest vars).1) as [[]|e|];
        [| |done].
      * destruct Hrest as (-> & Hno1 & Hno2).
        unfold Args in *. rewrite filter_cons, decide_False by (by rewrite Hmatch).
        split; [done|]. rewrite !not_elem_of_cons. by repeat split.
      * destruct Hrest as (Herr & (arg' & Harg' & Hmatch') & kept' & -> & Hsub).
        split; [done|]. split; [exists arg'; split; [by right|done]|].
        exists kept'. split; [done|]. by constructor.
    + destruct Hr as [Hmatch Herr]. split; [done|]. split; [done|].
      split; [exists arg; split; [by left|done]|].
      by exists (arg :: rest).
Qed.

(** X27.  The daemon flag on any argument vector.  Lines 697 and 698 of
    [Handle] never abort.  When they succeed, the arguments are the ones
    given without those the daemon flag matches, in their order, followed
    by [--daemon=true], and neither [-nodaemon] nor [--nodaemon] was among
    them.  They fail only on a vector with an argument the daemon flag
    matches, with one of the four errors of its setter; [--daemon=true] is
    then not appended and what is left is part of the vector given. *)
Theorem normalize_daemon_strips (subcmd_args : Args) :
  match normalize_daemon subcmd_args with
  | (Ok _, out) =>
      out = filter (λ arg, flag_matches daemon_flag arg = false) subcmd_args
            ++ ["--daemon=true"] ∧
      ("-nodaemon" ∉ subcmd_args) ∧ ("--nodaemon" ∉ subcmd_args)
  | (Err e, out) =>
      is_daemon_error e = true ∧
      (∃ arg, arg ∈ subcmd_args ∧ flag_matches daemon_flag arg = true) ∧
      out `sublist_of` subcmd_args
  | (Abort, _) => False
  end.
Proof.
  unfold normalize_daemon, ConsumeDaemonModeFlag, consume_flags, ConsumeFlags.
  cbn [for_each]. unfold bind, Parse, ret, modify.
  destruct (daemon_Parse_loop subcmd_args [] ∅) as [Hvars Hr].
  destruct (Parse_loop daemon_flag [] subcmd_args ∅)
    as [[[]|e|] [out vars]]; cbn [fst snd app] in *; [| |done].
  - destruct Hr as (-> & Hno1 & Hno2). done.
  - destruct Hr as (Herr & Hmatch & kept' & -> & Hsub). done.
Qed.

End DaemonNormalisation.

(** * The handler from the launch on *)

Section HandleLaunchFacts.
Import flag_parser start.
Context `{StartDeps}.

(** [Handle], when the request carries no configuration file and its
    preconditions verify: the HOME of the client, then the rest. *)
Lemma Handle_reaches_environment (request : Request) (trace : Trace) :
  (GetConfigPath (ParseInvocation request).2).1 = Ok None →
  VerifyPrecondition request = None →
  Handle request trace
  = match normalize_home request (env request) with
    | Ok envs =>
        Handle_from_envs request (ParseInvocation request).1
          (GetConfigPath (ParseInvocation request).2).2 envs trace
    | Err e => (Err e, trace)
    | Abort => (Abort, trace)
    end.
Proof.
  intros Hconfig Hverified. unfold Handle, Handle_from_envs.
  unfold bind at 1, lift at 1, CanHandle.
  destruct (ParseInvocation request) as [subcmd subcmd_args]. cbn [fst snd] in *.
  destruct (GetConfigPath subcmd_args) as [config_result rest].
  cbn [fst snd] in *. subst config_result.
  unfold bind at 1, lift at 1. rewrite Hverified.
  unfold bind at 1, lift at 1.
  by destruct (normalize_home request (env request)).
Qed.

(** After the launch: at most the status of the group is written, and the
    answer is [answer_after_launch]. *)
Lemma Handle_after_launch_run (launch_res : Result Response)
    (info : GroupCreationInfo) (trace : Trace) :
  (Handle_after_launch launch_res info trace).1
  = answer_after_launch launch_res info ∧
  ∃ more,
    (Handle_after_launch launch_res info trace).2 = trace ++ more ∧
    (more = [] ∨ ∃ group_json, more = [Call_WriteAll group_json]).
Proof.
  unfold Handle_after_launch, answer_after_launch, and_then.
  unfold bind, lift, call, CF_EXPECT, ret.
  destruct launch_res as [response| |];
    [|by split; [|exists []; rewrite app_nil_r; auto]..].
  destruct (FindGroup (group_name info)) as [[]| |];
    [|by split; [|exists []; rewrite app_nil_r; auto]..].
  destruct FetchGroupStatus as [group_json| |];
    [|by split; [|exists []; rewrite app_nil_r; auto]..].
  destruct (bool_decide _); (split; [done|]); eauto.
Qed.


Ltac event_not_in H :=
  repeat (apply elem_of_cons in H as [H|H]; [discriminate H|]);
  by apply elem_of_nil in H.


Lemma attempt_not_aborted {S A} (m : St S A) (s s' : S) (r : Result A) :
  m s = (r, s') → aborted r = false → attempt m s = (Ok r, s').
Proof. unfold attempt. intros -> Hr. by destruct r. Qed.

Lemma attempt_aborted {S A} (m : St S A) (s s' : S) (r : Result A) :
  m s = (r, s') → aborted r = true → attempt m s = (Abort, s').
Proof. unfold attempt. intros -> Hr. by destruct r. Qed.

Lemma events_of_run (trace events new : Trace) (ev : Event) :
  trace ++ new = trace ++ events → ev ∈ events → ev ∈ new.
Proof. by intros ->%app_inv_head. Qed.

(** A request that leaves before the launch registers nothing. *)
Ltac leaves_early Hin :=
  let Htrace := fresh "Htrace" in
  intros [= <- Htrace]; exfalso; try done;
  rewrite <-?app_assoc in Htrace;
  lazymatch type of Htrace with
  | ?t = ?t ++ _ => rewrite <-(app_nil_r t) in Htrace at 1
  | _ => idtac
  end;
  apply (events_of_run _ _ _ _ Htrace) in Hin;
  event_not_in Hin.

(** A run of [Handle] that registers a group has reached the launch: the
    request carries no configuration file, its preconditions verify, the
    environment is settled, the group is the one planned from it, and the
    interrupt handler is armed. *)
Lemma Handle_registered (request : Request) (trace : Trace)
    (info : GroupCreationInfo) (events : list Event) :
  (Handle request trace).2 = trace ++ events →
  aborted (Handle request trace).1 = false →
  Call_SetInstanceGroup info ∈ events →
  ∃ envs bin command,
    (GetConfigPath (ParseInvocation request).2).1 = Ok None ∧
    VerifyPrecondition request = None ∧
    normalize_home request (env request) = Ok envs ∧
    GetGroupCreationInfo bin
      (normalize_daemon (GetConfigPath (ParseInvocation request).2).2).2
      envs request = Ok info ∧
    ok pipe2 = true ∧
    Handle request trace = Handle_launch request command info trace.
Proof.
  destruct (Handle request trace) as [r trace'] eqn:Hrun.
  cbn [fst snd]. intros Hevents Habort Hin. subst trace'.
  revert Hrun. unfold Handle.
  unfold bind at 1, lift at 1, CanHandle.
  destruct (ParseInvocation request) as [subcmd subcmd_args].
  cbn [fst snd].
  destruct (GetConfigPath subcmd_args) as [config_result rest].
  cbn [fst snd].
  unfold bind at 1, lift at 1.
  destruct config_result as [[config_file|]| |];
    [unfold call; leaves_early Hin| |leaves_early Hin..].
  destruct (VerifyPrecondition request) as [message|];
    [leaves_early Hin|].
  unfold bind at 1, lift at 1.
  destruct (normalize_home request (env request)) as [envs| |];
    [|leaves_early Hin..].
  unfold bind at 1, lift at 1.
  destruct (envs !! kAndroidHostOut) as [android_host_out|];
    [|leaves_early Hin].
  unfold bind at 1, lift at 1.
  destruct (FindStartBin android_host_out) as [bin| |];
    [|leaves_early Hin..].
  unfold bind at 1, CF_EXPECT at 1.
  destruct (bool_decide (subcmd ∈ supported_commands_));
    [|leaves_early Hin].
  unfold bind at 1, lift at 1.
  destruct (IsHelpSubcmd rest) as [is_help| |];
    [|leaves_early Hin..].
  destruct (normalize_daemon rest) as [daemon_result daemon_args].
  cbn [snd].
  unfold bind at 1, lift at 1.
  destruct daemon_result as [[]| |];
    [|leaves_early Hin..].
  destruct is_help.
  { unfold bind at 1, lift at 1.
    destruct (ConstructCvdHelpCommand _ _ _ _) as [command| |];
      [|leaves_early Hin..].
    unfold bind, call, ret.
    destruct (Setup command) as [[]| |];
      [|leaves_early Hin..].
    destruct Wait as [infop| |]; leaves_early Hin. }
  unfold bind at 1, lift at 1.
  destruct (GetGroupCreationInfo _ _ _ _) as [info'| |] eqn:Hplan;
    [|leaves_early Hin..].
  unfold bind at 1, lift at 1.
  destruct (ConstructCvdNonHelpCommand _ _ _) as [command| |];
    [|leaves_early Hin..].
  fold (Handle_after_launch).
  intros Hrun.
  assert (Handle_launch request command info' trace = (r, trace ++ events))
    as Hlaunch by exact Hrun.
  clear Hrun.
  assert (info' = info ∧ ok pipe2 = true) as [-> Hpipe].
  { revert Hlaunch. unfold Handle_launch.
    unfold bind at 1, HandleInterruptSignals, call at 1.
    destruct pipe2 as [fd| |]; [|leaves_early Hin..].
    unfold bind at 1.
    destruct (LaunchDeviceInterruptible command info' request
                (trace ++ [Call_HandleInterruptSignals]))
      as [launch_res trace1] eqn:Hldi.
    destruct (aborted launch_res) eqn:Haborted.
    { rewrite (attempt_aborted _ _ _ _ Hldi Haborted). by intros [= <- _]. }
    rewrite (attempt_not_aborted _ _ _ _ Hldi Haborted).
    destruct (LaunchDeviceInterruptible_guarded _ _ _ _ _ _ Hldi Haborted)
      as (launch_events & -> & Hguarded).
    rewrite <-app_assoc.
    unfold bind at 1, StopHandlingInterruptSignals, call at 1.
    destruct (Handle_after_launch_run launch_res info'
                ((trace ++ [Call_HandleInterruptSignals] ++ launch_events)
                 ++ [Call_StopHandlingInterruptSignals]))
      as (_ & more & Hmore & Hwritten).
    destruct (Handle_after_launch launch_res info' _) as [r' trace2].
    cbn [snd] in Hmore. subst trace2. intros [= <- Htrace].
    split; [|done].
    rewrite <-!app_assoc in Htrace.
    apply (events_of_run _ _ _ _ Htrace) in Hin.
    assert (Call_SetInstanceGroup info ∈ launch_events) as Hin'.
    { cbn [app] in Hin. apply elem_of_cons in Hin as [[=]|Hin].
      apply elem_of_app in Hin as [Hin|Hin]; [done|].
      apply elem_of_cons in Hin as [[=]|Hin].
      destruct Hwritten as [->|[group_json ->]]; event_not_in Hin. }
    assert (Call_SetInstanceGroup info ∈ filter guarded_event launch_events)
      as Hfiltered by (by apply list_elem_of_filter).
    rewrite Hguarded in Hfiltered.
    apply elem_of_cons in Hfiltered as [[= ->]|Hfiltered]; [done|].
    destruct (ok _ && negb _); event_not_in Hfiltered. }
  exists envs, bin, command. by repeat split.
Qed.



Lemma normalize_home_resolves (request : Request) (given_home_dir : string) :
  env request !! "HOME" = Some given_home_dir →
  given_home_dir ≠ "" →
  String.prefix "~" given_home_dir = false →
  normalize_home request (env request)
  = and_then
      (and_then SystemWideUserHome (λ system_home,
         EmulateAbsolutePath
           (mkInputPathForm (working_directory request) system_home
                            given_home_dir false)))
      (λ absolute, Ok (<["HOME" := absolute]> (env request))).
Proof.
  intros Hhome Hnonempty Htilde. unfold normalize_home. rewrite Hhome.
  case_decide; [done|]. rewrite Htilde. cbn [negb andb].
  destruct (String.prefix "~/" given_home_dir) eqn:Hslash.
  - destruct given_home_dir as [|c s]; [done|].
    cbn [String.prefix] in Htilde, Hslash.
    destruct (ascii_dec "~" c); [by destruct s|done].
  - unfold and_then. destruct SystemWideUserHome; [|done..].
    by destruct (EmulateAbsolutePath _).
Qed.

(** C7 (as amended).  For a start request whose client-supplied HOME starts
    with [~]: the handler itself makes no call that changes the registry,
    whatever else the request holds; and when the request carries no usable
    [--config_file] and its preconditions verify, so that the handler
    reaches the environment, it fails with the Invalid error of the tilde
    check and has called no collaborator at all.  For any other non-empty
    HOME, a handler that reaches the environment asks for the system-wide
    home and for [EmulateAbsolutePath] of the value, with the working
    directory of the client as base and without following symlinks, and
    fails with their error if one fails; otherwise it goes on with HOME
    replaced by the path returned: the rest of the handler runs on that
    environment, and a group it registers is one the analyzer planned from
    it. *)
Theorem Handle_home (request : Request) (given_home_dir : string)
    (trace : Trace) :
  env request !! "HOME" = Some given_home_dir →
  given_home_dir ≠ "" →
  if String.prefix "~" given_home_dir then
    (∃ events, (Handle request trace).2 = trace ++ events ∧
               filter mutates_registry events = []) ∧
    ((GetConfigPath (ParseInvocation request).2).1 = Ok None →
     VerifyPrecondition request = None →
     Handle request trace = (Err HomeStartsWithTilde, trace) ∧
     error_kind HomeStartsWithTilde = Invalid)
  else
    (GetConfigPath (ParseInvocation request).2).1 = Ok None →
    VerifyPrecondition request = None →
    match and_then SystemWideUserHome (λ system_home,
            EmulateAbsolutePath
              (mkInputPathForm (working_directory request) system_home
                               given_home_dir false)) with
    | Ok absolute =>
        Handle request trace
        = Handle_from_envs request (ParseInvocation request).1
            (GetConfigPath (ParseInvocation request).2).2
            (<["HOME" := absolute]> (env request)) trace ∧
        ∀ info events,
          (Handle request trace).2 = trace ++ events →
          aborted (Handle request trace).1 = false →
          Call_SetInstanceGroup info ∈ events →
          ∃ bin planned,
            Analyze
              (mkCreationAnalyzerParam
                 (normalize_daemon
                    (GetConfigPath (ParseInvocation request).2).2).2
                 (<["HOME" := absolute]> (env request))
                 (selector_args request)) = Ok planned ∧
            UpdateArgsAndEnvs planned bin = Ok info
    | Err e => Handle request trace = (Err e, trace)
    | Abort => Handle request trace = (Abort, trace)
    end.
Proof.
  intros Hhome Hnonempty.
  destruct (String.prefix "~" given_home_dir) eqn:Htilde.
  - pose proof (normalize_home_tilde request _ _ Hhome Htilde) as Hnorm.
    unfold Handle. unfold bind at 1, lift at 1, CanHandle.
    destruct (ParseInvocation request) as [subcmd subcmd_args]. cbn [snd].
    destruct (GetConfigPath subcmd_args) as [config_result subcmd_args'].
    cbn [fst]. unfold bind at 1, lift at 1.
    destruct config_result as [[config_file|]| |].
    + split; [|done]. exists [Call_ExecuteOne
                   (CreateLoadCommand request subcmd_args' config_file)].
      by unfold call.
    + destruct (VerifyPrecondition request).
      * split; [|done]. exists []. by rewrite app_nil_r.
      * unfold bind at 1, lift at 1. rewrite Hnorm.
        split; [|done]. exists []. by rewrite app_nil_r.
    + split; [|done]. exists []. by rewrite app_nil_r.
    + split; [|done]. exists []. by rewrite app_nil_r.
  - intros Hconfig Hverified.
    pose proof (normalize_home_resolves request _ Hhome Hnonempty Htilde)
      as Hnorm.
    rewrite (Handle_reaches_environment request trace Hconfig Hverified).
    rewrite Hnorm.
    destruct (and_then SystemWideUserHome _) as [absolute| |] eqn:Hresolved;
      cbn [and_then]; [|done..].
    split; [done|]. intros info events Hevents Habort Hin.
    destruct (Handle_registered request trace info events)
      as (envs & bin & command & _ & _ & Henvs & Hplan & _).
    { by rewrite (Handle_reaches_environment request trace Hconfig Hverified),
        Hnorm. }
    { by rewrite (Handle_reaches_environment request trace Hconfig Hverified),
        Hnorm. }
    { done. }
    rewrite Hnorm in Henvs. cbn [and_then] in Henvs.
    injection Henvs as <-.
    unfold GetGroupCreationInfo, and_then in Hplan.
    destruct (Analyze _) as [planned| |] eqn:Hanalyze; [|done..].
    by exists bin, planned.
Qed.

End HandleLaunchFacts.


(** The theorem on the request of scenario 6, [HOME=~/x], and on a request
    with the relative HOME [h], which resolves to [/work/h]. *)
Lemma Handle_home_witness :
  let deps := scenario_deps child_succeeds in
  (let request := start_request [] "~/x" start.WAIT_BEHAVIOR_COMPLETE in
   start.env request !! "HOME" = Some "~/x" ∧
   "~/x" ≠ "" ∧
   (∃ events, (@start.Handle deps request []).2 = [] ++ events ∧
              filter start.mutates_registry events = []) ∧
   ((start.GetConfigPath (@start.ParseInvocation deps request).2).1 = Ok None →
    @start.VerifyPrecondition deps request = None →
    @start.Handle deps request [] = (Err HomeStartsWithTilde, []) ∧
    error_kind HomeStartsWithTilde = Invalid)) ∧
  (let request := start_request [] "h" start.WAIT_BEHAVIOR_COMPLETE in
   start.env request !! "HOME" = Some "h" ∧
   "h" ≠ "" ∧
   (start.GetConfigPath (@start.ParseInvocation deps request).2).1 = Ok None ∧
   @start.VerifyPrecondition deps request = None ∧
   @start.Handle deps request []
   = @start.Handle_from_envs deps request "start" []
       (<["HOME" := "/work/h"]> (start.env request)) []).
Proof.
  cbv zeta. split.
  - assert (start.env (start_request [] "~/x" start.WAIT_BEHAVIOR_COMPLETE)
            !! "HOME" = Some "~/x") as Hhome by (vm_compute; reflexivity).
    assert ("~/x" ≠ "") as Hnonempty by discriminate.
    split; [exact Hhome|]. split; [exact Hnonempty|].
    exact (@Handle_home (scenario_deps child_succeeds)
             (start_request [] "~/x" start.WAIT_BEHAVIOR_COMPLETE) "~/x" []
             Hhome Hnonempty).
  - assert (start.env (start_request [] "h" start.WAIT_BEHAVIOR_COMPLETE)
            !! "HOME" = Some "h") as Hhome by (vm_compute; reflexivity).
    assert ("h" ≠ "") as Hnonempty by discriminate.
    assert ((start.GetConfigPath
               (@start.ParseInvocation (scenario_deps child_succeeds)
                  (start_request [] "h" start.WAIT_BEHAVIOR_COMPLETE)).2).1
            = Ok None) as Hconfig by (vm_compute; reflexivity).
    assert (@start.VerifyPrecondition (scenario_deps child_succeeds)
              (start_request [] "h" start.WAIT_BEHAVIOR_COMPLETE) = None)
      as Hverified by (vm_compute; reflexivity).
    split; [exact Hhome|]. split; [exact Hnonempty|].
    split; [exact Hconfig|]. split; [exact Hverified|].
    exact (proj1 (@Handle_home (scenario_deps child_succeeds)
                    (start_request [] "h" start.WAIT_BEHAVIOR_COMPLETE) "h" []
                    Hhome Hnonempty Hconfig Hverified)).
Defined.
